(** * OptiCommPy, [optic/metrics.py]: performance metrics of an optical link

    A shallow embedding of the metrics core (hard decision, LLR engine,
    BER/SER/SNR estimator, Monte Carlo GMI and MI estimators) and the
    properties of its specification.

    Numeric model.  A float64 is idealised: finite values are real numbers
    ([R], no rounding).  Symbol streams and constellations are finite
    complex numbers ([complex], a pair of reals) and the symbol arithmetic
    stays in [R]; an array division by zero (a zero sample in [tx / rx], a
    zero power in [pnorm], a zero constellation energy, a zero noise
    variance in [calcLLR]) has no meaning there, and the theorems on the
    values that [fastBERcalc], [monteCarloMI] and [calcMI] return assume
    the divisor nonzero.  The two quotients of scalars, line 121 of
    [fastBERcalc] and [1 / sigma2] of [calcMI], raise [ZeroDivisionError]
    on a zero divisor ([py_div]).  The scalars the code obtains through
    [np.log] or the mean of a possibly empty array are [xfloat]: a real or
    one of the IEEE values +inf, -inf and nan, which is what the LLR
    clipping of [monteCarloGMI] tests for.

    Range.  The likelihoods of [calcMI] underflow as in float64 ([fl0]):
    its result is an infinity when they all vanish.  The likelihoods of
    [calcLLR] and the exponential of the GMI step are exact; a theorem
    that gives their values as finite numbers assumes the exponents in
    the range of float64 ([likelihoods_in_range]), and the bounds on the
    GMI are stated so that they hold of -inf and nan too.

    Arrays.  A 1-D array is a list.  A canonical 2-D array (time along axis
    0, one column per mode) is held column by column: element [k] of the
    list is [x[:, k]].  The arrays hold complex numbers, and [rx] and [tx]
    are two arrays, not one array passed twice.  Python exceptions are
    [None] in the option monad. *)

From Stdlib Require Import Reals ZArith Lia Lra List String.
From stdpp Require Import base option list.
Import ListNotations.

Open Scope R_scope.

(** ** Complex numbers *)

Record complex : Type := mkC { Re : R; Im : R }.

Definition C0 : complex := mkC 0 0.

Definition Cadd (a b : complex) : complex := mkC (Re a + Re b) (Im a + Im b).
Definition Csub (a b : complex) : complex := mkC (Re a - Re b) (Im a - Im b).
Definition Cmul (a b : complex) : complex :=
  mkC (Re a * Re b - Im a * Im b) (Re a * Im b + Im a * Re b).
Definition Cconj (a : complex) : complex := mkC (Re a) (- Im a).

(** [a / b] for complex [a], [b]. *)
Definition Cdiv (a b : complex) : complex :=
  let d := Re b * Re b + Im b * Im b in
  mkC ((Re a * Re b + Im a * Im b) / d) ((Im a * Re b - Re a * Im b) / d).

(** [s * a] and [a / s] for a real scalar [s]. *)
Definition Cscale (s : R) (a : complex) : complex := mkC (s * Re a) (s * Im a).
Definition Cdivr (a : complex) (s : R) : complex := mkC (Re a / s) (Im a / s).

(** [np.abs] of a complex number. *)
Definition Cabs (a : complex) : R := sqrt (Re a * Re a + Im a * Im a).

(** ** Floats with the IEEE special values *)

Inductive xfloat : Type :=
| Fin (x : R)
| PInf
| NInf
| NaN.

Definition xneg (a : xfloat) : xfloat :=
  match a with
  | Fin x => Fin (- x)
  | PInf => NInf
  | NInf => PInf
  | NaN => NaN
  end.

Definition xadd (a b : xfloat) : xfloat :=
  match a, b with
  | NaN, _ | _, NaN => NaN
  | Fin x, Fin y => Fin (x + y)
  | PInf, NInf | NInf, PInf => NaN
  | PInf, _ | _, PInf => PInf
  | NInf, _ | _, NInf => NInf
  end.

Definition xsub (a b : xfloat) : xfloat := xadd a (xneg b).

(** Sign of an infinity multiplied or divided by the finite [x]. *)
Definition xinf_sign (x : R) (pos : bool) : xfloat :=
  if Req_dec_T x 0 then NaN
  else if Rlt_dec 0 x then (if pos then PInf else NInf)
  else (if pos then NInf else PInf).

Definition xmul (a b : xfloat) : xfloat :=
  match a, b with
  | NaN, _ | _, NaN => NaN
  | Fin x, Fin y => Fin (x * y)
  | Fin x, PInf | PInf, Fin x => xinf_sign x true
  | Fin x, NInf | NInf, Fin x => xinf_sign x false
  | PInf, PInf | NInf, NInf => PInf
  | PInf, NInf | NInf, PInf => NInf
  end.

(** [x / y] on finite operands: a zero divisor gives nan or an infinity. *)
Definition np_div (x y : R) : xfloat :=
  if Req_dec_T y 0 then
    (if Req_dec_T x 0 then NaN else if Rlt_dec 0 x then PInf else NInf)
  else Fin (x / y).

(** [x / y] on two scalars, Python floats or scalars of a compiled kernel:
    a zero divisor raises [ZeroDivisionError]. *)
Definition py_div (x y : R) : option R :=
  if Req_dec_T y 0 then None else Some (x / y).

(** Half the least positive float64. *)
Definition tiny : R := / 2 ^ 1075.

(** Underflow: a real of magnitude at most [tiny] rounds to zero. *)
Definition fl0 (x : R) : R := if Rle_dec (Rabs x) tiny then 0 else x.

(** [a / n] for an element count [n], as [np.mean] divides. *)
Definition xdivn (a : xfloat) (n : nat) : xfloat :=
  match a with
  | Fin x => np_div x (INR n)
  | _ => a
  end.

Definition xexp (a : xfloat) : xfloat :=
  match a with
  | Fin x => Fin (exp x)
  | PInf => PInf
  | NInf => Fin 0
  | NaN => NaN
  end.

(** [np.log] of a finite value: [log 0 = -inf], nan below zero. *)
Definition np_log (x : R) : xfloat :=
  if Req_dec_T x 0 then NInf
  else if Rlt_dec 0 x then Fin (ln x) else NaN.

Definition xlog_base (base : R) (a : xfloat) : xfloat :=
  match a with
  | Fin x =>
      match np_log x with
      | Fin y => Fin (y / ln base)
      | s => s
      end
  | PInf => PInf
  | NInf | NaN => NaN
  end.

Definition xlog2 : xfloat -> xfloat := xlog_base 2.
Definition xlog10 : xfloat -> xfloat := xlog_base 10.

(** [a == b] on floats: nan equals nothing. *)
Definition xeqb (a b : xfloat) : bool :=
  match a, b with
  | Fin x, Fin y => if Req_dec_T x y then true else false
  | PInf, PInf | NInf, NInf => true
  | _, _ => false
  end.

Definition xsum (l : list xfloat) : xfloat := foldl xadd (Fin 0) l.

(** [np.mean] of a float array; the mean of an empty array is nan. *)
Definition xmean (l : list xfloat) : xfloat := xdivn (xsum l) (length l).

(** ** numpy primitives *)

Definition Rsum (l : list R) : R := foldr Rplus 0 l.
Definition Rmean (l : list R) : R := Rsum l / INR (length l).
Definition Csum (l : list complex) : complex := foldr Cadd C0 l.
Definition Cmean (l : list complex) : complex := Cdivr (Csum l) (INR (length l)).

(** [np.var] of a complex array: the mean of [|x - mean x|^2], the square
    taken as the real part of [d * conj d]. *)
Definition Cabs2 (d : complex) : R := Re (Cmul d (Cconj d)).
Definition np_var (x : list complex) : R :=
  let m := Cmean x in Rmean (map (fun z => Cabs2 (Csub z m)) x).

(** [int(np.log2(M))]; [M = 0] gives -inf, which [int] refuses. *)
Definition ilog2 (M : nat) : option nat :=
  if (M =? 0)%nat then None else Some (Nat.log2 M).

(** [np.argmin]: the first index of the least element; an empty array is an
    error. *)
Fixpoint argmin_from (l : list R) (i : nat) (best : R) (ibest : nat) : nat :=
  match l with
  | [] => ibest
  | x :: l' =>
      if Rlt_dec x best then argmin_from l' (S i) x i
      else argmin_from l' (S i) best ibest
  end.

Definition np_argmin (l : list R) : option nat :=
  match l with
  | [] => None
  | x :: l' => Some (argmin_from l' 1 x 0)
  end.

(** An elementwise binary operation on two 1-D arrays of one length; other
    lengths are a shape error (the broadcast of a one-element operand is
    not modelled). *)
Definition ew2 {A B D} (f : A -> B -> D) (a : list A) (b : list B)
  : option (list D) :=
  if (length a =? length b)%nat then Some (zip_with f a b) else None.

(** [l[i] = v]. *)
Definition set_item {A} (l : list A) (i : nat) (v : A) : option (list A) :=
  if (i <? length l)%nat then Some (<[i:=v]> l) else None.

(** [l[lo:hi] = v]: the slice is cut to the array, [v] has the length of the
    slice, or one element that is repeated. *)
Definition slice_assign {A} (l : list A) (lo hi : nat) (v : list A)
  : option (list A) :=
  let lo' := Nat.min lo (length l) in
  let n := (Nat.min hi (length l) - lo')%nat in
  if (length v =? n)%nat then Some (take lo' l ++ v ++ drop (lo' + n) l)
  else
    match v with
    | [x] => Some (take lo' l ++ replicate n x ++ drop (lo' + n) l)
    | _ => None
    end.

(** [l[n::b]]: the elements at the indices [n], [n+b], [n+2b], ... *)
Definition stride {A} (n b : nat) (l : list A) : list A :=
  map snd
    (List.filter (fun p => (n <=? fst p)%nat && ((fst p - n) mod b =? 0)%nat)
                 (zip (seq 0 (length l)) l)).

(** [l.reshape(-1, b)]: rows of [b] consecutive elements. *)
Fixpoint chunks {A} (rows b : nat) (l : list A) : list (list A) :=
  match rows with
  | O => []
  | S rows' => take b l :: chunks rows' b (drop b l)
  end.

Definition reshape_rows {A} (b : nat) (l : list A) : option (list (list A)) :=
  if (b =? 0)%nat then None
  else if (length l mod b =? 0)%nat then Some (chunks (length l / b) b l)
  else None.

(** [prob[mask]] for a boolean mask of the length of [prob]. *)
Definition mask_select {A} (l : list A) (mask : list bool) : option (list A) :=
  if (length l =? length mask)%nat
  then Some (map fst (List.filter snd (zip l mask)))
  else None.

(** [bitMap[:, j]]. *)
Definition column {A} (j : nat) (m : list (list A)) : option (list A) :=
  mapM (fun row => row !! j) m.

(** [np.logical_xor] on numeric arrays: nonzero is true. *)
Definition logical_xor (a b : list Z) : option (list bool) :=
  ew2 (fun x y => xorb (negb (x =? 0)%Z) (negb (y =? 0)%Z)) a b.

Definition count_true (l : list bool) : nat :=
  length (List.filter (fun e : bool => e) l).

(** [np.mean] of a boolean array. *)
Definition mean_bool (l : list bool) : xfloat :=
  np_div (INR (count_true l)) (INR (length l)).

(** [for i in range(n): s = body(i, s)], stopping at the first error. *)
Fixpoint for_each {St} (body : nat -> St -> option St) (idx : list nat)
    (s : St) : option St :=
  match idx with
  | [] => Some s
  | i :: idx' => s' ← body i s; for_each body idx' s'
  end.

Definition for_range {St} (n : nat) (body : nat -> St -> option St) (s : St)
  : option St := for_each body (seq 0 n) s.

(** ** Arrays of modes *)

Inductive ndarray : Type :=
| Array1D (v : list complex)
| Array2D (rows : list (list complex)).

Definition transpose (rows : list (list complex)) : list (list complex) :=
  map (fun j => map (fun r => nth j r C0) rows)
      (seq 0 (length (hd [] rows))).

(** The shape canonicalisation of the estimators: a 1-D array becomes one
    column; a 2-D array with more columns than rows is transposed.  The
    result is the list of the columns. *)
Definition columns (x : ndarray) : list (list complex) :=
  match x with
  | Array1D v => [v]
  | Array2D rows =>
      if (length rows <? length (hd [] rows))%nat then rows
      else transpose rows
  end.

(** [np.var(rx - tx, axis=0)] on two arrays of one shape. *)
Definition var_axis0 (rx tx : list (list complex)) : option (list R) :=
  d ← ew2 (fun r t => ew2 Csub r t) rx tx;
  mapM (fun c => np_var <$> c) d.

(** ** The collaborators of [optic.modulation] and [optic.dsp] *)

(** [GrayMapping(M, constType)] gives the constellation and
    [demodulateGray(constSymb, M, constType)] the bits of its points, one
    point after the other; neither is defined in [metrics.py]. *)
Class Modulation : Type := {
  GrayMapping : nat -> string -> list complex;
  demodulateGray : list complex -> nat -> string -> list Z
}.

(** [signal_power(x)]: [np.mean(x * np.conj(x)).real]. *)
Definition signal_power (x : list complex) : R :=
  Re (Cmean (map (fun z => Cmul z (Cconj z)) x)).

(** Modelled from the spec: [pnorm] of [optic.dsp], which [metrics.py]
    imports; it rescales a sequence to unit average power, dividing it by
    the square root of its mean squared magnitude. *)
Definition pnorm (x : list complex) : list complex :=
  map (fun z => Cdivr z (sqrt (signal_power x))) x.

(** ** [hardDecision] *)

Definition hardDecision_step (rxSymb constSymb : list complex)
    (bitMap : list (list Z)) (b i : nat) (decBits : list Z)
  : option (list Z) :=
  r ← rxSymb !! i;
  indSymb ← np_argmin (map (fun c => Cabs (Csub r c)) constSymb);
  row ← bitMap !! indSymb;
  slice_assign decBits (i * b) (i * b + b) row.

Definition hardDecision (rxSymb constSymb : list complex)
    (bitMap : list (list Z)) : option (list Z) :=
  let M := length constSymb in
  b ← ilog2 M;
  let decBits := replicate (length rxSymb * b) 0%Z in
  for_range (length rxSymb) (hardDecision_step rxSymb constSymb bitMap b)
            decBits.

(** ** [calcLLR] *)

Definition calcLLR_bit (prob : list R) (bitMap : list (list Z)) (b i : nat)
    (indBit : nat) (LLRs : list xfloat) : option (list xfloat) :=
  col ← column indBit bitMap;
  s0 ← mask_select prob (map (fun e => (e =? 0)%Z) col);
  s1 ← mask_select prob (map (fun e => (e =? 1)%Z) col);
  let p0 := Rsum s0 in
  let p1 := Rsum s1 in
  set_item LLRs (i * b + indBit) (xsub (np_log p0) (np_log p1)).

Definition calcLLR_step (rxSymb : list complex) (sigma2 : R)
    (constSymb : list complex) (bitMap : list (list Z)) (b i : nat)
    (LLRs : list xfloat) : option (list xfloat) :=
  r ← rxSymb !! i;
  let prob := map (fun c => exp (- Cabs (Csub r c) ^ 2 / sigma2)) constSymb in
  for_range b (calcLLR_bit prob bitMap b i) LLRs.

Definition calcLLR (rxSymb : list complex) (sigma2 : R)
    (constSymb : list complex) (bitMap : list (list Z))
  : option (list xfloat) :=
  let M := length constSymb in
  b ← ilog2 M;
  let LLRs := replicate (length rxSymb * b) (Fin 0) in
  for_range (length rxSymb) (calcLLR_step rxSymb sigma2 constSymb bitMap b)
            LLRs.

(** ** Signal conditioning shared by the estimators *)

(** [x[:, k] = pnorm(x[:, k])]. *)
Definition normalize_column (k : nat) (x : list (list complex))
  : option (list (list complex)) :=
  xk ← x !! k; set_item x k (pnorm xk).

(** [rot = np.mean(tx[:, k] / rx[:, k]); rx[:, k] = rot * rx[:, k]]. *)
Definition correct_phase (k : nat) (rx tx : list (list complex))
  : option (list (list complex)) :=
  txk ← tx !! k;
  rxk ← rx !! k;
  q ← ew2 Cdiv txk rxk;
  let rot := Cmean q in
  set_item rx k (map (Cmul rot) rxk).

(** Mean energy of the constellation: [np.mean(np.abs(constSymb) ** 2)]. *)
Definition mean_energy (constSymb : list complex) : R :=
  Rmean (map (fun c => Cabs c ^ 2) constSymb).

(** ** [fastBERcalc] *)

(** Lines 110-122.  [signal_power] is compiled and returns Python floats:
    the quotient of line 121 raises on a residual of power zero. *)
Definition fastBER_pre_step (k : nat)
    (st : list (list complex) * list (list complex) * list xfloat)
  : option (list (list complex) * list (list complex) * list xfloat) :=
  let '(rx, tx, SNR) := st in
  rx ← normalize_column k rx;
  tx ← normalize_column k tx;
  rx ← correct_phase k rx tx;
  txk ← tx !! k;
  rxk ← rx !! k;
  d ← ew2 Csub rxk txk;
  q ← py_div (signal_power txk) (signal_power d);
  SNR ← set_item SNR k (xmul (Fin 10) (xlog10 (Fin q)));
  Some (rx, tx, SNR).

(** Lines 128-130: error vector, bit-error rate and symbol-error rate. *)
Definition bit_errors (brx btx : list Z) : option (list bool) :=
  logical_xor brx btx.

Definition BER_of (err : list bool) : xfloat := mean_bool err.

Definition SER_of (b : nat) (err : list bool) : option xfloat :=
  groups ← reshape_rows b err;
  Some (mean_bool (map (fun g => (0 <? count_true g)%nat) groups)).

Definition fastBER_err_step (Es : R) (constSymb : list complex)
    (bitMap : list (list Z)) (b : nat) (rx tx : list (list complex))
    (k : nat) (st : list xfloat * list xfloat)
  : option (list xfloat * list xfloat) :=
  let '(BER, SER) := st in
  rxk ← rx !! k;
  brx ← hardDecision (map (Cscale (sqrt Es)) rxk) constSymb bitMap;
  txk ← tx !! k;
  btx ← hardDecision (map (Cscale (sqrt Es)) txk) constSymb bitMap;
  err ← bit_errors brx btx;
  BER ← set_item BER k (BER_of err);
  ser ← SER_of b err;
  SER ← set_item SER k ser;
  Some (BER, SER).

Definition fastBERcalc `{Modulation} (rx tx : ndarray) (M : nat)
    (constType : string) : option (list xfloat * list xfloat * list xfloat) :=
  let constSymb := GrayMapping M constType in
  let Es := mean_energy constSymb in
  let rx := columns rx in
  let tx := columns tx in
  let nModes := length tx in
  let SNR := replicate nModes (Fin 0) in
  let BER := replicate nModes (Fin 0) in
  let SER := replicate nModes (Fin 0) in
  b ← ilog2 M;
  bitMap ← reshape_rows b (demodulateGray constSymb M constType);
  '(rx, tx, SNR) ← for_range nModes fastBER_pre_step (rx, tx, SNR);
  '(BER, SER) ←
    for_range nModes (fastBER_err_step Es constSymb bitMap b rx tx) (BER, SER);
  Some (BER, SER, SNR).

(** ** [monteCarloGMI] *)

(** Lines 221-228: normalisation and phase correction of mode [k]. *)
Definition align_step (k : nat)
    (st : list (list complex) * list (list complex))
  : option (list (list complex) * list (list complex)) :=
  let '(rx, tx) := st in
  rx ← normalize_column k rx;
  tx ← normalize_column k tx;
  rx ← correct_phase k rx tx;
  Some (rx, tx).

(** Lines 240-241: [LLRs[LLRs == np.inf] = 500] and
    [LLRs[LLRs == -np.inf] = -500]. *)
Definition clipLLR (LLRs : list xfloat) : list xfloat :=
  let LLRs := map (fun x => if xeqb x PInf then Fin 500 else x) LLRs in
  map (fun x => if xeqb x NInf then Fin (-500) else x) LLRs.

(** Lines 231-241: the reference bits and the clipped LLRs of one mode. *)
Definition gmi_soft (Es : R) (constSymb : list complex)
    (bitMap : list (list Z)) (sigma2 : R) (rxk txk : list complex)
  : option (list Z * list xfloat) :=
  btx ← hardDecision (map (Cscale (sqrt Es)) txk) constSymb bitMap;
  LLRs ← calcLLR rxk sigma2 (map (fun c => Cdivr c (sqrt Es)) constSymb)
                 bitMap;
  Some (btx, clipLLR LLRs).

(** Lines 248-251: the mutual information of bit position [n]. *)
Definition gmi_bit (b : nat) (btx : list Z) (LLRs : list xfloat) (n : nat)
    (MIperBitPosition : list xfloat) : option (list xfloat) :=
  t ← ew2 (fun v l => xmul (Fin (IZR (2 * v - 1))) l)
          (stride n b btx) (stride n b LLRs);
  set_item MIperBitPosition n
    (xsub (Fin 1)
          (xmean (map (fun e => xlog2 (xadd (Fin 1) (xexp e))) t))).

(** Lines 231-251: [MIperBitPosition] of one mode. *)
Definition gmi_mode (M : nat) (Es : R) (constSymb : list complex)
    (bitMap : list (list Z)) (sigma2 : R) (rxk txk : list complex)
  : option (list xfloat) :=
  '(btx, LLRs) ← gmi_soft Es constSymb bitMap sigma2 rxk txk;
  b ← ilog2 M;
  for_range b (gmi_bit b btx LLRs) (replicate b (Fin 0)).

(** The body of the second loop.  [MIperBitPosition] is unbound until the
    first pass, hence the option in the state. *)
Definition gmi_step (M : nat) (Es : R) (constSymb : list complex)
    (bitMap : list (list Z)) (noiseVar : list R)
    (rx tx : list (list complex)) (k : nat)
    (st : list xfloat * option (list xfloat))
  : option (list xfloat * option (list xfloat)) :=
  let '(GMI, _) := st in
  sigma2 ← noiseVar !! k;
  txk ← tx !! k;
  rxk ← rx !! k;
  MIperBitPosition ← gmi_mode M Es constSymb bitMap sigma2 rxk txk;
  GMI ← set_item GMI k (xsum MIperBitPosition);
  Some (GMI, Some MIperBitPosition).

(** Lines 195-228: what the second loop reads. *)
Record gmi_prepared : Type := {
  gp_constSymb : list complex;
  gp_Es : R;
  gp_nModes : nat;
  gp_noiseVar : list R;
  gp_bitMap : list (list Z);
  gp_rx : list (list complex);
  gp_tx : list (list complex)
}.

Definition monteCarloGMI_prepare `{Modulation} (rx tx : ndarray) (M : nat)
    (constType : string) : option gmi_prepared :=
  let constSymb := GrayMapping M constType in
  let Es := mean_energy constSymb in
  let rx := columns rx in
  let tx := columns tx in
  let nModes := length tx in
  noiseVar ← var_axis0 rx tx;
  b ← ilog2 M;
  bitMap ← reshape_rows b (demodulateGray constSymb M constType);
  '(rx, tx) ← for_range nModes align_step (rx, tx);
  Some {| gp_constSymb := constSymb; gp_Es := Es; gp_nModes := nModes;
          gp_noiseVar := noiseVar; gp_bitMap := bitMap;
          gp_rx := rx; gp_tx := tx |}.

Definition monteCarloGMI `{Modulation} (rx tx : ndarray) (M : nat)
    (constType : string) : option (list xfloat * list xfloat) :=
  p ← monteCarloGMI_prepare rx tx M constType;
  let GMI := replicate (gp_nModes p) (Fin 0) in
  '(GMI, last) ←
    for_range (gp_nModes p)
      (gmi_step M (gp_Es p) (gp_constSymb p) (gp_bitMap p) (gp_noiseVar p)
                (gp_rx p) (gp_tx p))
      (GMI, None);
  MIperBitPosition ← last;
  Some (GMI, MIperBitPosition).

(** ** [calcMI] and [monteCarloMI] *)

(** The body of the loop of [calcMI].  [1 / sigma2] is a division of
    scalars; a likelihood and its product with the weight underflow to
    zero, which makes [log2(pY)] -inf when they all do. *)
Definition calcMI_step (rx tx : list complex) (sigma2 : R)
    (constSymb : list complex) (pX : list R) (k : nat) (H_XgY : xfloat)
  : option xfloat :=
  t ← tx !! k;
  r ← rx !! k;
  indSymb ← np_argmin (map (fun c => Cabs (Csub t c)) constSymb);
  inv ← py_div 1 sigma2;
  let log2_pYgX := - inv * Cabs (Csub r t) ^ 2 * (ln (exp 1) / ln 2) in
  pXY ← ew2 (fun e p => fl0 (e * p))
        (map (fun c => fl0 (exp (- inv * Cabs (Csub r c) ^ 2))) constSymb)
        pX;
  let pY := Rsum pXY in
  p ← pX !! indSymb;
  Some (xsub H_XgY
          (xsub (xadd (Fin log2_pYgX) (xlog2 (Fin p))) (xlog2 (Fin pY)))).

Definition calcMI (rx tx : list complex) (sigma2 : R)
    (constSymb : list complex) (pX : list R) : option xfloat :=
  let N := length rx in
  let H_X := xsum (map (fun p => xmul (Fin (- p)) (xlog2 (Fin p))) pX) in
  H_XgY ← for_range N (calcMI_step rx tx sigma2 constSymb pX) (Fin 0);
  Some (xsub H_X (xdivn H_XgY N)).

(** Lines 279-284: the default pmf and the rescaled constellation. *)
Definition monteCarloMI_init `{Modulation} (M : nat) (constType : string)
    (px : list R) : option (list R * list complex) :=
  px ← (if (length px =? 0)%nat
        then (if (M =? 0)%nat then None
              else Some (map (Rmult (1 / INR M)) (replicate M 1)))
        else Some px);
  let constSymb := GrayMapping M constType in
  w ← ew2 Rmult (map (fun c => Cabs c ^ 2) constSymb) px;
  let Es := Rsum w in
  Some (px, map (fun c => Cdivr c (sqrt Es)) constSymb).

Definition monteCarloMI_norm_step (k : nat)
    (st : list (list complex) * list (list complex))
  : option (list (list complex) * list (list complex)) :=
  let '(rx, tx) := st in
  rx ← normalize_column k rx;
  tx ← normalize_column k tx;
  Some (rx, tx).

Definition monteCarloMI_step (constSymb : list complex) (px : list R)
    (noiseVar : list R) (rx tx : list (list complex)) (k : nat)
    (MI : list xfloat) : option (list xfloat) :=
  sigma2 ← noiseVar !! k;
  rxk ← rx !! k;
  txk ← tx !! k;
  v ← calcMI rxk txk sigma2 constSymb px;
  set_item MI k v.

Definition monteCarloMI `{Modulation} (rx tx : ndarray) (M : nat)
    (constType : string) (px : list R) : option (list xfloat) :=
  '(px, constSymb) ← monteCarloMI_init M constType px;
  let rx := columns rx in
  let tx := columns tx in
  let nModes := length rx in
  let MI := replicate nModes (Fin 0) in
  '(rx, tx) ← for_range nModes monteCarloMI_norm_step (rx, tx);
  noiseVar ← var_axis0 rx tx;
  for_range nModes (monteCarloMI_step constSymb px noiseVar rx tx) MI.

(** ** Notions of the specification *)

(** [j] is the first index of [d] that holds the least value of [d]. *)
Definition first_min (d : list R) (j : nat) : Prop :=
  exists dj, d !! j = Some dj
    /\ (forall k dk, d !! k = Some dk -> dj <= dk)
    /\ (forall k dk, (k < j)%nat -> d !! k = Some dk -> dj < dk).

(** Euclidean distances of [r] to the points of the constellation. *)
Definition distances (constSymb : list complex) (r : complex) : list R :=
  map (fun c => Cabs (Csub r c)) constSymb.

(** The bit-map row that the demodulator picks for the symbol [r]. *)
Definition decided (constSymb : list complex) (bitMap : list (list Z))
    (r : complex) (row : list Z) : Prop :=
  exists j, np_argmin (distances constSymb r) = Some j
            /\ bitMap !! j = Some row.

(** The Gaussian likelihood [exp(-|r - c|^2 / sigma2)] of the point [c]. *)
Definition likelihood (sigma2 : R) (r c : complex) : R :=
  exp (- Cabs (Csub r c) ^ 2 / sigma2).

(** The sum of the likelihoods of the points [j] with [bitMap[j, t] = v]. *)
Definition bit_likelihood (sigma2 : R) (constSymb : list complex)
    (bitMap : list (list Z)) (r : complex) (t : nat) (v : Z) : R :=
  Rsum (zip_with
          (fun c (row : list Z) =>
             match row !! t with
             | Some e => if (e =? v)%Z then likelihood sigma2 r c else 0
             | None => 0
             end)
          constSymb bitMap).

(** The LLR of bit [t] of the received symbol [r]. *)
Definition llr_value (sigma2 : R) (constSymb : list complex)
    (bitMap : list (list Z)) (r : complex) (t : nat) : xfloat :=
  xsub (np_log (bit_likelihood sigma2 constSymb bitMap r t 0))
       (np_log (bit_likelihood sigma2 constSymb bitMap r t 1)).

(** The received column after normalisation and phase correction against
    the transmitted column. *)
Definition conditioned (rxk txk : list complex) : list complex :=
  let r := pnorm rxk in
  let t := pnorm txk in
  map (Cmul (Cmean (zip_with Cdiv t r))) r.

(** Two arrays of modes with columns of the same lengths. *)
Definition same_shape (rx tx : list (list complex)) : Prop :=
  Forall2 (fun r t => length r = length t) rx tx.

(** [MIperBitPosition] as the second loop of [monteCarloGMI] computes it
    for mode [k]. *)
Definition mode_MI (M : nat) (p : gmi_prepared) (k : nat)
  : option (list xfloat) :=
  sigma2 ← gp_noiseVar p !! k;
  txk ← gp_tx p !! k;
  rxk ← gp_rx p !! k;
  gmi_mode M (gp_Es p) (gp_constSymb p) (gp_bitMap p) sigma2 rxk txk.

(** The power of the residual of one mode: of the conditioned received
    column minus the normalised transmitted one. *)
Definition residual_power (rxk txk : list complex) : R :=
  signal_power (zip_with Csub (conditioned rxk txk) (pnorm txk)).

(** The SNR estimate of [fastBERcalc] for one mode with a residual of
    nonzero power, in dB. *)
Definition snr_value (rxk txk : list complex) : xfloat :=
  xmul (Fin 10)
       (xlog10 (Fin (signal_power (pnorm txk) / residual_power rxk txk))).

(** A mode on which the conditioning and the SNR estimate of [fastBERcalc]
    divide by no zero: no received sample is zero, the transmitted column
    has power, and the residual has power. *)
Definition well_conditioned (rxk txk : list complex) : Prop :=
  Forall (fun z => z <> C0) rxk
  /\ 0 < signal_power txk
  /\ 0 < residual_power rxk txk.

(** A mode on which [monteCarloMI] divides by no zero: both columns have
    power, and the normalised columns differ by more than a constant. *)
Definition mi_conditioned (rxk txk : list complex) : Prop :=
  0 < signal_power rxk /\ 0 < signal_power txk
  /\ 0 < np_var (zip_with Csub (pnorm rxk) (pnorm txk)).

(** The exponents of the likelihoods [exp(-|r - c|^2 / sigma2)] of the
    received symbols stay in the range in which float64 holds the
    likelihood as a normal number. *)
Definition likelihoods_in_range (sigma2 : R) (constSymb rxSymb : list complex)
  : Prop :=
  Forall (fun r =>
            Forall (fun c => Cabs (Csub r c) ^ 2 / sigma2 <= 500) constSymb)
         rxSymb.

(** The same for the joint likelihoods [pX[j] * exp(-|r - c_j|^2 / sigma2)]
    of [calcMI], with weights that are at most 1. *)
Definition joint_in_range (sigma2 : R) (constSymb : list complex)
    (pX : list R) (rxSymb : list complex) : Prop :=
  Forall (fun p => p <= 1) pX
  /\ Forall (fun r =>
               Forall2 (fun c p => -500 <= ln p - Cabs (Csub r c) ^ 2 / sigma2)
                       constSymb pX)
            rxSymb.

(** [x > c] and [x < c] on floats; both are false of nan. *)
Definition xgt (x : xfloat) (c : R) : Prop :=
  match x with
  | Fin v => c < v
  | PInf => True
  | NInf | NaN => False
  end.

Definition xlt (x : xfloat) (c : R) : Prop :=
  match x with
  | Fin v => v < c
  | NInf => True
  | PInf | NaN => False
  end.

(** The bit-error and symbol-error rates that the second loop of
    [fastBERcalc] computes from the conditioned columns of one mode. *)
Definition mode_rates (Es : R) (constSymb : list complex)
    (bitMap : list (list Z)) (b : nat) (rxk txk : list complex)
  : option (xfloat * xfloat) :=
  brx ← hardDecision (map (Cscale (sqrt Es)) rxk) constSymb bitMap;
  btx ← hardDecision (map (Cscale (sqrt Es)) txk) constSymb bitMap;
  err ← bit_errors brx btx;
  ser ← SER_of b err;
  Some (BER_of err, ser).

(** The number of the groups of [b] consecutive bits of [err] that hold a
    set bit. *)
Definition groups_with_error (b : nat) (err : list bool) : nat :=
  length (List.filter (existsb (fun e : bool => e))
                      (chunks (length err / b) b err)).

(** What the LLR clipping makes of one value. *)
Definition clipped (x : xfloat) : xfloat :=
  match x with
  | PInf => Fin 500
  | NInf => Fin (-500)
  | Fin _ | NaN => x
  end.

Definition is_infinite (x : xfloat) : bool :=
  match x with
  | PInf | NInf => true
  | Fin _ | NaN => false
  end.

(** A finite value of magnitude at most 500. *)
Definition within500 (x : xfloat) : Prop :=
  exists r, x = Fin r /\ Rabs r <= 500.

(** The clipped LLRs that the second loop of [monteCarloGMI] uses for mode
    [k]. *)
Definition monteCarloGMI_LLRs `{Modulation} (rx tx : ndarray) (M : nat)
    (constType : string) (k : nat) : option (list xfloat) :=
  p ← monteCarloGMI_prepare rx tx M constType;
  sigma2 ← gp_noiseVar p !! k;
  txk ← gp_tx p !! k;
  rxk ← gp_rx p !! k;
  snd <$> gmi_soft (gp_Es p) (gp_constSymb p) (gp_bitMap p) sigma2 rxk txk.

(** ** Example data: binary PSK *)

Definition bpsk : Modulation := {|
  GrayMapping := fun _ _ => [mkC (-1) 0; mkC 1 0];
  demodulateGray := fun _ _ _ => [0%Z; 1%Z]
|}.

(** A transmitted sequence and the same sequence received 13/12 times as
    large. *)
Definition tx_unit : list complex := [mkC (-1) 0; mkC 1 0].
Definition rx_scaled : list complex := [mkC (-13 / 12) 0; mkC (13 / 12) 0].

(** A transmitted sequence and a received one with an error on the first
    symbol. *)
Definition tx_pair : list complex := [mkC 1 0; mkC (-1) 0].
Definition rx_noisy : list complex := [mkC 7 0; mkC (-1) 0].

(** A transmitted sequence and a received one, twice as large, with the
    last symbol on the wrong side: one bit error in four. *)
Definition tx_quad : list complex :=
  [mkC 1 0; mkC (-1) 0; mkC 1 0; mkC (-1) 0].
Definition rx_flip : list complex :=
  [mkC 2 0; mkC (-2) 0; mkC 2 0; mkC 2 0].

(** The same with the opposite signs, and the two as the two modes of one
    array: four rows of time, two columns. *)
Definition tx_quad_neg : list complex :=
  [mkC (-1) 0; mkC 1 0; mkC (-1) 0; mkC 1 0].
Definition rx_flip_neg : list complex :=
  [mkC (-2) 0; mkC 2 0; mkC (-2) 0; mkC (-2) 0].

Definition tx_two_modes : ndarray :=
  Array2D [[mkC 1 0; mkC (-1) 0]; [mkC (-1) 0; mkC 1 0];
           [mkC 1 0; mkC (-1) 0]; [mkC (-1) 0; mkC 1 0]].
Definition rx_two_modes : ndarray :=
  Array2D [[mkC 2 0; mkC (-2) 0]; [mkC (-2) 0; mkC 2 0];
           [mkC 2 0; mkC (-2) 0]; [mkC 2 0; mkC (-2) 0]].

(** ** Example data: four points on a square *)

Definition qam4 : Modulation := {|
  GrayMapping := fun _ _ =>
    [mkC (-1) (-1); mkC (-1) 1; mkC 1 (-1); mkC 1 1];
  demodulateGray := fun _ _ _ => [0%Z; 0%Z; 0%Z; 1%Z; 1%Z; 0%Z; 1%Z; 1%Z]
|}.

(** ** A complex gain on an array *)

Definition gain (g : complex) (x : ndarray) : ndarray :=
  match x with
  | Array1D v => Array1D (map (Cmul g) v)
  | Array2D rows => Array2D (map (map (Cmul g)) rows)
  end.

(** ** [Qfunc] and [theoryBER] *)

Section Theory.
(** [scipy.special.erf]. *)
Variable erf : R -> R.

Definition Qfunc (x : R) : R := 0.5 - 0.5 * erf (x / sqrt 2).

(** [np.log2] of a positive value. *)
Definition Rlog2 (x : R) : R := ln x / ln 2.

(** An unknown family leaves [Pb] unbound, which raises at [return]. *)
Definition theoryBER (M : nat) (EbN0 : R) (constType : string) : option R :=
  let EbN0lin := Rpower 10 (EbN0 / 10) in
  let k := Rlog2 (INR M) in
  if (constType =? "qam")%string then
    let L := sqrt (INR M) in
    Some (2 * (1 - 1 / L) / Rlog2 L
          * Qfunc (sqrt (3 * Rlog2 L / (L ^ 2 - 1) * (2 * EbN0lin))))
  else if (constType =? "psk")%string then
    let Ps := 2 * Qfunc (sqrt (2 * k * EbN0lin) * sin (PI / INR M)) in
    Some (Ps / k)
  else None.
End Theory.

(** ** The entropy of a pmf *)

(** [H_X] of [calcMI] for a pmf of positive weights, in bits. *)
Definition entropy (pX : list R) : R :=
  Rsum (map (fun p => - p * (ln p / ln 2)) pX).

(** ** Proof automation for concrete data *)

Ltac real_eq := first [ reflexivity | lra | field; lra | field ].

(** Equality of concrete arrays of reals and complex numbers. *)
Ltac data_eq :=
  repeat match goal with
    | |- mret _ = _ => unfold mret, option_ret
    | |- Some _ = Some _ => apply (f_equal Some)
    | |- _ :: _ = _ :: _ => apply (f_equal2 cons)
    | |- @nil _ = @nil _ => reflexivity
    | |- mkC _ _ = mkC _ _ => apply (f_equal2 mkC)
    | |- Fin _ = Fin _ => apply (f_equal Fin)
    | |- @eq R _ _ => real_eq
    end.


(** * Properties *)

#[local] Arguments pow _ _ : simpl never.

(** ** Loops *)

Lemma for_each_app {St} (body : nat -> St -> option St) l1 l2 s :
  for_each body (l1 ++ l2) s = (s' ← for_each body l1 s; for_each body l2 s').
Proof.
  revert s. induction l1 as [|i l1 IH]; intros s; simpl; [done|].
  destruct (body i s) as [s1|]; simpl; [apply IH|done].
Qed.

Lemma for_range_S {St} (body : nat -> St -> option St) n s :
  for_range (S n) body s = (s' ← for_range n body s; body n s').
Proof.
  unfold for_range. rewrite seq_S, for_each_app. simpl.
  destruct (for_each body (seq 0 n) s) as [s1|]; simpl; [|done].
  by destruct (body n s1).
Qed.

(** A loop whose body keeps an invariant runs to its end and establishes
    the invariant there. *)
Lemma for_range_inv {St} (P : nat -> St -> Prop) (body : nat -> St -> option St)
    n s :
  P O s ->
  (forall i t, (i < n)%nat -> P i t -> exists t', body i t = Some t' /\ P (S i) t') ->
  exists t, for_range n body s = Some t /\ P n t.
Proof.
  intros H0 Hstep. induction n as [|n IH].
  - exists s. split; [done|exact H0].
  - destruct IH as (t & Ht & HP).
    { intros i u Hi. apply Hstep. lia. }
    destruct (Hstep n t) as (t' & Hb & HP'); [lia|exact HP|].
    exists t'. split; [|exact HP'].
    rewrite for_range_S, Ht. simpl. exact Hb.
Qed.

(** ** [np.argmin] *)

Lemma argmin_from_spec (l pre : list R) (best : R) (ibest : nat) :
  pre !! ibest = Some best ->
  (forall k x, pre !! k = Some x -> best <= x) ->
  (forall k x, (k < ibest)%nat -> pre !! k = Some x -> best < x) ->
  first_min (pre ++ l) (argmin_from l (length pre) best ibest).
Proof.
  revert pre best ibest.
  induction l as [|x l IH]; intros pre best ibest Hb Hle Hlt; simpl.
  - rewrite app_nil_r. exists best. auto.
  - replace (pre ++ x :: l) with ((pre ++ [x]) ++ l) by (by rewrite <- app_assoc).
    replace (S (length pre)) with (length (pre ++ [x]))
      by (rewrite length_app; simpl; lia).
    destruct (Rlt_dec x best) as [Hx|Hx]; apply IH.
    + rewrite lookup_app_r by lia. by rewrite Nat.sub_diag.
    + intros k y Hk. apply lookup_app_Some in Hk as [Hk|[_ Hk]].
      * apply Hle in Hk. lra.
      * apply list_lookup_singleton_Some in Hk as [_ <-]. lra.
    + intros k y Hk Hy. rewrite lookup_app_l in Hy by lia.
      apply Hle in Hy. lra.
    + rewrite lookup_app_l; [done|]. by apply lookup_lt_Some in Hb.
    + intros k y Hk. apply lookup_app_Some in Hk as [Hk|[_ Hk]].
      * by apply Hle in Hk.
      * apply list_lookup_singleton_Some in Hk as [_ <-]. lra.
    + intros k y Hk Hy. apply lookup_lt_Some in Hb.
      rewrite lookup_app_l in Hy by lia. by apply (Hlt k).
Qed.

Lemma np_argmin_spec (d : list R) (j : nat) :
  np_argmin d = Some j -> first_min d j.
Proof.
  destruct d as [|x l]; simpl; [done|]. intros [= <-].
  apply (argmin_from_spec l [x] x 0).
  - done.
  - intros [|k] y; simpl; [intros [= <-]; lra|done].
  - intros k y Hk. lia.
Qed.

Lemma np_argmin_is_Some (d : list R) :
  d <> [] -> exists j, np_argmin d = Some j /\ (j < length d)%nat.
Proof.
  destruct d as [|x l]; [done|]. intros _. eexists. split; [done|].
  destruct (np_argmin_spec (x :: l) _ eq_refl) as (dj & Hj & _).
  by apply lookup_lt_Some in Hj.
Qed.

Lemma first_min_unique (d : list R) (i j : nat) :
  first_min d i -> first_min d j -> i = j.
Proof.
  intros (di & Hi & Hile & Hilt) (dj & Hj & Hjle & Hjlt).
  destruct (Nat.lt_trichotomy i j) as [H|[H|H]]; [|done|].
  - pose proof (Hjlt _ _ H Hi). pose proof (Hile _ _ Hj). lra.
  - pose proof (Hilt _ _ H Hj). pose proof (Hjle _ _ Hi). lra.
Qed.

(** ** Array primitives *)

Lemma ilog2_pow2 (b : nat) : ilog2 (2 ^ b) = Some b.
Proof.
  unfold ilog2. destruct (Nat.eqb_spec (2 ^ b) 0) as [H|_].
  - pose proof (Nat.pow_nonzero 2 b). lia.
  - by rewrite Nat.log2_pow2 by lia.
Qed.

Lemma slice_assign_mid {A} (pre old post row : list A) :
  length row = length old ->
  slice_assign (pre ++ old ++ post) (length pre)
               (length pre + length old) row
  = Some (pre ++ row ++ post).
Proof.
  intros Hlen. unfold slice_assign.
  rewrite !length_app.
  replace (length pre `min` (length pre + (length old + length post)))
    with (length pre) by lia.
  replace (((length pre + length old)
              `min` (length pre + (length old + length post)) - length pre)%nat)
    with (length old) by lia.
  rewrite Hlen, Nat.eqb_refl.
  rewrite take_app_length.
  rewrite drop_app_ge by lia.
  replace (length pre + length old - length pre)%nat with (length old) by lia.
  by rewrite drop_app_length.
Qed.

Lemma concat_length_uniform {A} (b : nat) (rows : list (list A)) :
  Forall (fun row => length row = b) rows ->
  length (concat rows) = (length rows * b)%nat.
Proof.
  induction 1 as [|row rows Hrow _ IH]; simpl; [done|].
  rewrite length_app, IH, Hrow. lia.
Qed.

Lemma set_item_Some {A} (l : list A) (i : nat) (v : A) :
  (i < length l)%nat -> set_item l i v = Some (<[i:=v]> l).
Proof.
  intros Hi. unfold set_item.
  by destruct (Nat.ltb_spec i (length l)); [|lia].
Qed.

(** ** [hardDecision] *)

Lemma hardDecision_rows (rxSymb constSymb : list complex)
    (bitMap : list (list Z)) (b : nat) :
  length constSymb = (2 ^ b)%nat ->
  length bitMap = (2 ^ b)%nat ->
  Forall (fun row => length row = b) bitMap ->
  exists rows,
    hardDecision rxSymb constSymb bitMap = Some (concat rows)
    /\ Forall2 (decided constSymb bitMap) rxSymb rows
    /\ Forall (fun row => length row = b) rows.
Proof.
  intros HM Hrows Hb. unfold hardDecision.
  rewrite HM, ilog2_pow2. simpl.
  set (N := length rxSymb).
  destruct (for_range_inv
    (fun i dec => exists rows,
       dec = concat rows ++ replicate ((N - i) * b) 0%Z
       /\ Forall2 (decided constSymb bitMap) (take i rxSymb) rows
       /\ Forall (fun row => length row = b) rows)
    (hardDecision_step rxSymb constSymb bitMap b) N
    (replicate (N * b) 0%Z)) as (dec & Hrun & rows & Hdec & Hall & Hlen).
  - exists []. rewrite Nat.sub_0_r, take_0. simpl. by repeat split.
  - intros i dec Hi (rows & -> & Hall & Hlen).
    destruct (lookup_lt_is_Some_2 rxSymb i) as [r Hr]; [done|].
    destruct (np_argmin_is_Some (distances constSymb r)) as (j & Hj & Hjlt).
    { unfold distances. intros Hnil. apply (f_equal length) in Hnil.
      rewrite length_map, HM in Hnil. simpl in Hnil.
      pose proof (Nat.pow_nonzero 2 b). lia. }
    unfold distances in Hjlt. rewrite length_map, HM in Hjlt.
    destruct (lookup_lt_is_Some_2 bitMap j) as [row Hrow]; [lia|].
    assert (Hrl : length row = b).
    { eapply Forall_lookup_1 in Hb; [|exact Hrow]. done. }
    assert (Hcl : length (concat rows) = (i * b)%nat).
    { apply Forall2_length in Hall. rewrite length_take in Hall.
      rewrite (concat_length_uniform b _ Hlen). unfold N in Hi. lia. }
    exists (concat (rows ++ [row]) ++ replicate ((N - S i) * b) 0%Z). split.
    + unfold hardDecision_step. rewrite Hr. simpl.
      fold (distances constSymb r). rewrite Hj. simpl. rewrite Hrow. simpl.
      replace (N - i)%nat with (S (N - S i)) by lia.
      simpl. rewrite replicate_add.
      rewrite <- Hcl at 1 2.
      rewrite <- (length_replicate b 0%Z) at 3.
      rewrite slice_assign_mid by (by rewrite length_replicate).
      rewrite concat_app. simpl. rewrite app_nil_r. by rewrite <- app_assoc.
    + exists (rows ++ [row]). split; [done|]. split.
      * rewrite (take_S_r _ _ _ Hr). apply Forall2_app; [done|].
        constructor; [|constructor]. by exists j.
      * apply Forall_app. split; [done|]. by constructor.
  - exists rows. rewrite Hrun. rewrite Nat.sub_diag in Hdec. simpl in Hdec.
    rewrite app_nil_r in Hdec. subst dec.
    unfold N in Hall. rewrite take_ge in Hall by lia. done.
Qed.

Lemma concat_lookup_uniform {A} (b : nat) (rows : list (list A)) (i t : nat)
    (row : list A) :
  Forall (fun row => length row = b) rows ->
  rows !! i = Some row ->
  (t < b)%nat ->
  concat rows !! (i * b + t)%nat = row !! t.
Proof.
  intros Hlen. revert i. induction Hlen as [|r rows Hr _ IH]; intros i Hi Ht.
  - done.
  - destruct i as [|i]; simpl in *.
    + injection Hi as ->. rewrite lookup_app_l by lia. done.
    + rewrite lookup_app_r by lia.
      replace (b + i * b + t - length r)%nat with (i * b + t)%nat by lia.
      by apply IH.
Qed.

(** C3. For a constellation of [2^b] points and a bit map of [2^b] rows of
    [b] bits, [hardDecision] raises no error on any received sequence and
    returns [N * b] bits; the bits of symbol [i] are at the positions
    [i*b .. i*b+b-1] and are the bit-map row of the first index at least
    Euclidean distance from the symbol.  An empty sequence gives no bits. *)
Theorem hardDecision_correct (rxSymb constSymb : list complex)
    (bitMap : list (list Z)) (b : nat) :
  length constSymb = (2 ^ b)%nat ->
  length bitMap = (2 ^ b)%nat ->
  Forall (fun row => length row = b) bitMap ->
  exists decBits,
    hardDecision rxSymb constSymb bitMap = Some decBits
    /\ length decBits = (length rxSymb * b)%nat
    /\ (forall i r, rxSymb !! i = Some r ->
        exists j row,
          first_min (distances constSymb r) j
          /\ bitMap !! j = Some row
          /\ forall t, (t < b)%nat -> decBits !! (i * b + t)%nat = row !! t)
    /\ (rxSymb = [] -> decBits = []).
Proof.
  intros HM Hrows Hb.
  destruct (hardDecision_rows rxSymb constSymb bitMap b HM Hrows Hb)
    as (rows & Hrun & Hall & Hlen).
  exists (concat rows). split; [exact Hrun|]. split; [|split].
  - rewrite (concat_length_uniform b _ Hlen).
    by rewrite (Forall2_length _ _ _ Hall).
  - intros i r Hr.
    destruct (Forall2_lookup_l _ _ _ _ _ Hall Hr) as (row & Hrow & j & Hj & Hbm).
    exists j, row. split; [by apply np_argmin_spec|]. split; [exact Hbm|].
    intros t Ht. by apply concat_lookup_uniform.
  - intros ->. by inversion Hall.
Qed.

Lemma hardDecision_correct_witness :
  exists decBits,
    hardDecision [mkC 1 0; mkC (-1) 0] [mkC (-1) 0; mkC 1 0]
                 [[0%Z]; [1%Z]] = Some decBits
    /\ length decBits = (2 * 1)%nat
    /\ (forall i r, [mkC 1 0; mkC (-1) 0] !! i = Some r ->
        exists j row,
          first_min (distances [mkC (-1) 0; mkC 1 0] r) j
          /\ [[0%Z]; [1%Z]] !! j = Some row
          /\ forall t, (t < 1)%nat -> decBits !! (i * 1 + t)%nat = row !! t)
    /\ ([mkC 1 0; mkC (-1) 0] = [] -> decBits = []).
Proof.
  apply (hardDecision_correct [mkC 1 0; mkC (-1) 0] [mkC (-1) 0; mkC 1 0]
           [[0%Z]; [1%Z]] 1).
  - reflexivity.
  - reflexivity.
  - repeat constructor.
Defined.

(** ** Round trip on the constellation *)

Lemma Cabs_nonneg (z : complex) : 0 <= Cabs z.
Proof. apply sqrt_pos. Qed.

Lemma Cabs_sub_diag (z : complex) : Cabs (Csub z z) = 0.
Proof.
  unfold Cabs, Csub. simpl.
  replace ((Re z - Re z) * (Re z - Re z) + (Im z - Im z) * (Im z - Im z))
    with 0 by ring.
  apply sqrt_0.
Qed.

Lemma Cabs_sub_pos (a c : complex) : a <> c -> 0 < Cabs (Csub a c).
Proof.
  intros Hne. unfold Cabs, Csub. simpl. apply sqrt_lt_R0.
  destruct a as [ar ai], c as [cr ci]. simpl.
  pose proof (Rle_0_sqr (ar - cr)) as Hr2.
  pose proof (Rle_0_sqr (ai - ci)) as Hi2.
  destruct (Req_dec_T ar cr) as [->|Hr].
  - destruct (Req_dec_T ai ci) as [->|Hi]; [done|].
    assert (H : ai - ci <> 0) by lra.
    apply Rsqr_pos_lt in H. unfold Rsqr in *. lra.
  - assert (H : ar - cr <> 0) by lra.
    apply Rsqr_pos_lt in H. unfold Rsqr in *. lra.
Qed.

Lemma argmin_own_point (constSymb : list complex) (i : nat) (c : complex) :
  NoDup constSymb ->
  constSymb !! i = Some c ->
  np_argmin (distances constSymb c) = Some i.
Proof.
  intros Hnd Hi.
  destruct (np_argmin_is_Some (distances constSymb c)) as (j & Hj & _).
  { unfold distances. intros Hnil. apply (f_equal length) in Hnil.
    rewrite length_map in Hnil. apply lookup_lt_Some in Hi. simpl in Hnil. lia. }
  rewrite Hj. f_equal. apply (first_min_unique (distances constSymb c)).
  - by apply np_argmin_spec.
  - exists 0. unfold distances. split; [|split].
    + rewrite list_lookup_fmap, Hi. simpl. by rewrite Cabs_sub_diag.
    + intros k dk Hk. rewrite list_lookup_fmap in Hk.
      destruct (constSymb !! k); simpl in Hk; [|done].
      injection Hk as <-. apply Cabs_nonneg.
    + intros k dk Hlt Hk. rewrite list_lookup_fmap in Hk.
      destruct (constSymb !! k) as [ck|] eqn:Hck; simpl in Hk; [|done].
      injection Hk as <-. apply Cabs_sub_pos. intros ->.
      pose proof (NoDup_lookup _ _ _ _ Hnd Hi Hck). lia.
Qed.

Lemma hardDecision_own_constellation (constSymb : list complex)
    (bitMap : list (list Z)) (b : nat) :
  length constSymb = (2 ^ b)%nat ->
  NoDup constSymb ->
  length bitMap = (2 ^ b)%nat ->
  Forall (fun row => length row = b) bitMap ->
  hardDecision constSymb constSymb bitMap = Some (concat bitMap).
Proof.
  intros HM Hnd Hrows Hb.
  destruct (hardDecision_rows constSymb constSymb bitMap b HM Hrows Hb)
    as (rows & Hrun & Hall & _).
  rewrite Hrun. do 2 f_equal. apply list_eq. intros i.
  destruct (constSymb !! i) as [c|] eqn:Hc.
  - destruct (Forall2_lookup_l _ _ _ _ _ Hall Hc) as (row & Hrow & j & Hj & Hbm).
    rewrite (argmin_own_point _ _ _ Hnd Hc) in Hj. injection Hj as <-.
    by rewrite Hrow, Hbm.
  - apply lookup_ge_None in Hc.
    rewrite (lookup_ge_None_2 rows), (lookup_ge_None_2 bitMap); [done|lia|].
    rewrite <- (Forall2_length _ _ _ Hall). lia.
Qed.

Lemma count_true_all_false (l : list bool) :
  Forall (fun e => e = false) l -> count_true l = O.
Proof.
  unfold count_true. induction 1 as [|e l -> _ IH]; simpl; [done|exact IH].
Qed.

Lemma mean_bool_all_false (l : list bool) :
  l <> [] -> Forall (fun e => e = false) l -> mean_bool l = Fin 0.
Proof.
  intros Hne Hall. unfold mean_bool. rewrite (count_true_all_false _ Hall).
  unfold np_div. simpl.
  destruct (Req_dec_T (INR (length l)) 0) as [H0|_].
  - destruct l as [|e l']; [done|]. exfalso. revert H0. by apply not_0_INR.
  - f_equal. unfold Rdiv. ring.
Qed.

Lemma logical_xor_diag (l : list Z) :
  logical_xor l l = Some (replicate (length l) false).
Proof.
  unfold logical_xor, ew2. rewrite Nat.eqb_refl. f_equal.
  induction l as [|x l IH]; simpl; [done|].
  rewrite IH. f_equal. by destruct (negb (x =? 0)%Z).
Qed.

Lemma chunks_all_false (rows b : nat) (l : list bool) :
  Forall (fun e => e = false) l ->
  Forall (fun e => e = false)
         (map (fun g => (0 <? count_true g)%nat) (chunks rows b l)).
Proof.
  revert l. induction rows as [|rows IH]; intros l Hl; simpl; constructor.
  - rewrite count_true_all_false; [done|]. by apply Forall_take.
  - apply IH. by apply Forall_drop.
Qed.

Lemma length_chunks {A} (rows b : nat) (l : list A) :
  length (chunks rows b l) = rows.
Proof. revert l. induction rows; intros l; simpl; [done|]. by rewrite IHrows. Qed.

Lemma reshape_rows_uniform {A} (n b : nat) (l : list A) :
  (1 <= b)%nat -> length l = (n * b)%nat ->
  reshape_rows b l = Some (chunks n b l).
Proof.
  intros Hb Hl. unfold reshape_rows.
  destruct (Nat.eqb_spec b 0) as [?|_]; [lia|].
  rewrite Hl, Nat.Div0.mod_mul, Nat.div_mul by lia. done.
Qed.

(** C7. Round trip: on a constellation of [2^b] pairwise distinct points
    with its bit map of [2^b] rows of [b] bits, [hardDecision] of the
    constellation points themselves is the bit map, row after row: the
    bits decided for point [i] are row [i].  With these decisions for both
    rx and tx the error vector is all false, and for [b >= 1] the bit-error
    rate and the symbol-error rate are 0. *)
Theorem hardDecision_roundtrip (constSymb : list complex)
    (bitMap : list (list Z)) (b : nat) :
  length constSymb = (2 ^ b)%nat ->
  NoDup constSymb ->
  length bitMap = (2 ^ b)%nat ->
  Forall (fun row => length row = b) bitMap ->
  exists bits err,
    hardDecision constSymb constSymb bitMap = Some bits
    /\ bits = concat bitMap
    /\ (forall i row t, bitMap !! i = Some row -> (t < b)%nat ->
        bits !! (i * b + t)%nat = row !! t)
    /\ bit_errors bits bits = Some err
    /\ Forall (fun e => e = false) err
    /\ ((1 <= b)%nat -> BER_of err = Fin 0 /\ SER_of b err = Some (Fin 0)).
Proof.
  intros HM Hnd Hrows Hb.
  exists (concat bitMap), (replicate (length (concat bitMap)) false).
  assert (Hfalse : Forall (fun e => e = false)
                     (replicate (length (concat bitMap)) false)).
  { apply Forall_replicate. done. }
  split; [by apply (hardDecision_own_constellation _ _ b)|].
  split; [done|]. split.
  { intros i row t Hrow Ht. by apply concat_lookup_uniform. }
  split; [apply logical_xor_diag|]. split; [exact Hfalse|].
  intros Hb1.
  assert (Hlen : length (replicate (length (concat bitMap)) false)
                 = (2 ^ b * b)%nat).
  { rewrite length_replicate, (concat_length_uniform b _ Hb). by rewrite Hrows. }
  pose proof (Nat.pow_nonzero 2 b ltac:(lia)) as Hpow.
  split.
  - unfold BER_of. apply mean_bool_all_false; [|exact Hfalse].
    intros Hnil. rewrite Hnil in Hlen. simpl in Hlen. nia.
  - unfold SER_of. rewrite (reshape_rows_uniform (2 ^ b) b) by done. simpl.
    f_equal. apply mean_bool_all_false.
    + intros Hnil. apply (f_equal length) in Hnil.
      rewrite length_map, length_chunks in Hnil. simpl in Hnil. lia.
    + by apply chunks_all_false.
Qed.

Lemma hardDecision_roundtrip_witness :
  exists bits err,
    hardDecision [mkC (-1) 0; mkC 1 0] [mkC (-1) 0; mkC 1 0]
                 [[0%Z]; [1%Z]] = Some bits
    /\ bits = concat [[0%Z]; [1%Z]]
    /\ (forall i row t, [[0%Z]; [1%Z]] !! i = Some row -> (t < 1)%nat ->
        bits !! (i * 1 + t)%nat = row !! t)
    /\ bit_errors bits bits = Some err
    /\ Forall (fun e => e = false) err
    /\ ((1 <= 1)%nat -> BER_of err = Fin 0 /\ SER_of 1 err = Some (Fin 0)).
Proof.
  apply (hardDecision_roundtrip [mkC (-1) 0; mkC 1 0] [[0%Z]; [1%Z]] 1).
  - reflexivity.
  - repeat constructor.
    + intros Hin. apply list_elem_of_singleton in Hin.
      apply (f_equal Re) in Hin. simpl in Hin. lra.
    + intros Hin. inversion Hin.
  - reflexivity.
  - repeat constructor.
Defined.

(** ** [calcLLR] *)

Lemma masked_sum (sigma2 : R) (r : complex) (t : nat) (v : Z)
    (bitMap : list (list Z)) :
  forall (constSymb : list complex) (col : list Z),
    length constSymb = length bitMap ->
    column t bitMap = Some col ->
    length col = length bitMap
    /\ Rsum (map fst (List.filter snd
               (zip (map (fun c => exp (- Cabs (Csub r c) ^ 2 / sigma2))
                         constSymb)
                    (map (fun e => (e =? v)%Z) col))))
       = bit_likelihood sigma2 constSymb bitMap r t v.
Proof.
  unfold column, bit_likelihood.
  induction bitMap as [|row bitMap IH]; intros constSymb col Hlen Hcol.
  - destruct constSymb; [|done]. simpl in Hcol. by injection Hcol as <-.
  - destruct constSymb as [|c constSymb]; [done|].
    simpl in Hlen. injection Hlen as Hlen.
    simpl in Hcol. destruct (row !! t) as [e|] eqn:He; simpl in Hcol; [|done].
    destruct (mapM (fun row => row !! t) bitMap) as [col'|] eqn:Hc';
      simpl in Hcol; [|done].
    injection Hcol as <-.
    destruct (IH constSymb col' Hlen eq_refl) as [Hl Hs].
    split; [simpl; by rewrite Hl|].
    simpl. rewrite He. fold (likelihood sigma2 r c).
    destruct (e =? v)%Z; simpl; rewrite Hs; [done|lra].
Qed.

Lemma column_is_Some {A} (t b : nat) (m : list (list A)) :
  Forall (fun row => length row = b) m -> (t < b)%nat ->
  exists col, column t m = Some col.
Proof.
  intros Hall Ht. unfold column.
  induction Hall as [|row m Hrow _ [col IH]]; [by exists []|].
  destruct (lookup_lt_is_Some_2 row t) as [e He]; [lia|].
  exists (e :: col). simpl. rewrite He. simpl. rewrite IH. done.
Qed.

Lemma calcLLR_bit_value (sigma2 : R) (constSymb : list complex)
    (bitMap : list (list Z)) (r : complex) (b i t : nat) (LLRs : list xfloat) :
  length constSymb = length bitMap ->
  Forall (fun row => length row = b) bitMap ->
  (t < b)%nat ->
  (i * b + t < length LLRs)%nat ->
  calcLLR_bit (map (fun c => exp (- Cabs (Csub r c) ^ 2 / sigma2)) constSymb)
              bitMap b i t LLRs
  = Some (<[(i * b + t)%nat := llr_value sigma2 constSymb bitMap r t]> LLRs).
Proof.
  intros Hlen Hall Ht Hin. unfold calcLLR_bit.
  destruct (column_is_Some t b bitMap Hall Ht) as [col Hcol].
  rewrite Hcol. simpl.
  destruct (masked_sum sigma2 r t 0 bitMap constSymb col Hlen Hcol) as [Hl H0].
  destruct (masked_sum sigma2 r t 1 bitMap constSymb col Hlen Hcol) as [_ H1].
  unfold mask_select. rewrite !length_map, Hl, Hlen, Nat.eqb_refl. simpl.
  rewrite H0, H1. by apply set_item_Some.
Qed.

Lemma calcLLR_step_value (rxSymb : list complex) (sigma2 : R)
    (constSymb : list complex) (bitMap : list (list Z)) (b i : nat)
    (r : complex) (LLRs : list xfloat) :
  length constSymb = length bitMap ->
  Forall (fun row => length row = b) bitMap ->
  rxSymb !! i = Some r ->
  (i * b + b <= length LLRs)%nat ->
  exists LLRs',
    calcLLR_step rxSymb sigma2 constSymb bitMap b i LLRs = Some LLRs'
    /\ length LLRs' = length LLRs
    /\ (forall t, (t < b)%nat ->
        LLRs' !! (i * b + t)%nat
        = Some (llr_value sigma2 constSymb bitMap r t))
    /\ (forall p, (p < i * b \/ i * b + b <= p)%nat -> LLRs' !! p = LLRs !! p).
Proof.
  intros Hlen Hall Hr Hin. unfold calcLLR_step. rewrite Hr. simpl.
  destruct (for_range_inv
    (fun t L => length L = length LLRs
       /\ (forall t', (t' < t)%nat ->
           L !! (i * b + t')%nat
           = Some (llr_value sigma2 constSymb bitMap r t'))
       /\ (forall p, (p < i * b \/ i * b + t <= p)%nat -> L !! p = LLRs !! p))
    (calcLLR_bit (map (fun c => exp (- Cabs (Csub r c) ^ 2 / sigma2)) constSymb)
                 bitMap b i) b LLRs) as (L & Hrun & HL & Hval & Hframe).
  - split; [done|]. split; [intros t' Ht'; lia|done].
  - intros t L Ht (HL & Hval & Hframe).
    eexists. split.
    + apply calcLLR_bit_value; [done|done|done|lia].
    + split; [by rewrite length_insert|]. split.
      * intros t' Ht'. destruct (Nat.eq_dec t' t) as [->|Hne].
        -- apply list_lookup_insert_eq. lia.
        -- rewrite list_lookup_insert_ne by lia. apply Hval. lia.
      * intros p Hp. rewrite list_lookup_insert_ne by lia. apply Hframe. lia.
  - exists L. done.
Qed.

Lemma calcLLR_values (rxSymb : list complex) (sigma2 : R)
    (constSymb : list complex) (bitMap : list (list Z)) (b : nat) :
  length constSymb = (2 ^ b)%nat ->
  length bitMap = (2 ^ b)%nat ->
  Forall (fun row => length row = b) bitMap ->
  exists LLRs,
    calcLLR rxSymb sigma2 constSymb bitMap = Some LLRs
    /\ length LLRs = (length rxSymb * b)%nat
    /\ forall i r indBit, rxSymb !! i = Some r -> (indBit < b)%nat ->
       LLRs !! (i * b + indBit)%nat
       = Some (llr_value sigma2 constSymb bitMap r indBit).
Proof.
  intros HM Hrows Hall. unfold calcLLR. rewrite HM, ilog2_pow2. simpl.
  set (N := length rxSymb).
  destruct (for_range_inv
    (fun i L => length L = (N * b)%nat
       /\ forall i' r t, (i' < i)%nat -> rxSymb !! i' = Some r -> (t < b)%nat ->
          L !! (i' * b + t)%nat = Some (llr_value sigma2 constSymb bitMap r t))
    (calcLLR_step rxSymb sigma2 constSymb bitMap b) N
    (replicate (N * b) (Fin 0))) as (L & Hrun & HL & Hval).
  - split; [by rewrite length_replicate|]. intros i' r t Hi'. lia.
  - intros i L Hi (HL & Hval).
    destruct (lookup_lt_is_Some_2 rxSymb i) as [r Hr]; [done|].
    destruct (calcLLR_step_value rxSymb sigma2 constSymb bitMap b i r L)
      as (L' & Hstep & HL' & Hnew & Hframe); [lia|done|done|nia|].
    exists L'. split; [done|]. split; [lia|].
    intros i' r' t Hi' Hr' Ht. destruct (Nat.eq_dec i' i) as [->|Hne].
    + rewrite Hr in Hr'. injection Hr' as <-. by apply Hnew.
    + rewrite Hframe by nia. apply Hval; [lia|done|done].
  - exists L. split; [done|]. split; [done|].
    intros i r t Hr Ht. apply (Hval i r t); [|done|done].
    by apply lookup_lt_Some in Hr.
Qed.

(** C4. For a noise variance above zero, a constellation of [2^b] points
    and a bit map of [2^b] rows of [b] bits, [calcLLR] returns [N * b]
    values, and the value at position [i*b + indBit], the position of that
    bit in the output of the hard decision, is the logarithm of the summed
    likelihoods [exp(-|rxSymb[i] - constSymb[j]|^2 / sigma2)] of the points
    whose bit [indBit] is 0 minus the logarithm of the sum over the points
    whose bit [indBit] is 1. *)
Theorem calcLLR_correct (rxSymb : list complex) (sigma2 : R)
    (constSymb : list complex) (bitMap : list (list Z)) (b : nat) :
  0 < sigma2 ->
  length constSymb = (2 ^ b)%nat ->
  length bitMap = (2 ^ b)%nat ->
  Forall (fun row => length row = b) bitMap ->
  exists LLRs,
    calcLLR rxSymb sigma2 constSymb bitMap = Some LLRs
    /\ length LLRs = (length rxSymb * b)%nat
    /\ forall i r indBit, rxSymb !! i = Some r -> (indBit < b)%nat ->
       LLRs !! (i * b + indBit)%nat
       = Some (xsub
            (np_log (bit_likelihood sigma2 constSymb bitMap r indBit 0))
            (np_log (bit_likelihood sigma2 constSymb bitMap r indBit 1))).
Proof. intros _. apply calcLLR_values. Qed.

Lemma calcLLR_correct_witness :
  exists LLRs,
    calcLLR [mkC 1 0] 1 [mkC (-1) 0; mkC 1 0] [[0%Z]; [1%Z]] = Some LLRs
    /\ length LLRs = (1 * 1)%nat
    /\ forall i r indBit, [mkC 1 0] !! i = Some r -> (indBit < 1)%nat ->
       LLRs !! (i * 1 + indBit)%nat
       = Some (xsub
            (np_log (bit_likelihood 1 [mkC (-1) 0; mkC 1 0] [[0%Z]; [1%Z]]
                                    r indBit 0))
            (np_log (bit_likelihood 1 [mkC (-1) 0; mkC 1 0] [[0%Z]; [1%Z]]
                                    r indBit 1))).
Proof.
  apply (calcLLR_correct [mkC 1 0] 1 [mkC (-1) 0; mkC 1 0] [[0%Z]; [1%Z]] 1).
  - lra.
  - reflexivity.
  - reflexivity.
  - repeat constructor.
Defined.


(** ** LLR clipping *)

Lemma clipLLR_lookup (LLRs : list xfloat) (i : nat) :
  clipLLR LLRs !! i = clipped <$> LLRs !! i.
Proof.
  unfold clipLLR. rewrite !list_lookup_fmap.
  destruct (LLRs !! i) as [x|]; [|done]. simpl. f_equal.
  by destruct x.
Qed.

(** C9. The LLR clipping keeps the length of the sequence and changes only
    the entries equal to +inf, which become 500, and to -inf, which become
    -500; every finite entry, whatever its magnitude, and every nan keeps
    its value. *)
Theorem clipLLR_frame (LLRs : list xfloat) :
  length (clipLLR LLRs) = length LLRs
  /\ forall i, clipLLR LLRs !! i = clipped <$> LLRs !! i.
Proof.
  split; [unfold clipLLR; by rewrite !length_map|apply clipLLR_lookup].
Qed.

Example clipLLR_sample (x : R) :
  clipLLR [Fin x; NaN; PInf; NInf] = [Fin x; NaN; Fin 500; Fin (-500)].
Proof. reflexivity. Qed.

Lemma clipLLR_not_infinite (LLRs : list xfloat) :
  Forall (fun x => is_infinite x = false) (clipLLR LLRs).
Proof.
  apply Forall_lookup. intros i y Hy. rewrite clipLLR_lookup in Hy.
  destruct (LLRs !! i) as [x|]; simpl in Hy; [|done].
  injection Hy as <-. by destruct x.
Qed.

(** ** Signal conditioning *)

Lemma length_pnorm (x : list complex) : length (pnorm x) = length x.
Proof. unfold pnorm. by rewrite length_map. Qed.

Lemma length_conditioned (rxk txk : list complex) :
  length (conditioned rxk txk) = length rxk.
Proof. unfold conditioned. by rewrite length_map, length_pnorm. Qed.

Lemma ew2_Some {A B D} (f : A -> B -> D) (a : list A) (b : list B) :
  length a = length b -> ew2 f a b = Some (zip_with f a b).
Proof. intros Hl. unfold ew2. by rewrite Hl, Nat.eqb_refl. Qed.

Lemma normalize_column_value (k : nat) (x : list (list complex))
    (xk : list complex) :
  x !! k = Some xk -> normalize_column k x = Some (<[k := pnorm xk]> x).
Proof.
  intros Hk. unfold normalize_column. rewrite Hk. simpl.
  apply set_item_Some. by apply lookup_lt_Some in Hk.
Qed.

Lemma align_step_value (k : nat) (rx tx : list (list complex))
    (rxk txk : list complex) :
  rx !! k = Some rxk -> tx !! k = Some txk -> length rxk = length txk ->
  align_step k (rx, tx)
  = Some (<[k := conditioned rxk txk]> rx, <[k := pnorm txk]> tx).
Proof.
  intros Hr Ht Hlen. unfold align_step.
  rewrite (normalize_column_value k rx rxk Hr). simpl.
  rewrite (normalize_column_value k tx txk Ht). simpl.
  pose proof (lookup_lt_Some _ _ _ Hr) as Hkr.
  pose proof (lookup_lt_Some _ _ _ Ht) as Hkt.
  unfold correct_phase.
  rewrite !list_lookup_insert_eq by done. simpl.
  rewrite ew2_Some by (by rewrite !length_pnorm). simpl.
  rewrite set_item_Some by (by rewrite length_insert).
  by rewrite list_insert_insert_eq.
Qed.

Lemma align_loop (rx tx : list (list complex)) (n : nat) :
  length tx = n -> same_shape rx tx ->
  exists rx' tx',
    for_range n align_step (rx, tx) = Some (rx', tx')
    /\ length rx' = n /\ length tx' = n
    /\ forall k rxk txk, rx !! k = Some rxk -> tx !! k = Some txk ->
       rx' !! k = Some (conditioned rxk txk) /\ tx' !! k = Some (pnorm txk).
Proof.
  intros Hn Hshape.
  assert (Hrn : length rx = n) by (by rewrite (Forall2_length _ _ _ Hshape)).
  destruct (for_range_inv
    (fun i (st : list (list complex) * list (list complex)) =>
       length st.1 = n /\ length st.2 = n
       /\ forall k rxk txk, rx !! k = Some rxk -> tx !! k = Some txk ->
          ((k < i)%nat -> st.1 !! k = Some (conditioned rxk txk)
                          /\ st.2 !! k = Some (pnorm txk))
          /\ ((i <= k)%nat -> st.1 !! k = Some rxk /\ st.2 !! k = Some txk))
    align_step n (rx, tx)) as ([rx' tx'] & Hrun & Hl1 & Hl2 & Hinv).
  - simpl. split; [done|]. split; [done|]. intros k rxk txk Hr Ht.
    split; [lia|done].
  - intros i [rx1 tx1] Hi (Hl1 & Hl2 & Hinv). simpl in *.
    destruct (lookup_lt_is_Some_2 rx i) as [rxi Hrxi]; [lia|].
    destruct (lookup_lt_is_Some_2 tx i) as [txi Htxi]; [lia|].
    destruct (Hinv i rxi txi Hrxi Htxi) as [_ Hcur].
    destruct Hcur as [Hr1 Ht1]; [lia|].
    pose proof (Forall2_lookup_lr _ _ _ _ _ _ Hshape Hrxi Htxi) as Hlen.
    eexists. split; [by apply align_step_value|]. simpl.
    split; [by rewrite length_insert|]. split; [by rewrite length_insert|].
    intros k rxk txk Hr Ht. destruct (Hinv k rxk txk Hr Ht) as [Hlt Hge].
    destruct (Nat.eq_dec k i) as [->|Hne].
    + rewrite Hrxi in Hr. rewrite Htxi in Ht.
      injection Hr as <-. injection Ht as <-.
      split; [|lia]. intros _.
      rewrite !list_lookup_insert_eq by lia. done.
    + rewrite !list_lookup_insert_ne by done.
      split; intros Hk; [apply Hlt|apply Hge]; lia.
  - exists rx', tx'. simpl in *. split; [done|]. split; [done|].
    split; [done|]. intros k rxk txk Hr Ht.
    destruct (Hinv k rxk txk Hr Ht) as [Hlt _]. apply Hlt.
    apply lookup_lt_Some in Ht. lia.
Qed.

Lemma var_axis0_value (rx tx : list (list complex)) :
  same_shape rx tx ->
  exists noiseVar,
    var_axis0 rx tx = Some noiseVar
    /\ length noiseVar = length tx
    /\ forall k rxk txk, rx !! k = Some rxk -> tx !! k = Some txk ->
       noiseVar !! k = Some (np_var (zip_with Csub rxk txk)).
Proof.
  intros Hshape. unfold var_axis0.
  rewrite ew2_Some by (by apply Forall2_length in Hshape). simpl.
  induction Hshape as [|r t rx tx Hlen _ (nv & Hnv & Hl & Hval)].
  - exists []. simpl. split; [done|]. split; [done|]. intros k ? ? Hk. done.
  - exists (np_var (zip_with Csub r t) :: nv). simpl.
    rewrite ew2_Some by done. simpl. rewrite Hnv. simpl.
    split; [done|]. split; [by rewrite Hl|].
    intros [|k] rxk txk Hr Ht; simpl in *.
    + by injection Hr as <-; injection Ht as <-.
    + by apply Hval.
Qed.

(** ** [monteCarloGMI] *)

Lemma stride_length_from {A B} (n b : nat) (l : list A) (l' : list B) :
  forall s, length l = length l' ->
    length (List.filter (fun p => (n <=? fst p)%nat && ((fst p - n) mod b =? 0)%nat)
                        (zip (seq s (length l)) l))
    = length (List.filter (fun p => (n <=? fst p)%nat && ((fst p - n) mod b =? 0)%nat)
                          (zip (seq s (length l')) l')).
Proof.
  revert l'. induction l as [|x l IH]; intros [|y l'] s Hl; try done.
  simpl in Hl. injection Hl as Hl. specialize (IH l' (S s) Hl).
  cbn [length seq zip zip_with List.filter fst].
  destruct ((n <=? s)%nat && ((s - n) mod b =? 0)%nat); simpl; by rewrite IH.
Qed.

Lemma stride_length_eq {A B} (n b : nat) (l : list A) (l' : list B) :
  length l = length l' -> length (stride n b l) = length (stride n b l').
Proof.
  intros Hl. unfold stride. rewrite !length_map. by apply stride_length_from.
Qed.

Lemma length_clipLLR (LLRs : list xfloat) : length (clipLLR LLRs) = length LLRs.
Proof. unfold clipLLR. by rewrite !length_map. Qed.

Lemma gmi_soft_Some (b : nat) (Es : R) (constSymb : list complex)
    (bitMap : list (list Z)) (sigma2 : R) (rxk txk : list complex) :
  length constSymb = (2 ^ b)%nat ->
  length bitMap = (2 ^ b)%nat ->
  Forall (fun row => length row = b) bitMap ->
  length rxk = length txk ->
  exists btx LLRs,
    gmi_soft Es constSymb bitMap sigma2 rxk txk = Some (btx, LLRs)
    /\ length btx = length LLRs.
Proof.
  intros HM Hrows Hall Hlen. unfold gmi_soft.
  destruct (hardDecision_rows (map (Cscale (sqrt Es)) txk) constSymb bitMap b)
    as (rows & Hhd & Hdec & Hrl); [done..|].
  destruct (calcLLR_values rxk sigma2
              (map (fun c => Cdivr c (sqrt Es)) constSymb) bitMap b)
    as (LLRs & Hllr & HL & _); [by rewrite length_map|done|done|].
  rewrite Hhd, Hllr. simpl. eexists _, _. split; [done|].
  rewrite length_clipLLR, HL, (concat_length_uniform b _ Hrl).
  apply Forall2_length in Hdec. rewrite length_map in Hdec. by rewrite <- Hdec, Hlen.
Qed.

Lemma gmi_mode_Some (b : nat) (Es : R) (constSymb : list complex)
    (bitMap : list (list Z)) (sigma2 : R) (rxk txk : list complex) :
  length constSymb = (2 ^ b)%nat ->
  length bitMap = (2 ^ b)%nat ->
  Forall (fun row => length row = b) bitMap ->
  length rxk = length txk ->
  exists MI,
    gmi_mode (2 ^ b) Es constSymb bitMap sigma2 rxk txk = Some MI
    /\ length MI = b.
Proof.
  intros HM Hrows Hall Hlen. unfold gmi_mode.
  destruct (gmi_soft_Some b Es constSymb bitMap sigma2 rxk txk)
    as (btx & LLRs & Hsoft & Hl); [done..|].
  rewrite Hsoft. simpl. rewrite ilog2_pow2. simpl.
  destruct (for_range_inv (fun _ MI => length MI = b)
              (gmi_bit b btx LLRs) b (replicate b (Fin 0)))
    as (MI & Hrun & HMI).
  - by rewrite length_replicate.
  - intros n MI Hn HMI. unfold gmi_bit.
    rewrite ew2_Some by (by apply stride_length_eq). simpl.
    rewrite set_item_Some by lia. eexists. split; [done|].
    by rewrite length_insert.
  - by exists MI.
Qed.

Lemma chunks_uniform {A} (n b : nat) (l : list A) :
  length l = (n * b)%nat -> Forall (fun row => length row = b) (chunks n b l).
Proof.
  revert l. induction n as [|n IH]; intros l Hl; simpl; constructor.
  - rewrite length_take. simpl in Hl. lia.
  - apply IH. rewrite length_drop. simpl in Hl. lia.
Qed.

Lemma concat_chunks {A} (n b : nat) (l : list A) :
  length l = (n * b)%nat -> concat (chunks n b l) = l.
Proof.
  revert l. induction n as [|n IH]; intros l Hl; simpl.
  - by destruct l.
  - rewrite IH; [apply take_drop|]. rewrite length_drop. simpl in Hl. lia.
Qed.

Lemma monteCarloGMI_prepare_value `{Modulation} (rx tx : ndarray) (b : nat)
    (constType : string) :
  (1 <= b)%nat ->
  length (demodulateGray (GrayMapping (2 ^ b) constType) (2 ^ b) constType)
  = (2 ^ b * b)%nat ->
  same_shape (columns rx) (columns tx) ->
  exists p,
    monteCarloGMI_prepare rx tx (2 ^ b) constType = Some p
    /\ gp_constSymb p = GrayMapping (2 ^ b) constType
    /\ gp_Es p = mean_energy (GrayMapping (2 ^ b) constType)
    /\ gp_nModes p = length (columns tx)
    /\ gp_bitMap p
       = chunks (2 ^ b) b
           (demodulateGray (GrayMapping (2 ^ b) constType) (2 ^ b) constType)
    /\ forall k rxk txk,
         columns rx !! k = Some rxk -> columns tx !! k = Some txk ->
         gp_noiseVar p !! k = Some (np_var (zip_with Csub rxk txk))
         /\ gp_rx p !! k = Some (conditioned rxk txk)
         /\ gp_tx p !! k = Some (pnorm txk).
Proof.
  intros Hb Hbits Hshape. unfold monteCarloGMI_prepare.
  destruct (var_axis0_value _ _ Hshape) as (nv & Hnv & _ & Hval).
  rewrite Hnv. simpl. rewrite ilog2_pow2. simpl.
  rewrite (reshape_rows_uniform (2 ^ b) b) by done. simpl.
  destruct (align_loop (columns rx) (columns tx) (length (columns tx)))
    as (rx' & tx' & Hrun & _ & _ & Hal); [done|done|].
  rewrite Hrun. simpl. eexists. split; [done|]. simpl.
  repeat (split; [done|]).
  intros k rxk txk Hr Ht. destruct (Hal k rxk txk Hr Ht) as [Hr' Ht'].
  split; [by apply Hval|done].
Qed.

Lemma gmi_step_unfold (M : nat) (p : gmi_prepared) (k : nat)
    (GMI : list xfloat) (last : option (list xfloat)) :
  gmi_step M (gp_Es p) (gp_constSymb p) (gp_bitMap p) (gp_noiseVar p)
           (gp_rx p) (gp_tx p) k (GMI, last)
  = (MI ← mode_MI M p k;
     GMI' ← set_item GMI k (xsum MI);
     Some (GMI', Some MI)).
Proof.
  unfold gmi_step, mode_MI.
  destruct (gp_noiseVar p !! k); simpl; [|done].
  destruct (gp_tx p !! k); simpl; [|done].
  destruct (gp_rx p !! k); simpl; done.
Qed.

Lemma gmi_loop (M : nat) (p : gmi_prepared) (n : nat) :
  (forall k, (k < n)%nat -> is_Some (mode_MI M p k)) ->
  exists GMI,
    for_range n
      (gmi_step M (gp_Es p) (gp_constSymb p) (gp_bitMap p) (gp_noiseVar p)
                (gp_rx p) (gp_tx p))
      (replicate n (Fin 0), None)
    = Some (GMI, match n with O => None | S n' => mode_MI M p n' end)
    /\ length GMI = n
    /\ forall k MI, (k < n)%nat -> mode_MI M p k = Some MI ->
       GMI !! k = Some (xsum MI).
Proof.
  intros Hmodes.
  destruct (for_range_inv
    (fun i (st : list xfloat * option (list xfloat)) =>
       length st.1 = n
       /\ st.2 = match i with O => None | S i' => mode_MI M p i' end
       /\ forall k MI, (k < i)%nat -> mode_MI M p k = Some MI ->
          st.1 !! k = Some (xsum MI))
    (gmi_step M (gp_Es p) (gp_constSymb p) (gp_bitMap p) (gp_noiseVar p)
              (gp_rx p) (gp_tx p)) n (replicate n (Fin 0), None))
    as ([GMI last] & Hrun & Hl & Hlast & Hval).
  - simpl. split; [by rewrite length_replicate|]. split; [done|].
    intros k MI Hk. lia.
  - intros i [GMI last] Hi (Hl & Hlast & Hval). simpl in Hl, Hlast, Hval.
    destruct (Hmodes i Hi) as [MI HMI].
    rewrite gmi_step_unfold, HMI. simpl.
    rewrite set_item_Some by lia. simpl. eexists. split; [done|]. simpl.
    split; [by rewrite length_insert|]. split; [done|].
    intros k MI' Hk HMI'. destruct (Nat.eq_dec k i) as [->|Hne].
    + rewrite HMI in HMI'. injection HMI' as <-.
      apply list_lookup_insert_eq. lia.
    + rewrite list_lookup_insert_ne by done. apply Hval; [lia|done].
  - simpl in *. subst last. by exists GMI.
Qed.

Lemma mode_MI_Some `{Modulation} (rx tx : ndarray) (b : nat)
    (constType : string) (p : gmi_prepared) (k : nat) :
  (1 <= b)%nat ->
  length (GrayMapping (2 ^ b) constType) = (2 ^ b)%nat ->
  length (demodulateGray (GrayMapping (2 ^ b) constType) (2 ^ b) constType)
  = (2 ^ b * b)%nat ->
  same_shape (columns rx) (columns tx) ->
  monteCarloGMI_prepare rx tx (2 ^ b) constType = Some p ->
  (k < length (columns tx))%nat ->
  exists MI, mode_MI (2 ^ b) p k = Some MI /\ length MI = b.
Proof.
  intros Hb Hconst Hbits Hshape Hp Hk.
  destruct (monteCarloGMI_prepare_value rx tx b constType Hb Hbits Hshape)
    as (p' & Hp' & Hc & HEs & Hn & Hbm & Hcols).
  rewrite Hp in Hp'. injection Hp' as <-.
  destruct (lookup_lt_is_Some_2 (columns tx) k Hk) as [txk Htxk].
  destruct (lookup_lt_is_Some_2 (columns rx) k) as [rxk Hrxk].
  { by rewrite (Forall2_length _ _ _ Hshape). }
  destruct (Hcols k rxk txk Hrxk Htxk) as (Hnv & Hr & Ht).
  unfold mode_MI. rewrite Hnv, Hr, Ht. simpl. rewrite Hc, Hbm.
  apply gmi_mode_Some.
  - done.
  - apply length_chunks.
  - by apply chunks_uniform.
  - rewrite length_conditioned, length_pnorm.
    exact (Forall2_lookup_lr _ _ _ _ _ _ Hshape Hrxk Htxk).
Qed.

(** C6. On a well-formed input with at least one mode ([2^b] points with
    [b >= 1] bits each, rx and tx of one shape), [monteCarloGMI] returns a
    GMI array with one value per mode, the sum of the per-bit-position
    values of that mode, and one per-bit-position array of length [b]:
    the one computed for the last mode, of index [nModes - 1]. *)
Theorem monteCarloGMI_returns_last_mode `{Modulation} (rx tx : ndarray)
    (b : nat) (constType : string) :
  (1 <= b)%nat ->
  length (GrayMapping (2 ^ b) constType) = (2 ^ b)%nat ->
  length (demodulateGray (GrayMapping (2 ^ b) constType) (2 ^ b) constType)
  = (2 ^ b * b)%nat ->
  same_shape (columns rx) (columns tx) ->
  (1 <= length (columns tx))%nat ->
  exists p GMI MIperBitPosition,
    monteCarloGMI_prepare rx tx (2 ^ b) constType = Some p
    /\ monteCarloGMI rx tx (2 ^ b) constType = Some (GMI, MIperBitPosition)
    /\ length GMI = length (columns tx)
    /\ length MIperBitPosition = b
    /\ mode_MI (2 ^ b) p (length (columns tx) - 1) = Some MIperBitPosition
    /\ forall k, (k < length (columns tx))%nat ->
       exists MI, mode_MI (2 ^ b) p k = Some MI /\ GMI !! k = Some (xsum MI).
Proof.
  intros Hb Hconst Hbits Hshape Hn.
  destruct (monteCarloGMI_prepare_value rx tx b constType Hb Hbits Hshape)
    as (p & Hp & _ & _ & HnM & _).
  assert (Hmodes : forall k, (k < length (columns tx))%nat ->
            exists MI, mode_MI (2 ^ b) p k = Some MI /\ length MI = b).
  { intros k Hk. by apply (mode_MI_Some rx tx b constType). }
  destruct (gmi_loop (2 ^ b) p (length (columns tx)))
    as (GMI & Hrun & HlG & Hval).
  { intros k Hk. destruct (Hmodes k Hk) as (MI & HMI & _). by exists MI. }
  destruct (length (columns tx)) as [|n] eqn:Hlen; [lia|].
  destruct (Hmodes n) as (MI & HMI & HlMI); [lia|].
  exists p, GMI, MI. split; [done|]. split.
  - unfold monteCarloGMI. rewrite Hp. simpl. rewrite HnM, Hrun. simpl.
    rewrite HMI. done.
  - split; [done|]. split; [done|]. split.
    + by replace (S n - 1)%nat with n by lia.
    + intros k Hk. destruct (Hmodes k Hk) as (MIk & HMIk & _).
      exists MIk. split; [done|]. by apply Hval.
Qed.

Lemma monteCarloGMI_returns_last_mode_witness :
  exists p GMI MIperBitPosition,
    @monteCarloGMI_prepare bpsk (Array1D rx_scaled) (Array1D tx_unit)
                           (2 ^ 1) "psk" = Some p
    /\ @monteCarloGMI bpsk (Array1D rx_scaled) (Array1D tx_unit)
                      (2 ^ 1) "psk" = Some (GMI, MIperBitPosition)
    /\ length GMI = length (columns (Array1D tx_unit))
    /\ length MIperBitPosition = 1%nat
    /\ mode_MI (2 ^ 1) p (length (columns (Array1D tx_unit)) - 1)
       = Some MIperBitPosition
    /\ forall k, (k < length (columns (Array1D tx_unit)))%nat ->
       exists MI, mode_MI (2 ^ 1) p k = Some MI /\ GMI !! k = Some (xsum MI).
Proof.
  apply (@monteCarloGMI_returns_last_mode bpsk (Array1D rx_scaled)
           (Array1D tx_unit) 1 "psk").
  - lia.
  - reflexivity.
  - reflexivity.
  - constructor; [reflexivity|constructor].
  - simpl. lia.
Defined.

(** ** Evaluation on the example data *)

Lemma pnorm_by (x : list complex) (s : R) :
  0 <= s -> signal_power x = s * s ->
  pnorm x = map (fun z => Cdivr z s) x.
Proof. intros Hs Hp. unfold pnorm. by rewrite Hp, sqrt_square. Qed.

Lemma Cabs_sqr (z : complex) : Cabs z ^ 2 = Re z * Re z + Im z * Im z.
Proof.
  unfold Cabs. rewrite <- Rsqr_pow2. apply Rsqr_sqrt.
  pose proof (Rle_0_sqr (Re z)). pose proof (Rle_0_sqr (Im z)).
  unfold Rsqr in *. lra.
Qed.

Lemma np_log_exp (x : R) : np_log (exp x) = Fin x.
Proof.
  unfold np_log. pose proof (exp_pos x).
  destruct (Req_dec_T (exp x) 0); [lra|].
  destruct (Rlt_dec 0 (exp x)); [|lra]. by rewrite ln_exp.
Qed.

Lemma pnorm_rx_scaled : pnorm rx_scaled = tx_unit.
Proof.
  rewrite (pnorm_by _ (13 / 12)); [|lra|].
  - unfold rx_scaled, tx_unit, Cdivr. simpl. data_eq.
  - unfold signal_power, rx_scaled, Cmean, Cdivr, Csum, Cmul, Cconj.
    simpl. field.
Qed.

Lemma pnorm_tx_unit : pnorm tx_unit = tx_unit.
Proof.
  rewrite (pnorm_by _ 1); [|lra|].
  - unfold tx_unit, Cdivr. simpl. data_eq.
  - unfold signal_power, tx_unit, Cmean, Cdivr, Csum, Cmul, Cconj.
    simpl. field.
Qed.

Lemma conditioned_rx_scaled : conditioned rx_scaled tx_unit = tx_unit.
Proof.
  unfold conditioned. rewrite pnorm_rx_scaled, pnorm_tx_unit.
  unfold tx_unit, Cmean, Cdiv, Cdivr, Cmul. simpl. data_eq.
Qed.

Lemma np_var_rx_scaled : np_var (zip_with Csub rx_scaled tx_unit) = 1 / 144.
Proof.
  unfold np_var, Rmean, Cmean, Cabs2, Cdivr, Csub, Cmul, Cconj,
    rx_scaled, tx_unit.
  simpl. field.
Qed.

Lemma mean_energy_bpsk : mean_energy [mkC (-1) 0; mkC 1 0] = 1.
Proof. unfold mean_energy, Rmean. simpl. rewrite !Cabs_sqr. simpl. field. Qed.

Lemma llr_bpsk_minus :
  llr_value (1 / 144) [mkC (-1) 0; mkC 1 0] [[0%Z]; [1%Z]] (mkC (-1) 0) 0
  = Fin 576.
Proof.
  unfold llr_value, bit_likelihood, likelihood. simpl.
  rewrite !Cabs_sqr. simpl.
  replace (exp _ + (0 + 0)) with (exp 0)
    by (rewrite Rplus_0_r, Rplus_0_r; f_equal; field).
  replace (0 + (exp _ + 0)) with (exp (-576))
    by (rewrite Rplus_0_l, Rplus_0_r; f_equal; field).
  rewrite !np_log_exp. simpl. data_eq.
Qed.

Lemma llr_bpsk_plus :
  llr_value (1 / 144) [mkC (-1) 0; mkC 1 0] [[0%Z]; [1%Z]] (mkC 1 0) 0
  = Fin (-576).
Proof.
  unfold llr_value, bit_likelihood, likelihood. simpl.
  rewrite !Cabs_sqr. simpl.
  replace (exp _ + (0 + 0)) with (exp (-576))
    by (rewrite Rplus_0_r, Rplus_0_r; f_equal; field).
  replace (0 + (exp _ + 0)) with (exp 0)
    by (rewrite Rplus_0_l, Rplus_0_r; f_equal; field).
  rewrite !np_log_exp. simpl. data_eq.
Qed.

Lemma monteCarloGMI_LLRs_scaled :
  @monteCarloGMI_LLRs bpsk (Array1D rx_scaled) (Array1D tx_unit) 2 "psk" 0
  = Some [Fin 576; Fin (-576)].
Proof.
  destruct (@monteCarloGMI_prepare_value bpsk (Array1D rx_scaled)
              (Array1D tx_unit) 1 "psk")
    as (p & Hp & Hc & HEs & _ & Hbm & Hcols).
  { lia. } { reflexivity. } { constructor; [reflexivity|constructor]. }
  destruct (Hcols O rx_scaled tx_unit eq_refl eq_refl) as (Hnv & Hr & Ht).
  change (2 ^ 1)%nat with 2%nat in *.
  rewrite np_var_rx_scaled in Hnv. rewrite conditioned_rx_scaled in Hr.
  rewrite pnorm_tx_unit in Ht.
  change (@GrayMapping bpsk 2 "psk") with [mkC (-1) 0; mkC 1 0] in *.
  change (chunks 2 1 (@demodulateGray bpsk [mkC (-1) 0; mkC 1 0] 2 "psk"))
    with [[0%Z]; [1%Z]] in Hbm.
  rewrite mean_energy_bpsk in HEs.
  unfold monteCarloGMI_LLRs. rewrite Hp. simpl. rewrite Hnv, Ht, Hr. simpl.
  rewrite HEs, Hc, Hbm. unfold gmi_soft. rewrite sqrt_1.
  replace (map (Cscale 1) tx_unit) with [mkC (-1) 0; mkC 1 0]
    by (unfold tx_unit, Cscale; simpl; data_eq).
  replace (map (fun c => Cdivr c 1) [mkC (-1) 0; mkC 1 0])
    with [mkC (-1) 0; mkC 1 0] by (unfold Cdivr; simpl; data_eq).
  destruct (hardDecision_rows [mkC (-1) 0; mkC 1 0] [mkC (-1) 0; mkC 1 0]
              [[0%Z]; [1%Z]] 1) as (rows & Hhd & _);
    [reflexivity|reflexivity|repeat constructor|].
  rewrite Hhd. cbn [mbind option_bind].
  destruct (calcLLR_values tx_unit (1 / 144) [mkC (-1) 0; mkC 1 0]
              [[0%Z]; [1%Z]] 1) as (LLRs & Hrun & Hlen & Hval);
    [reflexivity|reflexivity|repeat constructor|].
  rewrite Hrun. cbn [mbind option_bind fmap option_fmap option_map snd].
  pose proof (Hval 0%nat (mkC (-1) 0) 0%nat eq_refl ltac:(lia)) as H0.
  pose proof (Hval 1%nat (mkC 1 0) 0%nat eq_refl ltac:(lia)) as H1.
  rewrite llr_bpsk_minus in H0. rewrite llr_bpsk_plus in H1.
  destruct LLRs as [|a [|c [|? ?]]]; simpl in Hlen; try lia.
  simpl in H0, H1. injection H0 as ->. injection H1 as ->. reflexivity.
Qed.

(** ** The LLRs that [monteCarloGMI] uses *)

(** C2, as the code has it. No LLR that the mutual-information step of
    [monteCarloGMI] reads is +inf or -inf: the clipping has replaced those
    by 500 and -500.  A finite LLR keeps its value, also when its magnitude
    is above 500, and a nan stays. *)
Theorem monteCarloGMI_LLRs_not_infinite `{Modulation} (rx tx : ndarray)
    (M : nat) (constType : string) (k : nat) (LLRs : list xfloat) :
  monteCarloGMI_LLRs rx tx M constType k = Some LLRs ->
  Forall (fun x => is_infinite x = false) LLRs.
Proof.
  unfold monteCarloGMI_LLRs, gmi_soft. intros Hrun.
  destruct (monteCarloGMI_prepare rx tx M constType) as [p|];
    simpl in Hrun; [|done].
  destruct (gp_noiseVar p !! k) as [sigma2|]; simpl in Hrun; [|done].
  destruct (gp_tx p !! k) as [txk|]; simpl in Hrun; [|done].
  destruct (gp_rx p !! k) as [rxk|]; simpl in Hrun; [|done].
  destruct (hardDecision _ _ _) as [btx|]; simpl in Hrun; [|done].
  destruct (calcLLR _ _ _ _) as [raw|]; simpl in Hrun; [|done].
  injection Hrun as <-. apply clipLLR_not_infinite.
Qed.

Lemma monteCarloGMI_LLRs_not_infinite_witness :
  Forall (fun x => is_infinite x = false) [Fin 576; Fin (-576)].
Proof.
  apply (@monteCarloGMI_LLRs_not_infinite bpsk (Array1D rx_scaled)
           (Array1D tx_unit) 2 "psk" 0 [Fin 576; Fin (-576)]).
  apply monteCarloGMI_LLRs_scaled.
Defined.

(** C2, as stated, fails: for a received sequence that is the transmitted
    one 13/12 times as large, the code takes the noise variance 1/144 and
    the LLRs it uses after the clipping are 576 and -576. *)
Lemma monteCarloGMI_LLR_above_500 :
  exists LLRs,
    @monteCarloGMI_LLRs bpsk (Array1D rx_scaled) (Array1D tx_unit) 2 "psk" 0
    = Some LLRs
    /\ ~ Forall within500 LLRs.
Proof.
  exists [Fin 576; Fin (-576)]. split; [apply monteCarloGMI_LLRs_scaled|].
  intros Hall. apply Forall_cons in Hall as [(r & Hr & Habs) _].
  injection Hr as <-. rewrite Rabs_pos_eq in Habs by lra. lra.
Qed.

(** ** The noise variance that [monteCarloGMI] uses *)

Lemma pnorm_rx_noisy : pnorm rx_noisy = [mkC (7 / 5) 0; mkC (-1 / 5) 0].
Proof.
  rewrite (pnorm_by _ 5); [|lra|].
  - unfold rx_noisy, Cdivr. simpl. data_eq.
  - unfold signal_power, rx_noisy, Cmean, Cdivr, Csum, Cmul, Cconj.
    simpl. field.
Qed.

Lemma pnorm_tx_pair : pnorm tx_pair = tx_pair.
Proof.
  rewrite (pnorm_by _ 1); [|lra|].
  - unfold tx_pair, Cdivr. simpl. data_eq.
  - unfold signal_power, tx_pair, Cmean, Cdivr, Csum, Cmul, Cconj.
    simpl. field.
Qed.

Lemma conditioned_rx_noisy :
  conditioned rx_noisy tx_pair = [mkC 4 0; mkC (-4 / 7) 0].
Proof.
  unfold conditioned. rewrite pnorm_rx_noisy, pnorm_tx_pair.
  unfold tx_pair, Cmean, Cdiv, Cdivr, Cmul. simpl. data_eq.
Qed.

Lemma np_var_rx_noisy : np_var (zip_with Csub rx_noisy tx_pair) = 9.
Proof.
  unfold np_var, Rmean, Cmean, Cabs2, Cdivr, Csub, Cmul, Cconj,
    rx_noisy, tx_pair.
  simpl. field.
Qed.

Lemma np_var_rx_noisy_aligned :
  np_var (zip_with Csub [mkC 4 0; mkC (-4 / 7) 0] tx_pair) = 81 / 49.
Proof.
  unfold np_var, Rmean, Cmean, Cabs2, Cdivr, Csub, Cmul, Cconj, tx_pair.
  simpl. field.
Qed.

(** C1 fails on the code.  For the received sequence [7, -1] and the
    transmitted sequence [1, -1], the noise variance that the second loop
    of [monteCarloGMI] reads for mode 0 is 9, the variance of [rx - tx] as
    the caller passed them, while the variance of [rx - tx] after the
    normalisation and the phase correction is 81/49. *)
Theorem monteCarloGMI_noise_variance_unaligned :
  exists p rxk txk,
    @monteCarloGMI_prepare bpsk (Array1D rx_noisy) (Array1D tx_pair) 2 "psk"
    = Some p
    /\ gp_noiseVar p !! 0%nat = Some 9
    /\ gp_rx p !! 0%nat = Some rxk
    /\ gp_tx p !! 0%nat = Some txk
    /\ np_var (zip_with Csub rxk txk) = 81 / 49
    /\ 9 <> 81 / 49.
Proof.
  destruct (@monteCarloGMI_prepare_value bpsk (Array1D rx_noisy)
              (Array1D tx_pair) 1 "psk")
    as (p & Hp & _ & _ & _ & _ & Hcols).
  { lia. } { reflexivity. } { constructor; [reflexivity|constructor]. }
  destruct (Hcols O rx_noisy tx_pair eq_refl eq_refl) as (Hnv & Hr & Ht).
  rewrite np_var_rx_noisy in Hnv. rewrite conditioned_rx_noisy in Hr.
  rewrite pnorm_tx_pair in Ht.
  exists p, [mkC 4 0; mkC (-4 / 7) 0], tx_pair.
  split; [exact Hp|]. split; [exact Hnv|]. split; [exact Hr|].
  split; [exact Ht|]. split; [apply np_var_rx_noisy_aligned|lra].
Qed.

(** For every input the noise variance of mode [k] is the variance of the
    difference of the columns as the caller passed them. *)
Lemma monteCarloGMI_noise_variance_raw `{Modulation} (rx tx : ndarray)
    (M : nat) (constType : string) (p : gmi_prepared) :
  monteCarloGMI_prepare rx tx M constType = Some p ->
  var_axis0 (columns rx) (columns tx) = Some (gp_noiseVar p).
Proof.
  unfold monteCarloGMI_prepare. intros Hp.
  destruct (var_axis0 (columns rx) (columns tx)) as [nv|]; simpl in Hp; [|done].
  destruct (ilog2 M) as [b|]; simpl in Hp; [|done].
  destruct (reshape_rows b _) as [bm|]; simpl in Hp; [|done].
  destruct (for_range _ align_step _) as [[rx' tx']|]; simpl in Hp; [|done].
  by injection Hp as <-.
Qed.

(** ** [monteCarloMI]: default pmf and unit mean energy *)

Lemma Cnorm2_pos (c : complex) :
  c <> C0 -> 0 < Re c * Re c + Im c * Im c.
Proof.
  intros Hne. destruct c as [x y]. simpl.
  pose proof (Rle_0_sqr x) as Hx. pose proof (Rle_0_sqr y) as Hy.
  destruct (Req_dec_T x 0) as [->|Hx0].
  - destruct (Req_dec_T y 0) as [->|Hy0]; [done|].
    apply Rsqr_pos_lt in Hy0. unfold Rsqr in *. lra.
  - apply Rsqr_pos_lt in Hx0. unfold Rsqr in *. lra.
Qed.

Lemma weighted_energy_uniform (q : R) (l : list complex) :
  zip_with Rmult (map (fun c => Cabs c ^ 2) l) (replicate (length l) q)
  = map (fun c => Cabs c ^ 2 * q) l.
Proof. induction l as [|c l IH]; simpl; [done|]. by rewrite IH. Qed.

Lemma weighted_energy_nonneg (q : R) (l : list complex) :
  0 <= q -> 0 <= Rsum (map (fun c => Cabs c ^ 2 * q) l).
Proof.
  intros Hq. induction l as [|c l IH]; simpl; [lra|].
  rewrite Cabs_sqr. pose proof (Rle_0_sqr (Re c)). pose proof (Rle_0_sqr (Im c)).
  unfold Rsqr in *. nra.
Qed.

Lemma weighted_energy_pos (q : R) (l : list complex) :
  0 < q -> (exists c, c ∈ l /\ c <> C0) ->
  0 < Rsum (map (fun c => Cabs c ^ 2 * q) l).
Proof.
  intros Hq (c & Hin & Hne). induction Hin as [c l|c d l Hin IH]; simpl.
  - pose proof (weighted_energy_nonneg q l ltac:(lra)).
    rewrite Cabs_sqr. pose proof (Cnorm2_pos c Hne). nra.
  - specialize (IH Hne). rewrite Cabs_sqr.
    pose proof (Rle_0_sqr (Re d)). pose proof (Rle_0_sqr (Im d)).
    unfold Rsqr in *. nra.
Qed.

Lemma weighted_energy_rescaled (q s : R) (l : list complex) :
  s <> 0 ->
  Rsum (zip_with Rmult (map (fun c => Cabs c ^ 2)
                            (map (fun c => Cdivr c s) l))
                 (replicate (length l) q))
  = Rsum (map (fun c => Cabs c ^ 2 * q) l) / (s * s).
Proof.
  intros Hs. induction l as [|c l IH]; simpl.
  - unfold Rdiv. ring.
  - rewrite IH, !Cabs_sqr. unfold Cdivr. simpl. field. done.
Qed.

Lemma weighted_energy_mean (l : list complex) :
  Rsum (map (fun c => Cabs c ^ 2 * (1 / INR (length l) * 1)) l)
  = mean_energy l.
Proof.
  unfold mean_energy, Rmean. rewrite length_map.
  generalize (INR (length l)). intros n.
  assert (Hq : forall q, Rsum (map (fun c => Cabs c ^ 2 * q) l)
                         = Rsum (map (fun c => Cabs c ^ 2) l) * q).
  { intros q. induction l as [|c l IH]; simpl; [ring|]. rewrite IH. ring. }
  rewrite Hq. unfold Rdiv. ring.
Qed.

(** C8. When no pmf is passed, [monteCarloMI] takes the uniform pmf, 1/M
    for each of the M points, and rescales the constellation: every point
    of [GrayMapping] is divided by the square root of the mean energy of
    the constellation, which is its energy under that pmf, so that the
    mean energy of the rescaled constellation under the pmf is 1 (for a
    constellation of M points that are not all zero). *)
Theorem monteCarloMI_default_pmf `{Modulation} (M : nat) (constType : string) :
  length (GrayMapping M constType) = M ->
  (exists c, c ∈ GrayMapping M constType /\ c <> C0) ->
  exists px constSymb,
    monteCarloMI_init M constType [] = Some (px, constSymb)
    /\ px = replicate M (1 / INR M)
    /\ constSymb
       = map (fun c => Cdivr c (sqrt (mean_energy (GrayMapping M constType))))
             (GrayMapping M constType)
    /\ length constSymb = M
    /\ Rsum (zip_with Rmult (map (fun c => Cabs c ^ 2) constSymb) px) = 1.
Proof.
  intros Hlen Hnz. unfold monteCarloMI_init.
  set (cs := GrayMapping M constType) in *. clearbody cs. subst M.
  assert (HM : length cs <> O).
  { destruct Hnz as (c & Hin & _). destruct cs; [|done].
    by apply elem_of_nil in Hin. }
  assert (Hq : 0 < 1 / INR (length cs) * 1).
  { assert (0 < INR (length cs)) by (apply lt_0_INR; lia).
    rewrite Rmult_1_r. by apply Rdiv_lt_0_compat; [lra|]. }
  simpl. destruct (Nat.eqb_spec (length cs) 0) as [?|_]; [done|]. simpl.
  rewrite fmap_replicate.
  rewrite ew2_Some by (by rewrite length_map, length_replicate).
  simpl. rewrite weighted_energy_uniform.
  set (Es := Rsum (map (fun c => Cabs c ^ 2 * (1 / INR (length cs) * 1)) cs)).
  assert (HEs : 0 < Es) by (by apply weighted_energy_pos).
  eexists _, _. split; [done|]. split; [by rewrite Rmult_1_r|].
  split; [unfold Es; by rewrite weighted_energy_mean|].
  split; [by rewrite length_map|].
  rewrite weighted_energy_rescaled.
  - fold Es. rewrite sqrt_sqrt by lra. field. lra.
  - pose proof (sqrt_lt_R0 Es HEs). lra.
Qed.

Lemma monteCarloMI_default_pmf_witness :
  exists px constSymb,
    @monteCarloMI_init qam4 4 "qam" [] = Some (px, constSymb)
    /\ px = replicate 4 (1 / INR 4)
    /\ constSymb
       = map (fun c =>
                Cdivr c (sqrt (mean_energy (@GrayMapping qam4 4 "qam"))))
             (@GrayMapping qam4 4 "qam")
    /\ length constSymb = 4%nat
    /\ Rsum (zip_with Rmult (map (fun c => Cabs c ^ 2) constSymb) px) = 1.
Proof.
  apply (@monteCarloMI_default_pmf qam4 4 "qam").
  - reflexivity.
  - exists (mkC (-1) (-1)). split.
    + simpl. apply list_elem_of_here.
    + intros Heq. apply (f_equal Re) in Heq. simpl in Heq. lra.
Defined.

(** The constellation of [qam4] has the mean energy 2: the default pmf
    rescales it by the square root of 2. *)
Lemma mean_energy_qam4 : mean_energy (@GrayMapping qam4 4 "qam") = 2.
Proof. unfold mean_energy, Rmean. simpl. rewrite !Cabs_sqr. simpl. field. Qed.

(** ** [fastBERcalc] *)

Lemma fastBER_pre_step_value (k : nat) (rx tx : list (list complex))
    (SNR : list xfloat) (rxk txk : list complex) :
  rx !! k = Some rxk -> tx !! k = Some txk -> length rxk = length txk ->
  (k < length SNR)%nat ->
  residual_power rxk txk <> 0 ->
  fastBER_pre_step k (rx, tx, SNR)
  = Some (<[k := conditioned rxk txk]> rx, <[k := pnorm txk]> tx,
          <[k := snr_value rxk txk]> SNR).
Proof.
  intros Hr Ht Hlen Hk Hres.
  pose proof (align_step_value k rx tx rxk txk Hr Ht Hlen) as Hal.
  unfold align_step in Hal. unfold fastBER_pre_step.
  destruct (normalize_column k rx) as [rx1|]; simpl in *; [|done].
  destruct (normalize_column k tx) as [tx1|]; simpl in *; [|done].
  destruct (correct_phase k rx1 tx1) as [rx2|]; simpl in *; [|done].
  injection Hal as -> ->.
  rewrite !list_lookup_insert_eq
    by (by eapply lookup_lt_Some). simpl.
  rewrite ew2_Some by (by rewrite length_conditioned, length_pnorm). simpl.
  fold (residual_power rxk txk). unfold py_div.
  destruct (Req_dec_T (residual_power rxk txk) 0) as [?|_]; [done|]. simpl.
  by rewrite set_item_Some.
Qed.

(** A mode whose residual has no power makes the first loop raise. *)
Lemma fastBER_pre_step_noiseless (k : nat) (rx tx : list (list complex))
    (SNR : list xfloat) (rxk txk : list complex) :
  rx !! k = Some rxk -> tx !! k = Some txk -> length rxk = length txk ->
  residual_power rxk txk = 0 ->
  fastBER_pre_step k (rx, tx, SNR) = None.
Proof.
  intros Hr Ht Hlen Hres.
  pose proof (align_step_value k rx tx rxk txk Hr Ht Hlen) as Hal.
  unfold align_step in Hal. unfold fastBER_pre_step.
  destruct (normalize_column k rx) as [rx1|]; simpl in *; [|done].
  destruct (normalize_column k tx) as [tx1|]; simpl in *; [|done].
  destruct (correct_phase k rx1 tx1) as [rx2|]; simpl in *; [|done].
  injection Hal as -> ->.
  rewrite !list_lookup_insert_eq
    by (by eapply lookup_lt_Some). simpl.
  rewrite ew2_Some by (by rewrite length_conditioned, length_pnorm). simpl.
  fold (residual_power rxk txk). unfold py_div.
  destruct (Req_dec_T (residual_power rxk txk) 0) as [_|?]; done.
Qed.

Lemma fastBER_pre_loop (rx tx : list (list complex)) (n : nat) :
  length tx = n -> same_shape rx tx ->
  (forall k rxk txk, rx !! k = Some rxk -> tx !! k = Some txk ->
     residual_power rxk txk <> 0) ->
  exists rx' tx' SNR,
    for_range n fastBER_pre_step (rx, tx, replicate n (Fin 0))
    = Some (rx', tx', SNR)
    /\ length SNR = n
    /\ forall k rxk txk, rx !! k = Some rxk -> tx !! k = Some txk ->
       rx' !! k = Some (conditioned rxk txk)
       /\ tx' !! k = Some (pnorm txk)
       /\ SNR !! k = Some (snr_value rxk txk).
Proof.
  intros Hn Hshape Hres.
  assert (Hrn : length rx = n) by (by rewrite (Forall2_length _ _ _ Hshape)).
  destruct (for_range_inv
    (fun i (st : list (list complex) * list (list complex) * list xfloat) =>
       length st.1.1 = n /\ length st.1.2 = n /\ length st.2 = n
       /\ forall k rxk txk, rx !! k = Some rxk -> tx !! k = Some txk ->
          ((k < i)%nat -> st.1.1 !! k = Some (conditioned rxk txk)
                          /\ st.1.2 !! k = Some (pnorm txk)
                          /\ st.2 !! k = Some (snr_value rxk txk))
          /\ ((i <= k)%nat -> st.1.1 !! k = Some rxk
                              /\ st.1.2 !! k = Some txk))
    fastBER_pre_step n (rx, tx, replicate n (Fin 0)))
    as ([[rx' tx'] SNR] & Hrun & Hl1 & Hl2 & Hl3 & Hinv).
  - simpl. split; [done|]. split; [done|].
    split; [by rewrite length_replicate|].
    intros k rxk txk Hr Ht. split; [lia|done].
  - intros i [[rx1 tx1] SNR1] Hi (Hl1 & Hl2 & Hl3 & Hinv).
    simpl in Hl1, Hl2, Hl3, Hinv.
    destruct (lookup_lt_is_Some_2 rx i) as [rxi Hrxi]; [lia|].
    destruct (lookup_lt_is_Some_2 tx i) as [txi Htxi]; [lia|].
    destruct (Hinv i rxi txi Hrxi Htxi) as [_ Hcur].
    destruct Hcur as [Hr1 Ht1]; [lia|].
    pose proof (Forall2_lookup_lr _ _ _ _ _ _ Hshape Hrxi Htxi) as Hlen.
    eexists.
    split; [apply fastBER_pre_step_value; [done|done|done|lia|by eapply Hres]|].
    simpl. rewrite !length_insert. repeat (split; [done|]).
    intros k rxk txk Hr Ht. destruct (Hinv k rxk txk Hr Ht) as [Hlt Hge].
    destruct (Nat.eq_dec k i) as [->|Hne].
    + rewrite Hrxi in Hr. rewrite Htxi in Ht.
      injection Hr as <-. injection Ht as <-.
      split; [|lia]. intros _.
      rewrite !list_lookup_insert_eq by lia. done.
    + rewrite !list_lookup_insert_ne by done.
      split; intros Hk; [apply Hlt|apply Hge]; lia.
  - exists rx', tx', SNR. simpl in *. split; [done|]. split; [done|].
    intros k rxk txk Hr Ht.
    destruct (Hinv k rxk txk Hr Ht) as [Hlt _]. apply Hlt.
    apply lookup_lt_Some in Ht. lia.
Qed.

Lemma fastBER_err_step_unfold (Es : R) (constSymb : list complex)
    (bitMap : list (list Z)) (b : nat) (rx tx : list (list complex))
    (k : nat) (BER SER : list xfloat) :
  fastBER_err_step Es constSymb bitMap b rx tx k (BER, SER)
  = (rxk ← rx !! k;
     txk ← tx !! k;
     r ← mode_rates Es constSymb bitMap b rxk txk;
     BER' ← set_item BER k r.1;
     SER' ← set_item SER k r.2;
     Some (BER', SER')).
Proof.
  unfold fastBER_err_step, mode_rates.
  destruct (rx !! k) as [rxk|]; simpl; [|done].
  destruct (hardDecision _ constSymb bitMap) as [brx|]; simpl;
    [|by destruct (tx !! k)].
  destruct (tx !! k) as [txk|]; simpl; [|done].
  destruct (hardDecision _ constSymb bitMap) as [btx|]; simpl; [|done].
  destruct (bit_errors brx btx) as [err|]; simpl; [|done].
  destruct (SER_of b err) as [ser|]; simpl.
  - destruct (set_item BER k (BER_of err)); simpl; done.
  - destruct (set_item BER k (BER_of err)); simpl; done.
Qed.

Lemma positive_count_existsb (g : list bool) :
  (0 <? count_true g)%nat = existsb (fun e : bool => e) g.
Proof.
  unfold count_true. induction g as [|e g IH]; simpl; [done|].
  destruct e; simpl; [done|exact IH].
Qed.

Lemma count_true_map {A} (f : A -> bool) (l : list A) :
  count_true (map f l) = length (List.filter f l).
Proof.
  unfold count_true. induction l as [|x l IH]; simpl; [done|].
  destruct (f x); simpl; by rewrite IH.
Qed.

Lemma SER_of_value (n b : nat) (err : list bool) :
  (1 <= b)%nat -> length err = (n * b)%nat ->
  SER_of b err
  = Some (np_div (INR (groups_with_error b err)) (INR (length err / b))).
Proof.
  intros Hb Hlen. unfold SER_of, groups_with_error.
  rewrite (reshape_rows_uniform n b) by done. simpl.
  unfold mean_bool. rewrite length_map, length_chunks, count_true_map.
  rewrite Hlen, Nat.div_mul by lia.
  rewrite (List.filter_ext _ (existsb (fun e : bool => e))); [done|].
  intros g. apply positive_count_existsb.
Qed.

Lemma mode_rates_value (b : nat) (Es : R) (constSymb : list complex)
    (bitMap : list (list Z)) (rxk txk : list complex) :
  (1 <= b)%nat ->
  length constSymb = (2 ^ b)%nat ->
  length bitMap = (2 ^ b)%nat ->
  Forall (fun row => length row = b) bitMap ->
  length rxk = length txk ->
  exists brx btx err,
    hardDecision (map (Cscale (sqrt Es)) rxk) constSymb bitMap = Some brx
    /\ hardDecision (map (Cscale (sqrt Es)) txk) constSymb bitMap = Some btx
    /\ logical_xor brx btx = Some err
    /\ length err = (length rxk * b)%nat
    /\ mode_rates Es constSymb bitMap b rxk txk
       = Some (mean_bool err,
               np_div (INR (groups_with_error b err)) (INR (length err / b))).
Proof.
  intros Hb HM Hrows Hall Hlen.
  destruct (hardDecision_rows (map (Cscale (sqrt Es)) rxk) constSymb bitMap b)
    as (rows1 & Hhd1 & Hdec1 & Hrl1); [done..|].
  destruct (hardDecision_rows (map (Cscale (sqrt Es)) txk) constSymb bitMap b)
    as (rows2 & Hhd2 & Hdec2 & Hrl2); [done..|].
  apply Forall2_length in Hdec1, Hdec2. rewrite length_map in Hdec1, Hdec2.
  assert (Hl1 : length (concat rows1) = (length rxk * b)%nat).
  { by rewrite (concat_length_uniform b _ Hrl1), <- Hdec1. }
  assert (Hl2 : length (concat rows2) = (length rxk * b)%nat).
  { by rewrite (concat_length_uniform b _ Hrl2), <- Hdec2, Hlen. }
  set (err := zip_with (fun x y => xorb (negb (x =? 0)%Z) (negb (y =? 0)%Z))
                       (concat rows1) (concat rows2)).
  assert (Herr : logical_xor (concat rows1) (concat rows2) = Some err).
  { unfold logical_xor. apply ew2_Some. by rewrite Hl1, Hl2. }
  assert (Hle : length err = (length rxk * b)%nat).
  { unfold err. rewrite length_zip_with. lia. }
  exists (concat rows1), (concat rows2), err.
  repeat (split; [done|]).
  unfold mode_rates, bit_errors, BER_of. rewrite Hhd1, Hhd2. simpl.
  rewrite Herr. simpl. rewrite (SER_of_value (length rxk) b) by done. done.
Qed.

Lemma fastBER_err_loop (Es : R) (constSymb : list complex)
    (bitMap : list (list Z)) (b : nat) (rx tx : list (list complex))
    (n : nat) :
  (forall k, (k < n)%nat ->
     exists rxk txk r, rx !! k = Some rxk /\ tx !! k = Some txk
       /\ mode_rates Es constSymb bitMap b rxk txk = Some r) ->
  exists BER SER,
    for_range n (fastBER_err_step Es constSymb bitMap b rx tx)
              (replicate n (Fin 0), replicate n (Fin 0))
    = Some (BER, SER)
    /\ length BER = n /\ length SER = n
    /\ forall k rxk txk r, (k < n)%nat ->
       rx !! k = Some rxk -> tx !! k = Some txk ->
       mode_rates Es constSymb bitMap b rxk txk = Some r ->
       BER !! k = Some r.1 /\ SER !! k = Some r.2.
Proof.
  intros Hmodes.
  destruct (for_range_inv
    (fun i (st : list xfloat * list xfloat) =>
       length st.1 = n /\ length st.2 = n
       /\ forall k rxk txk r, (k < i)%nat ->
          rx !! k = Some rxk -> tx !! k = Some txk ->
          mode_rates Es constSymb bitMap b rxk txk = Some r ->
          st.1 !! k = Some r.1 /\ st.2 !! k = Some r.2)
    (fastBER_err_step Es constSymb bitMap b rx tx) n
    (replicate n (Fin 0), replicate n (Fin 0)))
    as ([BER SER] & Hrun & Hl1 & Hl2 & Hval).
  - simpl. rewrite !length_replicate. split; [done|]. split; [done|].
    intros k ? ? ? Hk. lia.
  - intros i [BER SER] Hi (Hl1 & Hl2 & Hval). simpl in Hl1, Hl2, Hval.
    destruct (Hmodes i Hi) as (rxi & txi & r & Hrxi & Htxi & Hr).
    rewrite fastBER_err_step_unfold, Hrxi, Htxi. simpl. rewrite Hr. simpl.
    rewrite !set_item_Some by lia. simpl. eexists. split; [done|]. simpl.
    rewrite !length_insert. split; [done|]. split; [done|].
    intros k rxk txk r' Hk Hrk Htk Hr'.
    destruct (Nat.eq_dec k i) as [->|Hne].
    + rewrite Hrxi in Hrk. rewrite Htxi in Htk.
      injection Hrk as <-. injection Htk as <-.
      rewrite Hr in Hr'. injection Hr' as <-.
      rewrite !list_lookup_insert_eq by lia. done.
    + rewrite !list_lookup_insert_ne by done.
      by apply (Hval k rxk txk r'); [lia|..].
  - exists BER, SER. simpl in *. done.
Qed.

Lemma fastBERcalc_modes `{Modulation} (rx tx : ndarray) (b : nat)
    (constType : string) :
  (1 <= b)%nat ->
  length (GrayMapping (2 ^ b) constType) = (2 ^ b)%nat ->
  length (demodulateGray (GrayMapping (2 ^ b) constType) (2 ^ b) constType)
  = (2 ^ b * b)%nat ->
  same_shape (columns rx) (columns tx) ->
  Forall2 well_conditioned (columns rx) (columns tx) ->
  let constSymb := GrayMapping (2 ^ b) constType in
  let Es := mean_energy constSymb in
  let bitMap := chunks (2 ^ b) b (demodulateGray constSymb (2 ^ b) constType) in
  exists BER SER SNR,
    fastBERcalc rx tx (2 ^ b) constType = Some (BER, SER, SNR)
    /\ length BER = length (columns tx)
    /\ length SER = length (columns tx)
    /\ length SNR = length (columns tx)
    /\ forall k rxk txk,
         columns rx !! k = Some rxk -> columns tx !! k = Some txk ->
         exists brx btx err,
           hardDecision (map (Cscale (sqrt Es)) (conditioned rxk txk))
                        constSymb bitMap = Some brx
           /\ hardDecision (map (Cscale (sqrt Es)) (pnorm txk))
                           constSymb bitMap = Some btx
           /\ logical_xor brx btx = Some err
           /\ length err = (length rxk * b)%nat
           /\ BER !! k = Some (mean_bool err)
           /\ SER !! k
              = Some (np_div (INR (groups_with_error b err))
                             (INR (length err / b)))
           /\ SNR !! k = Some (snr_value rxk txk).
Proof.
  intros Hb Hconst Hbits Hshape Hwell constSymb Es bitMap.
  assert (Hbm : length bitMap = (2 ^ b)%nat) by apply length_chunks.
  assert (Hrows : Forall (fun row => length row = b) bitMap)
    by (by apply chunks_uniform).
  destruct (fastBER_pre_loop (columns rx) (columns tx) (length (columns tx)))
    as (rx' & tx' & SNR & Hpre & HlS & Hcols); [done|done| |].
  { intros k rxk txk Hr Ht.
    destruct (Forall2_lookup_lr _ _ _ _ _ _ Hwell Hr Ht) as (_ & _ & Hres).
    lra. }
  assert (Hrates : forall k rxk txk,
            columns rx !! k = Some rxk -> columns tx !! k = Some txk ->
            exists brx btx err,
              hardDecision (map (Cscale (sqrt Es)) (conditioned rxk txk))
                           constSymb bitMap = Some brx
              /\ hardDecision (map (Cscale (sqrt Es)) (pnorm txk))
                              constSymb bitMap = Some btx
              /\ logical_xor brx btx = Some err
              /\ length err = (length rxk * b)%nat
              /\ mode_rates Es constSymb bitMap b (conditioned rxk txk)
                            (pnorm txk)
                 = Some (mean_bool err,
                         np_div (INR (groups_with_error b err))
                                (INR (length err / b)))).
  { intros k rxk txk Hr Ht.
    pose proof (Forall2_lookup_lr _ _ _ _ _ _ Hshape Hr Ht) as Hlen.
    destruct (mode_rates_value b Es constSymb bitMap (conditioned rxk txk)
                (pnorm txk)) as (brx & btx & err & H1 & H2 & H3 & H4 & H5);
      [done|done|done|done|by rewrite length_conditioned, length_pnorm|].
    exists brx, btx, err. rewrite length_conditioned in H4. done. }
  destruct (fastBER_err_loop Es constSymb bitMap b rx' tx'
              (length (columns tx))) as (BER & SER & Hrun & HlB & HlE & Hval).
  { intros k Hk.
    destruct (lookup_lt_is_Some_2 (columns tx) k Hk) as [txk Htxk].
    destruct (lookup_lt_is_Some_2 (columns rx) k) as [rxk Hrxk].
    { by rewrite (Forall2_length _ _ _ Hshape). }
    destruct (Hcols k rxk txk Hrxk Htxk) as (Hr' & Ht' & _).
    destruct (Hrates k rxk txk Hrxk Htxk) as (brx & btx & err & _ & _ & _ & _ & Hm).
    eexists _, _, _. done. }
  exists BER, SER, SNR. split.
  - unfold fastBERcalc. rewrite ilog2_pow2. simpl.
    rewrite (reshape_rows_uniform (2 ^ b) b) by done. simpl.
    rewrite Hpre. simpl. fold constSymb Es bitMap. rewrite Hrun. done.
  - repeat (split; [done|]).
    intros k rxk txk Hrxk Htxk.
    destruct (Hcols k rxk txk Hrxk Htxk) as (Hr' & Ht' & HS).
    destruct (Hrates k rxk txk Hrxk Htxk)
      as (brx & btx & err & H1 & H2 & H3 & H4 & Hm).
    destruct (Hval k _ _ _ (lookup_lt_Some _ _ _ Htxk) Hr' Ht' Hm) as [HB HE].
    exists brx, btx, err. done.
Qed.

(** The example with a bit error. *)

Lemma pnorm_rx_flip :
  pnorm rx_flip = [mkC 1 0; mkC (-1) 0; mkC 1 0; mkC 1 0].
Proof.
  rewrite (pnorm_by _ 2); [|lra|].
  - unfold rx_flip, Cdivr. simpl. data_eq.
  - unfold signal_power, rx_flip, Cmean, Cdivr, Csum, Cmul, Cconj.
    simpl. field.
Qed.

Lemma signal_power_tx_quad : signal_power tx_quad = 1.
Proof.
  unfold signal_power, tx_quad, Cmean, Cdivr, Csum, Cmul, Cconj.
  simpl. field.
Qed.

Lemma pnorm_tx_quad : pnorm tx_quad = tx_quad.
Proof.
  rewrite (pnorm_by _ 1); [|lra|].
  - unfold tx_quad, Cdivr. simpl. data_eq.
  - rewrite signal_power_tx_quad. ring.
Qed.

Lemma conditioned_rx_flip :
  conditioned rx_flip tx_quad
  = [mkC (1 / 2) 0; mkC (-1 / 2) 0; mkC (1 / 2) 0; mkC (1 / 2) 0].
Proof.
  unfold conditioned. rewrite pnorm_rx_flip, pnorm_tx_quad.
  unfold tx_quad, Cmean, Cdiv, Cdivr, Cmul. simpl. data_eq.
Qed.

Lemma residual_power_rx_flip : residual_power rx_flip tx_quad = 3 / 4.
Proof.
  unfold residual_power. rewrite conditioned_rx_flip, pnorm_tx_quad.
  unfold signal_power, tx_quad, Cmean, Cdivr, Csum, Csub, Cmul, Cconj.
  simpl. field.
Qed.

Lemma nonzero_re (x y : R) : x <> 0 -> mkC x y <> C0.
Proof. intros Hx Heq. apply (f_equal Re) in Heq. simpl in Heq. done. Qed.

Lemma well_conditioned_rx_flip : well_conditioned rx_flip tx_quad.
Proof.
  split; [|split].
  - unfold rx_flip. repeat constructor; apply nonzero_re; lra.
  - rewrite signal_power_tx_quad. lra.
  - rewrite residual_power_rx_flip. lra.
Qed.



(** *** The examples evaluated *)

Lemma Cabs_real_axis (x : R) : Cabs (mkC x 0) = Rabs x.
Proof.
  unfold Cabs. simpl.
  replace (x * x + 0 * 0) with (Rsqr x) by (unfold Rsqr; ring).
  apply sqrt_Rsqr_abs.
Qed.

(** Binary PSK decides by the sign of the real part. *)
Lemma decided_bpsk (x : R) (row : list Z) :
  decided [mkC (-1) 0; mkC 1 0] [[0%Z]; [1%Z]] (mkC x 0) row ->
  row = if Rlt_dec 0 x then [1%Z] else [0%Z].
Proof.
  intros (j & Hj & Hrow). unfold distances, np_argmin in Hj. simpl in Hj.
  unfold Csub in Hj. simpl in Hj.
  replace (0 - 0) with 0 in Hj by ring. rewrite !Cabs_real_axis in Hj.
  destruct (Rlt_dec (Rabs (x - 1)) (Rabs (x - -1))) as [Hlt|Hge];
    injection Hj as <-; simpl in Hrow; injection Hrow as <-;
    destruct (Rlt_dec 0 x) as [Hx|Hx]; try done; exfalso.
  - revert Hlt. unfold Rabs. repeat destruct Rcase_abs; lra.
  - apply Hge. unfold Rabs. repeat destruct Rcase_abs; lra.
Qed.

Lemma hardDecision_bpsk (xs : list R) :
  hardDecision (map (fun x => mkC x 0) xs) [mkC (-1) 0; mkC 1 0]
               [[0%Z]; [1%Z]]
  = Some (map (fun x => if Rlt_dec 0 x then 1%Z else 0%Z) xs).
Proof.
  destruct (hardDecision_rows (map (fun x => mkC x 0) xs)
              [mkC (-1) 0; mkC 1 0] [[0%Z]; [1%Z]] 1)
    as (rows & Hrun & Hall & _); [done|done|by repeat constructor|].
  rewrite Hrun. f_equal. clear Hrun. revert rows Hall.
  induction xs as [|x xs IH]; intros rows Hall; simpl in Hall.
  - by apply Forall2_nil_inv_l in Hall as ->.
  - apply Forall2_cons_inv_l in Hall as (row & rows' & Hrow & Hall & ->).
    apply decided_bpsk in Hrow as ->. simpl. rewrite (IH _ Hall).
    by destruct (Rlt_dec 0 x).
Qed.

(** The example evaluated: one bit error and one symbol error in four. *)
Lemma fastBERcalc_rx_flip :
  exists SNR,
    @fastBERcalc bpsk (Array1D rx_flip) (Array1D tx_quad) (2 ^ 1) "psk"
    = Some ([Fin (1 / 4)], [Fin (1 / 4)], SNR).
Proof.
  destruct (@fastBERcalc_modes bpsk (Array1D rx_flip) (Array1D tx_quad) 1
              "psk") as (BER & SER & SNR & Hrun & HlB & HlS & _ & Hmodes);
    [lia|reflexivity|reflexivity|by repeat constructor
    |constructor; [apply well_conditioned_rx_flip|constructor]|].
  destruct (Hmodes 0%nat rx_flip tx_quad eq_refl eq_refl)
    as (brx & btx & err & Hrx & Htx & Herr & _ & HB & HS & _).
  rewrite conditioned_rx_flip in Hrx. rewrite pnorm_tx_quad in Htx.
  cbn [GrayMapping demodulateGray bpsk chunks take drop Nat.pow Nat.mul
       Nat.add] in Hrx, Htx.
  rewrite mean_energy_bpsk, sqrt_1 in Hrx, Htx.
  replace (map (Cscale 1) [mkC (1 / 2) 0; mkC (-1 / 2) 0; mkC (1 / 2) 0;
                           mkC (1 / 2) 0])
    with (map (fun x => mkC x 0) [1 / 2; -1 / 2; 1 / 2; 1 / 2]) in Hrx
    by (unfold Cscale; simpl; data_eq).
  replace (map (Cscale 1) tx_quad)
    with (map (fun x => mkC x 0) [1; -1; 1; -1]) in Htx
    by (unfold tx_quad, Cscale; simpl; data_eq).
  rewrite hardDecision_bpsk in Hrx, Htx.
  injection Hrx as <-. injection Htx as <-. simpl in Herr.
  repeat (destruct Rlt_dec as [?|?] in Herr; try lra).
  injection Herr as <-.
  exists SNR. rewrite Hrun. simpl in HlB, HlS.
  destruct BER as [|ber [|? ?]]; try done.
  destruct SER as [|ser [|? ?]]; try done.
  simpl in HB, HS. injection HB as ->. injection HS as ->.
  do 3 f_equal.
  - unfold mean_bool, count_true. simpl. unfold np_div.
    repeat (destruct Req_dec_T as [?|?]; try lra). do 2 f_equal. lra.
  - unfold groups_with_error. simpl. unfold np_div.
    repeat (destruct Req_dec_T as [?|?]; try lra). do 2 f_equal. lra.
Qed.

(** The same sequence on both sides: the residual has no power and the
    quotient of line 121 raises. *)
Lemma fastBERcalc_noiseless_raises :
  @fastBERcalc bpsk (Array1D rx_noisy) (Array1D rx_noisy) (2 ^ 1) "psk"
  = None.
Proof.
  assert (Hres : residual_power rx_noisy rx_noisy = 0).
  { unfold residual_power, conditioned. rewrite pnorm_rx_noisy.
    unfold signal_power, Cmean, Cdiv, Cdivr, Csum, Csub, Cmul, Cconj.
    simpl. field. }
  unfold fastBERcalc.
  cbn [columns length GrayMapping demodulateGray bpsk].
  change (ilog2 (2 ^ 1)) with (Some 1%nat).
  change (reshape_rows 1 [0%Z; 1%Z]) with (Some [[0%Z]; [1%Z]]).
  cbn [mbind option_bind]. rewrite for_range_S.
  change (for_range 0 fastBER_pre_step
            ([rx_noisy], [rx_noisy], replicate 1 (Fin 0)))
    with (Some ([rx_noisy], [rx_noisy], replicate 1 (Fin 0))).
  cbn [mbind option_bind].
  by rewrite (fastBER_pre_step_noiseless 0 [rx_noisy] [rx_noisy] _
                rx_noisy rx_noisy eq_refl eq_refl eq_refl Hres).
Qed.

(** ** Bit errors against symbol errors *)

Lemma count_true_app (l1 l2 : list bool) :
  count_true (l1 ++ l2) = (count_true l1 + count_true l2)%nat.
Proof. unfold count_true. by rewrite List.filter_app, length_app. Qed.

Lemma count_true_le_length (l : list bool) : (count_true l <= length l)%nat.
Proof. unfold count_true. apply List.filter_length_le. Qed.

Lemma group_count_bounds (n b : nat) (l : list bool) :
  length l = (n * b)%nat ->
  (length (List.filter (existsb (fun e : bool => e)) (chunks n b l))
   <= count_true l
   <= b * length (List.filter (existsb (fun e : bool => e)) (chunks n b l)))%nat.
Proof.
  revert l. induction n as [|n IH]; intros l Hl.
  - destruct l; [|done]. simpl. unfold count_true. simpl. lia.
  - simpl in Hl. simpl chunks.
    assert (Hd : length (drop b l) = (n * b)%nat)
      by (rewrite length_drop; lia).
    specialize (IH (drop b l) Hd).
    assert (Hc : count_true l
                 = (count_true (take b l) + count_true (drop b l))%nat)
      by (by rewrite <- count_true_app, take_drop).
    rewrite Hc.
    pose proof (count_true_le_length (take b l)) as Hle.
    rewrite length_take in Hle.
    pose proof (positive_count_existsb (take b l)) as Hex.
    simpl List.filter.
    set (g := length (List.filter (existsb (fun e : bool => e))
                                  (chunks n b (drop b l)))) in *.
    destruct (existsb (fun e : bool => e) (take b l)).
    + apply Nat.ltb_lt in Hex. simpl length. fold g.
      rewrite Nat.mul_succ_r. lia.
    + apply Nat.ltb_ge in Hex. fold g. lia.
Qed.

Lemma rate_bounds (E S N b : nat) :
  (1 <= N)%nat -> (1 <= b)%nat -> (S <= E)%nat -> (E <= b * S)%nat ->
  INR E / INR (N * b) <= INR S / INR N
  /\ INR S / INR N <= INR b * (INR E / INR (N * b)).
Proof.
  intros HN Hb HSE HES.
  apply le_INR in HSE, HES. rewrite mult_INR in HES. rewrite mult_INR.
  assert (Hn : 0 < INR N) by (apply lt_0_INR; lia).
  assert (Hbb : 0 < INR b) by (apply lt_0_INR; lia).
  assert (Hin : 0 < / INR N) by (by apply Rinv_0_lt_compat).
  assert (Hib : 0 < / INR b) by (by apply Rinv_0_lt_compat).
  assert (Heb : INR E * / INR b <= INR S).
  { apply (Rmult_le_reg_r (INR b)); [done|].
    rewrite Rmult_assoc, Rinv_l by lra. lra. }
  split.
  - replace (INR E / (INR N * INR b)) with (INR E * / INR b * / INR N)
      by (field; lra).
    unfold Rdiv. apply Rmult_le_compat_r; lra.
  - replace (INR b * (INR E / (INR N * INR b))) with (INR E * / INR N)
      by (field; lra).
    unfold Rdiv. apply Rmult_le_compat_r; lra.
Qed.

Lemma np_div_count (a n : nat) :
  (1 <= n)%nat -> np_div (INR a) (INR n) = Fin (INR a / INR n).
Proof.
  intros Hn. unfold np_div.
  destruct (Req_dec_T (INR n) 0) as [H0|_]; [|done].
  exfalso. revert H0. apply not_0_INR. lia.
Qed.

Lemma signal_power_nil : signal_power [] = 0.
Proof. unfold signal_power, Cmean, Cdivr. simpl. lra. Qed.

Lemma well_conditioned_nonempty (rxk txk : list complex) :
  well_conditioned rxk txk -> txk <> [].
Proof.
  intros (_ & Hp & _) ->. rewrite signal_power_nil in Hp. lra.
Qed.

(** C10. On a well-formed input of [fastBERcalc] ([2^b] points with
    [b >= 1] bits each, rx and tx of one shape, no degenerate mode) and
    for every mode [k], the rates are finite and
    [BER[k] <= SER[k] <= b * BER[k]]. *)
Theorem fastBERcalc_BER_SER_bounds `{Modulation} (rx tx : ndarray) (b : nat)
    (constType : string) (k : nat) (txk : list complex) :
  (1 <= b)%nat ->
  length (GrayMapping (2 ^ b) constType) = (2 ^ b)%nat ->
  length (demodulateGray (GrayMapping (2 ^ b) constType) (2 ^ b) constType)
  = (2 ^ b * b)%nat ->
  same_shape (columns rx) (columns tx) ->
  Forall2 well_conditioned (columns rx) (columns tx) ->
  columns tx !! k = Some txk ->
  exists BER SER SNR ber ser,
    fastBERcalc rx tx (2 ^ b) constType = Some (BER, SER, SNR)
    /\ BER !! k = Some (Fin ber)
    /\ SER !! k = Some (Fin ser)
    /\ ber <= ser
    /\ ser <= INR b * ber.
Proof.
  intros Hb Hconst Hbits Hshape Hwell Htxk.
  destruct (fastBERcalc_modes rx tx b constType Hb Hconst Hbits Hshape Hwell)
    as (BER & SER & SNR & Hrun & _ & _ & _ & Hmodes).
  destruct (lookup_lt_is_Some_2 (columns rx) k) as [rxk Hrxk].
  { rewrite (Forall2_length _ _ _ Hshape). by eapply lookup_lt_Some. }
  pose proof (Forall2_lookup_lr _ _ _ _ _ _ Hshape Hrxk Htxk) as Hlen.
  pose proof (well_conditioned_nonempty _ _
                (Forall2_lookup_lr _ _ _ _ _ _ Hwell Hrxk Htxk)) as Hne.
  destruct (Hmodes k rxk txk Hrxk Htxk)
    as (brx & btx & err & _ & _ & _ & Hle & HB & HS & _).
  assert (HN : (1 <= length rxk)%nat).
  { rewrite Hlen. destruct txk; [done|simpl; lia]. }
  unfold mean_bool in HB. unfold groups_with_error in HS.
  rewrite Hle in HB, HS. rewrite Nat.div_mul in HS by lia.
  rewrite np_div_count in HB by nia. rewrite np_div_count in HS by done.
  pose proof (group_count_bounds (length rxk) b err Hle) as [Hlo Hhi].
  destruct (rate_bounds (count_true err)
              (length (List.filter (existsb (fun e : bool => e))
                                   (chunks (length rxk) b err)))
              (length rxk) b HN Hb Hlo Hhi) as [H1 H2].
  eexists BER, SER, SNR, _, _. done.
Qed.

Lemma fastBERcalc_BER_SER_bounds_witness :
  exists BER SER SNR ber ser,
    @fastBERcalc bpsk (Array1D rx_flip) (Array1D tx_quad) (2 ^ 1) "psk"
    = Some (BER, SER, SNR)
    /\ BER !! 0%nat = Some (Fin ber)
    /\ SER !! 0%nat = Some (Fin ser)
    /\ ber <= ser
    /\ ser <= INR 1 * ber.
Proof.
  apply (@fastBERcalc_BER_SER_bounds bpsk (Array1D rx_flip)
           (Array1D tx_quad) 1 "psk" 0 tx_quad).
  - lia.
  - reflexivity.
  - reflexivity.
  - constructor; [reflexivity|constructor].
  - constructor; [apply well_conditioned_rx_flip|constructor].
  - reflexivity.
Defined.

(** ** A noiseless link *)

Lemma Cdiv_diag (z : complex) : z <> C0 -> Cdiv z z = mkC 1 0.
Proof.
  intros Hz. pose proof (Cnorm2_pos z Hz). unfold Cdiv.
  apply (f_equal2 mkC); field; lra.
Qed.

Lemma Cmul_one (z : complex) : Cmul (mkC 1 0) z = z.
Proof. destruct z as [x y]. unfold Cmul. simpl. apply (f_equal2 mkC); ring. Qed.

Lemma Cmean_ones (l : list complex) :
  l <> [] -> Forall (fun z => z = mkC 1 0) l -> Cmean l = mkC 1 0.
Proof.
  intros Hne Hall.
  assert (Hsum : Csum l = mkC (INR (length l)) 0).
  { clear Hne. induction Hall as [|z l -> _ IH]; [done|].
    cbn [Csum foldr]. fold (Csum l). rewrite IH. unfold Cadd.
    cbn [Re Im length]. rewrite S_INR. apply (f_equal2 mkC); ring. }
  unfold Cmean. rewrite Hsum. unfold Cdivr. simpl.
  assert (INR (length l) <> 0) by (apply not_0_INR; by destruct l).
  apply (f_equal2 mkC); field; done.
Qed.

Lemma signal_power_pos (x : list complex) :
  x <> [] -> Forall (fun z => z <> C0) x -> 0 < signal_power x.
Proof.
  intros Hne Hall. unfold signal_power, Cmean, Cdivr. cbn [Re].
  assert (Hn : 0 < INR (length x)) by (apply lt_0_INR; destruct x; simpl; [done|lia]).
  rewrite length_map. apply Rdiv_lt_0_compat; [|done].
  clear Hn. induction Hall as [|z l Hz Hall IH]; [done|].
  cbn [map Csum foldr]. fold (Csum (map (fun z => Cmul z (Cconj z)) l)).
  unfold Cadd at 1. cbn [Re].
  assert (Hzz : 0 < Re (Cmul z (Cconj z))).
  { pose proof (Cnorm2_pos z Hz). unfold Cmul, Cconj. simpl. lra. }
  destruct l as [|w l]; [simpl in *; lra|].
  assert (0 < Re (Csum (map (fun z => Cmul z (Cconj z)) (w :: l))))
    by (by apply IH).
  lra.
Qed.

Lemma conditioned_diag (x : list complex) :
  x <> [] -> Forall (fun z => z <> C0) x -> conditioned x x = pnorm x.
Proof.
  intros Hne Hall. unfold conditioned.
  assert (Hs : 0 < sqrt (signal_power x))
    by (apply sqrt_lt_R0; by apply signal_power_pos).
  assert (Hp : Forall (fun z => z <> C0) (pnorm x)).
  { unfold pnorm. apply Forall_fmap. eapply Forall_impl; [exact Hall|].
    intros [a c] Hz Heq. simpl in Heq. apply Hz. unfold Cdivr in Heq.
    simpl in Heq. injection Heq as Ha Hc. unfold C0.
    apply (f_equal2 mkC).
    - apply (Rmult_eq_reg_r (/ sqrt (signal_power x)));
        [unfold Rdiv in Ha; lra|]. apply Rinv_neq_0_compat. lra.
    - apply (Rmult_eq_reg_r (/ sqrt (signal_power x)));
        [unfold Rdiv in Hc; lra|]. apply Rinv_neq_0_compat. lra. }
  rewrite Cmean_ones.
  - rewrite <- (map_id (pnorm x)) at 2. apply map_ext. apply Cmul_one.
  - intros Hnil. apply (f_equal length) in Hnil.
    rewrite length_zip_with, length_pnorm in Hnil. destruct x; [done|].
    simpl in Hnil. lia.
  - clear Hne Hs. induction Hp as [|z l Hz _ IH]; simpl; constructor.
    + by apply Cdiv_diag.
    + exact IH.
Qed.

Lemma groups_all_false (b : nat) (err : list bool) :
  Forall (fun e => e = false) err -> groups_with_error b err = O.
Proof.
  intros Hall. unfold groups_with_error.
  pose proof (chunks_all_false (length err / b) b err Hall) as Hg.
  apply count_true_all_false in Hg. rewrite count_true_map in Hg.
  rewrite <- Hg. f_equal. apply List.filter_ext. intros g.
  symmetry. apply positive_count_existsb.
Qed.

Lemma same_shape_refl (x : list (list complex)) : same_shape x x.
Proof. unfold same_shape. induction x; by constructor. Qed.

(** ** [signal_power] *)

Lemma Re_Csum (l : list complex) : Re (Csum l) = Rsum (map Re l).
Proof. induction l as [|z l IH]; simpl; [done|]. by rewrite IH. Qed.

Lemma Re_mul_conj (z : complex) : Re (Cmul z (Cconj z)) = Cabs z ^ 2.
Proof. rewrite Cabs_sqr. unfold Cmul, Cconj. simpl. ring. Qed.

Lemma signal_power_sum (x : list complex) :
  signal_power x = Rsum (map (fun z => Cabs z ^ 2) x) / INR (length x).
Proof.
  unfold signal_power, Cmean, Cdivr. cbn [Re].
  rewrite Re_Csum, map_map, length_map. f_equal. f_equal.
  apply map_ext. apply Re_mul_conj.
Qed.

Lemma Rsum_abs2_nonneg (x : list complex) :
  0 <= Rsum (map (fun z => Cabs z ^ 2) x).
Proof.
  induction x as [|z x IH]; simpl; [lra|].
  rewrite Cabs_sqr. pose proof (Rle_0_sqr (Re z)). pose proof (Rle_0_sqr (Im z)).
  unfold Rsqr in *. lra.
Qed.

(** [signal_power] of a sequence with at least one sample is the mean of
    the squared magnitudes, as its docstring says, and is never negative. *)
Theorem signal_power_is_mean_square (x : list complex) :
  x <> [] ->
  signal_power x = Rmean (map (fun z => Cabs z ^ 2) x)
  /\ 0 <= signal_power x.
Proof.
  intros Hne. rewrite signal_power_sum. unfold Rmean. rewrite length_map.
  split; [done|].
  assert (0 < INR (length x)) by (apply lt_0_INR; destruct x; simpl; [done|lia]).
  pose proof (Rsum_abs2_nonneg x).
  apply Rmult_le_pos; [done|]. left. by apply Rinv_0_lt_compat.
Qed.

Lemma signal_power_is_mean_square_witness :
  signal_power rx_noisy = Rmean (map (fun z => Cabs z ^ 2) rx_noisy)
  /\ 0 <= signal_power rx_noisy.
Proof. apply (signal_power_is_mean_square rx_noisy). discriminate. Defined.

Lemma Cabs_mul (g z : complex) : Cabs (Cmul g z) ^ 2 = Cabs g ^ 2 * Cabs z ^ 2.
Proof. rewrite !Cabs_sqr. unfold Cmul. simpl. ring. Qed.

Lemma Rsum_scal (k : R) (l : list R) : Rsum (map (Rmult k) l) = k * Rsum l.
Proof. induction l as [|a l IH]; simpl; [ring|]. rewrite IH. ring. Qed.

(** A complex gain [g] on every sample multiplies the power by [|g|^2]. *)
Theorem signal_power_gain (g : complex) (x : list complex) :
  x <> [] ->
  signal_power (map (Cmul g) x) = Cabs g ^ 2 * signal_power x.
Proof.
  intros Hne. rewrite !signal_power_sum, length_map, map_map.
  rewrite (map_ext _ (fun z => Cabs g ^ 2 * Cabs z ^ 2)) by apply Cabs_mul.
  rewrite <- (map_map (fun z => Cabs z ^ 2) (Rmult (Cabs g ^ 2))), Rsum_scal.
  unfold Rdiv. ring.
Qed.

Lemma signal_power_gain_witness :
  signal_power (map (Cmul (mkC 0 1)) rx_noisy)
  = Cabs (mkC 0 1) ^ 2 * signal_power rx_noisy.
Proof. apply (signal_power_gain (mkC 0 1) rx_noisy). discriminate. Defined.

Lemma signal_power_pos_exists (x : list complex) :
  (exists z, z ∈ x /\ z <> C0) -> 0 < signal_power x.
Proof.
  intros Hnz. rewrite signal_power_sum.
  assert (Hn : 0 < INR (length x)).
  { destruct Hnz as (z & Hin & _). apply lt_0_INR.
    destruct x; [by apply elem_of_nil in Hin|simpl; lia]. }
  apply Rdiv_lt_0_compat; [|done].
  pose proof (weighted_energy_pos 1 x ltac:(lra) Hnz) as Hpos.
  rewrite (map_ext _ (fun c => Cabs c ^ 2)) in Hpos by (intros; ring). done.
Qed.

Lemma Cabs_divr (z : complex) (s : R) :
  s <> 0 -> Cabs (Cdivr z s) ^ 2 = Cabs z ^ 2 / (s * s).
Proof. intros Hs. rewrite !Cabs_sqr. unfold Cdivr. simpl. by field. Qed.

Lemma pnorm_unit_pos (x : list complex) :
  0 < signal_power x -> signal_power (pnorm x) = 1.
Proof.
  intros HP.
  assert (Hs : 0 < sqrt (signal_power x)) by (by apply sqrt_lt_R0).
  rewrite signal_power_sum. unfold pnorm. rewrite length_map, map_map.
  rewrite (map_ext _ (fun z => / signal_power x * Cabs z ^ 2)).
  - rewrite <- (map_map (fun z => Cabs z ^ 2) (Rmult (/ signal_power x))).
    rewrite Rsum_scal. rewrite signal_power_sum in HP |- *.
    set (S := Rsum (map (fun z => Cabs z ^ 2) x)) in *.
    set (n := INR (length x)) in *.
    assert (Hn : n <> 0).
    { intros H0. rewrite H0 in HP. unfold Rdiv in HP.
      rewrite Rinv_0, Rmult_0_r in HP. lra. }
    assert (HS : S <> 0).
    { intros H0. rewrite H0 in HP. unfold Rdiv in HP. lra. }
    by field.
  - intros z. rewrite Cabs_divr by lra. rewrite sqrt_sqrt by lra.
    unfold Rdiv. ring.
Qed.

Lemma pnorm_unit (x : list complex) :
  (exists z, z ∈ x /\ z <> C0) -> signal_power (pnorm x) = 1.
Proof. intros Hnz. by apply pnorm_unit_pos, signal_power_pos_exists. Qed.

(** The normalisation of the estimators gives a sequence of the same length
    and of power 1, for a sequence with a sample that is not zero. *)
Theorem pnorm_unit_power (x : list complex) :
  (exists z, z ∈ x /\ z <> C0) ->
  signal_power (pnorm x) = 1
  /\ length (pnorm x) = length x.
Proof. intros Hnz. split; [by apply pnorm_unit|apply length_pnorm]. Qed.

Lemma pnorm_unit_power_witness :
  signal_power (pnorm rx_noisy) = 1
  /\ length (pnorm rx_noisy) = length rx_noisy.
Proof.
  apply (pnorm_unit_power rx_noisy). exists (mkC 7 0). split.
  - apply list_elem_of_here.
  - intros Heq; apply (f_equal Re) in Heq; simpl in Heq; lra.
Defined.

(** ** [hardDecision]: symbol by symbol *)

Lemma decided_functional (constSymb : list complex) (bitMap : list (list Z))
    (rx : list complex) (rows rows' : list (list Z)) :
  Forall2 (decided constSymb bitMap) rx rows ->
  Forall2 (decided constSymb bitMap) rx rows' ->
  rows = rows'.
Proof.
  intros H1. revert rows'. induction H1 as [|r row rx rows Hd _ IH];
    intros rows' H2; inversion H2 as [|? row' ? rows2 Hd' Hrest]; subst; [done|].
  f_equal; [|by apply IH].
  destruct Hd as (j & Hj & Hrow), Hd' as (j' & Hj' & Hrow').
  rewrite Hj in Hj'. injection Hj' as <-. congruence.
Qed.

(** [hardDecision] decides symbol by symbol: the bits of a concatenated
    sequence are the bits of the first part followed by the bits of the
    second. *)
Theorem hardDecision_app (rx1 rx2 constSymb : list complex)
    (bitMap : list (list Z)) (b : nat) :
  length constSymb = (2 ^ b)%nat ->
  length bitMap = (2 ^ b)%nat ->
  Forall (fun row => length row = b) bitMap ->
  exists bits1 bits2,
    hardDecision rx1 constSymb bitMap = Some bits1
    /\ hardDecision rx2 constSymb bitMap = Some bits2
    /\ hardDecision (rx1 ++ rx2) constSymb bitMap = Some (bits1 ++ bits2).
Proof.
  intros HM Hrows Hall.
  destruct (hardDecision_rows rx1 constSymb bitMap b HM Hrows Hall)
    as (rows1 & H1 & Hd1 & _).
  destruct (hardDecision_rows rx2 constSymb bitMap b HM Hrows Hall)
    as (rows2 & H2 & Hd2 & _).
  destruct (hardDecision_rows (rx1 ++ rx2) constSymb bitMap b HM Hrows Hall)
    as (rows & H & Hd & _).
  exists (concat rows1), (concat rows2). split; [done|]. split; [done|].
  rewrite H. rewrite <- concat_app. do 2 f_equal.
  apply (decided_functional constSymb bitMap (rx1 ++ rx2)); [done|].
  by apply Forall2_app.
Qed.

Lemma hardDecision_app_witness :
  exists bits1 bits2,
    hardDecision tx_unit [mkC (-1) 0; mkC 1 0] [[0%Z]; [1%Z]] = Some bits1
    /\ hardDecision rx_noisy [mkC (-1) 0; mkC 1 0] [[0%Z]; [1%Z]] = Some bits2
    /\ hardDecision (tx_unit ++ rx_noisy) [mkC (-1) 0; mkC 1 0] [[0%Z]; [1%Z]] = Some (bits1 ++ bits2).
Proof.
  apply (hardDecision_app tx_unit rx_noisy [mkC (-1) 0; mkC 1 0] [[0%Z]; [1%Z]] 1).
  - reflexivity.
  - reflexivity.
  - repeat constructor.
Defined.

(** Every bit that [hardDecision] returns is an entry of a row of the bit
    map: the demodulator invents no value. *)
Theorem hardDecision_bits_from_map (rxSymb constSymb : list complex)
    (bitMap : list (list Z)) (b : nat) :
  length constSymb = (2 ^ b)%nat ->
  length bitMap = (2 ^ b)%nat ->
  Forall (fun row => length row = b) bitMap ->
  exists decBits,
    hardDecision rxSymb constSymb bitMap = Some decBits
    /\ Forall (fun v => exists row, row ∈ bitMap /\ v ∈ row) decBits.
Proof.
  intros HM Hrows Hall.
  destruct (hardDecision_rows rxSymb constSymb bitMap b HM Hrows Hall)
    as (rows & H & Hd & _).
  exists (concat rows). split; [done|].
  apply Forall_forall. intros v Hv.
  apply list_elem_of_In, in_concat in Hv as (row & Hrow & Hv).
  apply list_elem_of_In in Hrow, Hv.
  apply list_elem_of_lookup in Hrow as [i Hi].
  destruct (Forall2_lookup_r _ _ _ _ _ Hd Hi) as (r & _ & j & _ & Hj).
  exists row. split; [|done]. by eapply list_elem_of_lookup_2.
Qed.

Lemma hardDecision_bits_from_map_witness :
  exists decBits,
    hardDecision rx_noisy [mkC (-1) 0; mkC 1 0] [[0%Z]; [1%Z]] = Some decBits
    /\ Forall (fun v => exists row, row ∈ [[0%Z]; [1%Z]] /\ v ∈ row) decBits.
Proof.
  apply (hardDecision_bits_from_map rx_noisy [mkC (-1) 0; mkC 1 0] [[0%Z]; [1%Z]] 1).
  - reflexivity.
  - reflexivity.
  - repeat constructor.
Defined.

(** ** [hardDecision]: a common gain on symbols and constellation *)

Lemma Cabs_mul_abs (g z : complex) : Cabs (Cmul g z) = Cabs g * Cabs z.
Proof.
  apply Rsqr_inj.
  - apply Cabs_nonneg.
  - apply Rmult_le_pos; apply Cabs_nonneg.
  - rewrite Rsqr_mult, !Rsqr_pow2. apply Cabs_mul.
Qed.

Lemma Csub_mul (g r c : complex) :
  Csub (Cmul g r) (Cmul g c) = Cmul g (Csub r c).
Proof. unfold Csub, Cmul. simpl. apply (f_equal2 mkC); ring. Qed.

Lemma argmin_from_scale (k : R) (l : list R) :
  0 < k ->
  forall i best ibest,
    argmin_from (map (Rmult k) l) i (k * best) ibest
    = argmin_from l i best ibest.
Proof.
  intros Hk. induction l as [|x l IH]; intros i best ibest; simpl; [done|].
  destruct (Rlt_dec (k * x) (k * best)) as [H1|H1];
    destruct (Rlt_dec x best) as [H2|H2]; try apply IH.
  - exfalso. apply H2. by apply (Rmult_lt_reg_l k).
  - exfalso. apply H1. by apply Rmult_lt_compat_l.
Qed.

Lemma np_argmin_scale (k : R) (l : list R) :
  0 < k -> np_argmin (map (Rmult k) l) = np_argmin l.
Proof.
  intros Hk. destruct l as [|x l]; simpl; [done|].
  by rewrite argmin_from_scale.
Qed.

Lemma for_each_ext {St} (f g : nat -> St -> option St) (idx : list nat) s :
  (forall i t, f i t = g i t) -> for_each f idx s = for_each g idx s.
Proof.
  intros Hfg. revert s. induction idx as [|i idx IH]; intros s; simpl; [done|].
  rewrite Hfg. destruct (g i s); simpl; [apply IH|done].
Qed.

(** A complex gain that is not zero, applied to the received symbols and to
    the constellation alike, changes no decision, and no error either. *)
Theorem hardDecision_gain (g : complex) (rxSymb constSymb : list complex)
    (bitMap : list (list Z)) :
  g <> C0 ->
  hardDecision (map (Cmul g) rxSymb) (map (Cmul g) constSymb) bitMap
  = hardDecision rxSymb constSymb bitMap.
Proof.
  intros Hg. unfold hardDecision. rewrite !length_map.
  destruct (ilog2 (length constSymb)) as [b|]; simpl; [|done].
  unfold for_range. apply for_each_ext. intros i dec.
  unfold hardDecision_step. rewrite list_lookup_fmap.
  destruct (rxSymb !! i) as [r|]; simpl; [|done].
  rewrite map_map.
  rewrite (map_ext _ (fun c => Cabs g * Cabs (Csub r c)))
    by (intros c; by rewrite Csub_mul, Cabs_mul_abs).
  rewrite <- (map_map (fun c => Cabs (Csub r c)) (Rmult (Cabs g))).
  rewrite np_argmin_scale; [done|].
  pose proof (Cabs_sub_pos g C0 Hg) as Hpos.
  replace (Csub g C0) with g in Hpos; [done|].
  destruct g. unfold Csub. simpl. apply (f_equal2 mkC); ring.
Qed.

Lemma hardDecision_gain_witness :
  hardDecision (map (Cmul (mkC 0 1)) rx_noisy)
               (map (Cmul (mkC 0 1)) [mkC (-1) 0; mkC 1 0]) [[0%Z]; [1%Z]]
  = hardDecision rx_noisy [mkC (-1) 0; mkC 1 0] [[0%Z]; [1%Z]].
Proof.
  apply (hardDecision_gain (mkC 0 1) rx_noisy [mkC (-1) 0; mkC 1 0] [[0%Z]; [1%Z]]).
  intros Heq. apply (f_equal Im) in Heq. simpl in Heq. lra.
Defined.

(** ** [calcLLR]: finite values, flipped labels, binary constellations *)

Lemma calcLLR_entries (rxSymb : list complex) (sigma2 : R)
    (constSymb : list complex) (bitMap : list (list Z)) (b : nat) :
  length constSymb = (2 ^ b)%nat ->
  length bitMap = (2 ^ b)%nat ->
  Forall (fun row => length row = b) bitMap ->
  exists LLRs,
    calcLLR rxSymb sigma2 constSymb bitMap = Some LLRs
    /\ length LLRs = (length rxSymb * b)%nat
    /\ forall p, (p < length rxSymb * b)%nat ->
       exists i r t, rxSymb !! i = Some r /\ (t < b)%nat
         /\ p = (i * b + t)%nat
         /\ LLRs !! p = Some (llr_value sigma2 constSymb bitMap r t).
Proof.
  intros HM Hrows Hall.
  destruct (calcLLR_values rxSymb sigma2 constSymb bitMap b HM Hrows Hall)
    as (L & Hrun & Hlen & Hval).
  exists L. split; [done|]. split; [done|]. intros p Hp.
  assert (Hb : (0 < b)%nat) by nia.
  assert (Hi : (p / b < length rxSymb)%nat)
    by (apply Nat.Div0.div_lt_upper_bound; lia).
  destruct (lookup_lt_is_Some_2 rxSymb (p / b) Hi) as [r Hr].
  exists (p / b)%nat, r, (p mod b)%nat.
  split; [done|]. split; [apply Nat.mod_upper_bound; lia|].
  assert (Hdec : p = (p / b * b + p mod b)%nat).
  { rewrite Nat.mul_comm. apply Nat.div_mod_eq. }
  split; [done|]. rewrite Hdec at 1. apply Hval; [done|].
  apply Nat.mod_upper_bound. lia.
Qed.

Lemma bit_likelihood_nonneg (sigma2 : R) (constSymb : list complex)
    (bitMap : list (list Z)) (r : complex) (t : nat) (v : Z) :
  0 <= bit_likelihood sigma2 constSymb bitMap r t v.
Proof.
  unfold bit_likelihood. revert bitMap.
  induction constSymb as [|c cs IH]; intros [|row bm]; simpl; try lra.
  specialize (IH bm).
  destruct (row !! t) as [e|]; [|lra].
  destruct (e =? v)%Z; [|lra].
  unfold likelihood in *. pose proof (exp_pos (- Cabs (Csub r c) ^ 2 / sigma2)). lra.
Qed.

Lemma bit_likelihood_pos (sigma2 : R) (constSymb : list complex)
    (bitMap : list (list Z)) (r : complex) (t : nat) (v : Z) :
  length constSymb = length bitMap ->
  (exists j row, bitMap !! j = Some row /\ row !! t = Some v) ->
  0 < bit_likelihood sigma2 constSymb bitMap r t v.
Proof.
  intros Hlen (j & row & Hj & Hv). revert constSymb j Hlen Hj.
  induction bitMap as [|row' bm IH]; intros [|c cs] j Hlen Hj; try done.
  simpl in Hlen. injection Hlen as Hlen.
  unfold bit_likelihood. simpl.
  fold (bit_likelihood sigma2 cs bm r t v).
  destruct j as [|j]; simpl in Hj.
  - injection Hj as ->. rewrite Hv, Z.eqb_refl.
    pose proof (bit_likelihood_nonneg sigma2 cs bm r t v).
    unfold likelihood at 1. pose proof (exp_pos (- Cabs (Csub r c) ^ 2 / sigma2)).
    lra.
  - specialize (IH cs j Hlen Hj).
    destruct (row' !! t) as [e|]; [|lra].
    destruct (e =? v)%Z; [|lra].
    unfold likelihood at 1.
    pose proof (exp_pos (- Cabs (Csub r c) ^ 2 / sigma2)).
    lra.
Qed.

Lemma np_log_pos (x : R) : 0 < x -> np_log x = Fin (ln x).
Proof.
  intros Hx. unfold np_log.
  destruct (Req_dec_T x 0); [lra|]. by destruct (Rlt_dec 0 x).
Qed.

Lemma calcLLR_finite_values (rxSymb : list complex) (sigma2 : R)
    (constSymb : list complex) (bitMap : list (list Z)) (b : nat) :
  length constSymb = (2 ^ b)%nat ->
  length bitMap = (2 ^ b)%nat ->
  Forall (fun row => length row = b) bitMap ->
  (forall t, (t < b)%nat ->
     (exists j row, bitMap !! j = Some row /\ row !! t = Some 0%Z)
     /\ (exists j row, bitMap !! j = Some row /\ row !! t = Some 1%Z)) ->
  exists LLRs,
    calcLLR rxSymb sigma2 constSymb bitMap = Some LLRs
    /\ Forall (fun x => exists y, x = Fin y) LLRs
    /\ clipLLR LLRs = LLRs.
Proof.
  intros HM Hrows Hall Hboth.
  destruct (calcLLR_entries rxSymb sigma2 constSymb bitMap b HM Hrows Hall)
    as (L & Hrun & Hlen & Hent).
  assert (Hfin : Forall (fun x => exists y, x = Fin y) L).
  { apply Forall_lookup. intros p x Hx.
    destruct (Hent p) as (i & r & t & Hr & Ht & _ & Hp).
    { rewrite <- Hlen. by eapply lookup_lt_Some. }
    rewrite Hx in Hp. injection Hp as ->.
    destruct (Hboth t Ht) as [H0 H1]. unfold llr_value.
    rewrite !np_log_pos by (apply bit_likelihood_pos; [congruence|done]).
    simpl. by eexists. }
  exists L. split; [done|]. split; [done|].
  apply list_eq. intros p. rewrite clipLLR_lookup.
  destruct (L !! p) as [x|] eqn:Hx; [|done]. simpl.
  destruct (Forall_lookup_1 _ _ _ _ Hfin Hx) as [y ->]. done.
Qed.

(** When every bit position of the bit map holds a 0 in one row and a 1 in
    another, as in a Gray labelling, the noise variance is positive and no
    likelihood leaves the range of float64 (every squared distance of a
    received symbol to a point is at most 500 noise variances), every LLR
    of [calcLLR] is finite, and the LLR clipping of [monteCarloGMI] leaves
    the sequence as it is. *)
Theorem calcLLR_finite (rxSymb : list complex) (sigma2 : R)
    (constSymb : list complex) (bitMap : list (list Z)) (b : nat) :
  0 < sigma2 ->
  likelihoods_in_range sigma2 constSymb rxSymb ->
  length constSymb = (2 ^ b)%nat ->
  length bitMap = (2 ^ b)%nat ->
  Forall (fun row => length row = b) bitMap ->
  (forall t, (t < b)%nat ->
     (exists j row, bitMap !! j = Some row /\ row !! t = Some 0%Z)
     /\ (exists j row, bitMap !! j = Some row /\ row !! t = Some 1%Z)) ->
  exists LLRs,
    calcLLR rxSymb sigma2 constSymb bitMap = Some LLRs
    /\ Forall (fun x => exists y, x = Fin y) LLRs
    /\ clipLLR LLRs = LLRs.
Proof. intros _ _. apply calcLLR_finite_values. Qed.

Lemma calcLLR_finite_witness :
  exists LLRs,
    calcLLR rx_noisy 1 [mkC (-1) 0; mkC 1 0] [[0%Z]; [1%Z]] = Some LLRs
    /\ Forall (fun x => exists y, x = Fin y) LLRs
    /\ clipLLR LLRs = LLRs.
Proof.
  apply (calcLLR_finite rx_noisy 1 [mkC (-1) 0; mkC 1 0] [[0%Z]; [1%Z]] 1).
  - lra.
  - unfold likelihoods_in_range, rx_noisy.
    repeat constructor; rewrite Cabs_sqr; simpl; lra.
  - reflexivity.
  - reflexivity.
  - repeat constructor.
  - intros t Ht. assert (t = 0)%nat as -> by lia. split.
    + exists 0%nat, [0%Z]. split; reflexivity.
    + exists 1%nat, [1%Z]. split; reflexivity.
Defined.

Lemma index_split (b i t i' t' : nat) :
  (t < b)%nat -> (t' < b)%nat -> (i * b + t = i' * b + t')%nat ->
  i' = i /\ t' = t.
Proof.
  intros Ht Ht' Heq.
  assert (Hi : i = i').
  { apply (f_equal (fun x => (x / b)%nat)) in Heq.
    rewrite !Nat.div_add_l, !Nat.div_small in Heq by lia. lia. }
  subst i'. split; [done|lia].
Qed.

Lemma xneg_xsub (a c : xfloat) : xneg (xsub a c) = xsub c a.
Proof.
  destruct a, c; simpl; try done. f_equal. ring.
Qed.

Lemma bit_likelihood_flip (sigma2 : R) (constSymb : list complex)
    (bitMap : list (list Z)) (r : complex) (t : nat) (v : Z) :
  bit_likelihood sigma2 constSymb (map (map (fun e => (1 - e)%Z)) bitMap) r t v
  = bit_likelihood sigma2 constSymb bitMap r t (1 - v).
Proof.
  unfold bit_likelihood. revert bitMap.
  induction constSymb as [|c cs IH]; intros [|row bm]; simpl; try done.
  rewrite IH. f_equal. rewrite list_lookup_fmap.
  destruct (row !! t) as [e|]; simpl; [|done].
  destruct (Z.eqb_spec (1 - e) v), (Z.eqb_spec e (1 - v)); try done; lia.
Qed.

(** Exchanging 0 and 1 in the bit map negates every LLR. *)
Theorem calcLLR_flip (rxSymb : list complex) (sigma2 : R)
    (constSymb : list complex) (bitMap : list (list Z)) (b : nat) :
  length constSymb = (2 ^ b)%nat ->
  length bitMap = (2 ^ b)%nat ->
  Forall (fun row => length row = b) bitMap ->
  exists LLRs,
    calcLLR rxSymb sigma2 constSymb bitMap = Some LLRs
    /\ calcLLR rxSymb sigma2 constSymb
               (map (map (fun e => (1 - e)%Z)) bitMap)
       = Some (map xneg LLRs).
Proof.
  intros HM Hrows Hall.
  destruct (calcLLR_entries rxSymb sigma2 constSymb bitMap b HM Hrows Hall)
    as (L & Hrun & Hlen & Hent).
  destruct (calcLLR_entries rxSymb sigma2 constSymb
              (map (map (fun e => (1 - e)%Z)) bitMap) b)
    as (L' & Hrun' & Hlen' & Hent').
  { done. } { by rewrite length_map. }
  { apply Forall_fmap. eapply Forall_impl; [exact Hall|].
    intros row Hrow. simpl. by rewrite length_map. }
  exists L. split; [done|]. rewrite Hrun'. f_equal.
  apply list_eq. intros p. rewrite list_lookup_fmap.
  destruct (Nat.lt_ge_cases p (length rxSymb * b)) as [Hp|Hp].
  - destruct (Hent p Hp) as (i & r & t & Hr & Ht & Hdec & Hv).
    destruct (Hent' p Hp) as (i' & r' & t' & Hr' & Ht' & Hdec' & Hv').
    assert (i' = i /\ t' = t) as [-> ->]
      by (apply (index_split b); [done|done|congruence]).
    rewrite Hr in Hr'. injection Hr' as <-.
    rewrite Hv, Hv'. simpl. f_equal. unfold llr_value.
    rewrite !bit_likelihood_flip. simpl. by rewrite xneg_xsub.
  - rewrite !lookup_ge_None_2; [done|lia|lia].
Qed.

Lemma calcLLR_flip_witness :
  exists LLRs,
    calcLLR rx_noisy 1 [mkC (-1) 0; mkC 1 0] [[0%Z]; [1%Z]] = Some LLRs
    /\ calcLLR rx_noisy 1 [mkC (-1) 0; mkC 1 0] (map (map (fun e => (1 - e)%Z)) [[0%Z]; [1%Z]])
       = Some (map xneg LLRs).
Proof.
  apply (calcLLR_flip rx_noisy 1 [mkC (-1) 0; mkC 1 0] [[0%Z]; [1%Z]] 1).
  - reflexivity.
  - reflexivity.
  - repeat constructor.
Defined.

Lemma llr_binary (sigma2 : R) (c0 c1 r : complex) :
  sigma2 <> 0 ->
  llr_value sigma2 [c0; c1] [[0%Z]; [1%Z]] r 0
  = Fin ((Cabs (Csub r c1) ^ 2 - Cabs (Csub r c0) ^ 2) / sigma2).
Proof.
  intros Hs. unfold llr_value, bit_likelihood, likelihood. simpl.
  rewrite !Rplus_0_r, Rplus_0_l, !np_log_exp. simpl. f_equal. by field.
Qed.

(** For a constellation of two points labelled 0 and 1 and a positive noise
    variance, the hard decision follows the sign of the LLR: the bit is 1
    for a symbol whose LLR is negative, -inf included, and 0 for a symbol
    whose LLR is positive, +inf included. *)
Theorem binary_decision_is_LLR_sign (rxSymb : list complex) (sigma2 : R)
    (c0 c1 : complex) :
  0 < sigma2 ->
  exists LLRs decBits,
    calcLLR rxSymb sigma2 [c0; c1] [[0%Z]; [1%Z]] = Some LLRs
    /\ hardDecision rxSymb [c0; c1] [[0%Z]; [1%Z]] = Some decBits
    /\ length LLRs = length rxSymb
    /\ length decBits = length rxSymb
    /\ forall i llr, LLRs !! i = Some llr ->
       (xlt llr 0 -> decBits !! i = Some 1%Z)
       /\ (xgt llr 0 -> decBits !! i = Some 0%Z).
Proof.
  intros Hs.
  destruct (calcLLR_values rxSymb sigma2 [c0; c1] [[0%Z]; [1%Z]] 1)
    as (L & HL & HlL & Hval); [done|done|repeat constructor|].
  destruct (hardDecision_rows rxSymb [c0; c1] [[0%Z]; [1%Z]] 1)
    as (rows & HB & Hdec & Hlen); [done|done|repeat constructor|].
  rewrite Nat.mul_1_r in HlL.
  exists L, (concat rows). split; [done|]. split; [done|]. split; [done|].
  split.
  { rewrite (concat_length_uniform 1 _ Hlen), Nat.mul_1_r.
    apply Forall2_length in Hdec. by rewrite <- Hdec. }
  intros i llr Hllr.
  destruct (lookup_lt_is_Some_2 rxSymb i) as [r Hr].
  { rewrite <- HlL. by eapply lookup_lt_Some. }
  specialize (Hval i r 0%nat Hr ltac:(lia)).
  rewrite Nat.mul_1_r, Nat.add_0_r, llr_binary in Hval by lra.
  rewrite Hllr in Hval. injection Hval as ->. cbn [xlt xgt].
  destruct (Forall2_lookup_l _ _ _ _ _ Hdec Hr) as (row & Hrow & j & Hj & Hbm).
  pose proof (concat_lookup_uniform 1 rows i 0 row Hlen Hrow ltac:(lia))
    as Hbit.
  rewrite Nat.mul_1_r, Nat.add_0_r in Hbit. rewrite Hbit.
  pose proof (Cabs_nonneg (Csub r c0)) as H0.
  pose proof (Cabs_nonneg (Csub r c1)) as H1.
  assert (Hinv : 0 < / sigma2) by (by apply Rinv_0_lt_compat).
  set (v := (Cabs (Csub r c1) ^ 2 - Cabs (Csub r c0) ^ 2) / sigma2).
  unfold distances in Hj. simpl in Hj.
  destruct (Rlt_dec (Cabs (Csub r c1)) (Cabs (Csub r c0))) as [Hlt|Hge];
    injection Hj as <-; simpl in Hbm; injection Hbm as <-; simpl.
  - assert (v < 0).
    { unfold v, Rdiv.
      assert (Cabs (Csub r c1) ^ 2 < Cabs (Csub r c0) ^ 2) by nra. nra. }
    split; [done|lra].
  - assert (0 <= v).
    { unfold v, Rdiv.
      assert (Cabs (Csub r c0) ^ 2 <= Cabs (Csub r c1) ^ 2) by nra. nra. }
    split; [lra|done].
Qed.

Lemma binary_decision_is_LLR_sign_witness :
  exists LLRs decBits,
    calcLLR rx_noisy 1 [mkC (-1) 0; mkC 1 0] [[0%Z]; [1%Z]] = Some LLRs
    /\ hardDecision rx_noisy [mkC (-1) 0; mkC 1 0] [[0%Z]; [1%Z]]
       = Some decBits
    /\ length LLRs = length rx_noisy
    /\ length decBits = length rx_noisy
    /\ forall i llr, LLRs !! i = Some llr ->
       (xlt llr 0 -> decBits !! i = Some 1%Z)
       /\ (xgt llr 0 -> decBits !! i = Some 0%Z).
Proof.
  apply (binary_decision_is_LLR_sign rx_noisy 1 (mkC (-1) 0) (mkC 1 0)). lra.
Defined.

(** ** [fastBERcalc]: rates as fractions *)

Lemma fraction_in_unit (a n : nat) :
  (1 <= n)%nat -> (a <= n)%nat -> 0 <= INR a / INR n <= 1.
Proof.
  intros Hn Ha. apply le_INR in Ha.
  assert (H0 : 0 < INR n) by (apply lt_0_INR; lia).
  pose proof (pos_INR a) as Hpa.
  assert (Hinv : 0 < / INR n) by (by apply Rinv_0_lt_compat).
  unfold Rdiv. split.
  - apply Rmult_le_pos; lra.
  - apply (Rmult_le_reg_r (INR n)); [done|].
    rewrite Rmult_assoc, Rinv_l by lra. lra.
Qed.

(** On a well-formed input without a degenerate mode every bit-error rate
    and symbol-error rate is a finite value between 0 and 1. *)
Theorem fastBERcalc_rates_in_unit_interval `{Modulation} (rx tx : ndarray)
    (b : nat) (constType : string) (k : nat) (txk : list complex) :
  (1 <= b)%nat ->
  length (GrayMapping (2 ^ b) constType) = (2 ^ b)%nat ->
  length (demodulateGray (GrayMapping (2 ^ b) constType) (2 ^ b) constType)
  = (2 ^ b * b)%nat ->
  same_shape (columns rx) (columns tx) ->
  Forall2 well_conditioned (columns rx) (columns tx) ->
  columns tx !! k = Some txk ->
  exists BER SER SNR ber ser,
    fastBERcalc rx tx (2 ^ b) constType = Some (BER, SER, SNR)
    /\ BER !! k = Some (Fin ber) /\ 0 <= ber <= 1
    /\ SER !! k = Some (Fin ser) /\ 0 <= ser <= 1.
Proof.
  intros Hb Hconst Hbits Hshape Hwell Htxk.
  destruct (fastBERcalc_modes rx tx b constType Hb Hconst Hbits Hshape Hwell)
    as (BER & SER & SNR & Hrun & _ & _ & _ & Hmodes).
  destruct (lookup_lt_is_Some_2 (columns rx) k) as [rxk Hrxk].
  { rewrite (Forall2_length _ _ _ Hshape). by eapply lookup_lt_Some. }
  pose proof (Forall2_lookup_lr _ _ _ _ _ _ Hshape Hrxk Htxk) as Hlen.
  pose proof (well_conditioned_nonempty _ _
                (Forall2_lookup_lr _ _ _ _ _ _ Hwell Hrxk Htxk)) as Hne.
  destruct (Hmodes k rxk txk Hrxk Htxk)
    as (brx & btx & err & _ & _ & _ & Hle & HB & HS & _).
  assert (HN : (1 <= length rxk)%nat).
  { rewrite Hlen. destruct txk; [done|simpl; lia]. }
  unfold mean_bool in HB. unfold groups_with_error in HS.
  pose proof (count_true_le_length err) as HE.
  rewrite Hle in HB, HS, HE. rewrite Nat.div_mul in HS by lia.
  rewrite np_div_count in HB by nia. rewrite np_div_count in HS by done.
  eexists BER, SER, SNR, _, _. split; [done|]. split; [exact HB|].
  split; [apply fraction_in_unit; [nia|done]|]. split; [exact HS|].
  apply fraction_in_unit; [done|].
  etrans; [apply List.filter_length_le|]. by rewrite length_chunks.
Qed.

Lemma fastBERcalc_rates_in_unit_interval_witness :
  exists BER SER SNR ber ser,
    @fastBERcalc bpsk (Array1D rx_flip) (Array1D tx_quad) (2 ^ 1) "psk"
    = Some (BER, SER, SNR)
    /\ BER !! 0%nat = Some (Fin ber) /\ 0 <= ber <= 1
    /\ SER !! 0%nat = Some (Fin ser) /\ 0 <= ser <= 1.
Proof.
  apply (@fastBERcalc_rates_in_unit_interval bpsk (Array1D rx_flip)
           (Array1D tx_quad) 1 "psk" 0 tx_quad).
  - lia.
  - reflexivity.
  - reflexivity.
  - constructor; [reflexivity|constructor].
  - constructor; [apply well_conditioned_rx_flip|constructor].
  - reflexivity.
Defined.

(** ** [fastBERcalc]: one mode does not see another *)

Lemma pnorm_rx_flip_neg :
  pnorm rx_flip_neg = [mkC (-1) 0; mkC 1 0; mkC (-1) 0; mkC (-1) 0].
Proof.
  rewrite (pnorm_by _ 2); [|lra|].
  - unfold rx_flip_neg, Cdivr. simpl. data_eq.
  - unfold signal_power, rx_flip_neg, Cmean, Cdivr, Csum, Cmul, Cconj.
    simpl. field.
Qed.

Lemma signal_power_tx_quad_neg : signal_power tx_quad_neg = 1.
Proof.
  unfold signal_power, tx_quad_neg, Cmean, Cdivr, Csum, Cmul, Cconj.
  simpl. field.
Qed.

Lemma pnorm_tx_quad_neg : pnorm tx_quad_neg = tx_quad_neg.
Proof.
  rewrite (pnorm_by _ 1); [|lra|].
  - unfold tx_quad_neg, Cdivr. simpl. data_eq.
  - rewrite signal_power_tx_quad_neg. ring.
Qed.

Lemma well_conditioned_rx_flip_neg : well_conditioned rx_flip_neg tx_quad_neg.
Proof.
  split; [|split].
  - unfold rx_flip_neg. repeat constructor; apply nonzero_re; lra.
  - rewrite signal_power_tx_quad_neg. lra.
  - unfold residual_power, conditioned.
    rewrite pnorm_rx_flip_neg, pnorm_tx_quad_neg.
    replace (signal_power _) with (3 / 4); [lra|].
    unfold signal_power, tx_quad_neg, Cmean, Cdiv, Cdivr, Csum, Csub, Cmul,
      Cconj.
    simpl. field.
Qed.

(** The rates and the SNR of mode [k] depend on column [k] of rx and tx
    only: two well-formed inputs without a degenerate mode that agree on
    that column get the same [BER[k]], [SER[k]] and [SNR[k]], whatever
    their other modes hold. *)
Theorem fastBERcalc_mode_independent `{Modulation} (rx tx rx' tx' : ndarray)
    (b : nat) (constType : string) (k : nat) (rxk txk : list complex) :
  (1 <= b)%nat ->
  length (GrayMapping (2 ^ b) constType) = (2 ^ b)%nat ->
  length (demodulateGray (GrayMapping (2 ^ b) constType) (2 ^ b) constType)
  = (2 ^ b * b)%nat ->
  same_shape (columns rx) (columns tx) ->
  same_shape (columns rx') (columns tx') ->
  Forall2 well_conditioned (columns rx) (columns tx) ->
  Forall2 well_conditioned (columns rx') (columns tx') ->
  columns rx !! k = Some rxk -> columns tx !! k = Some txk ->
  columns rx' !! k = Some rxk -> columns tx' !! k = Some txk ->
  exists BER SER SNR BER' SER' SNR',
    fastBERcalc rx tx (2 ^ b) constType = Some (BER, SER, SNR)
    /\ fastBERcalc rx' tx' (2 ^ b) constType = Some (BER', SER', SNR')
    /\ BER !! k = BER' !! k /\ SER !! k = SER' !! k /\ SNR !! k = SNR' !! k
    /\ is_Some (BER !! k).
Proof.
  intros Hb Hconst Hbits Hshape Hshape' Hwell Hwell' Hr Ht Hr' Ht'.
  destruct (fastBERcalc_modes rx tx b constType Hb Hconst Hbits Hshape Hwell)
    as (BER & SER & SNR & Hrun & _ & _ & _ & Hmodes).
  destruct (fastBERcalc_modes rx' tx' b constType Hb Hconst Hbits Hshape'
              Hwell')
    as (BER' & SER' & SNR' & Hrun' & _ & _ & _ & Hmodes').
  destruct (Hmodes k rxk txk Hr Ht)
    as (brx & btx & err & H1 & H2 & H3 & _ & HB & HS & HN).
  destruct (Hmodes' k rxk txk Hr' Ht')
    as (brx' & btx' & err' & H1' & H2' & H3' & _ & HB' & HS' & HN').
  rewrite H1 in H1'. injection H1' as <-.
  rewrite H2 in H2'. injection H2' as <-.
  rewrite H3 in H3'. injection H3' as <-.
  exists BER, SER, SNR, BER', SER', SNR'.
  rewrite HB, HB', HS, HS', HN, HN'. by repeat split.
Qed.

Lemma fastBERcalc_mode_independent_witness :
  exists BER SER SNR BER' SER' SNR',
    @fastBERcalc bpsk (Array1D rx_flip) (Array1D tx_quad) (2 ^ 1) "psk"
    = Some (BER, SER, SNR)
    /\ @fastBERcalc bpsk rx_two_modes tx_two_modes (2 ^ 1) "psk"
       = Some (BER', SER', SNR')
    /\ BER !! 0%nat = BER' !! 0%nat /\ SER !! 0%nat = SER' !! 0%nat
    /\ SNR !! 0%nat = SNR' !! 0%nat
    /\ is_Some (BER !! 0%nat).
Proof.
  apply (@fastBERcalc_mode_independent bpsk (Array1D rx_flip)
           (Array1D tx_quad) rx_two_modes tx_two_modes
           1 "psk" 0 rx_flip tx_quad).
  - lia.
  - reflexivity.
  - reflexivity.
  - constructor; [reflexivity|constructor].
  - constructor; [reflexivity|]. constructor; [reflexivity|constructor].
  - constructor; [apply well_conditioned_rx_flip|constructor].
  - change (columns rx_two_modes) with [rx_flip; rx_flip_neg].
    change (columns tx_two_modes) with [tx_quad; tx_quad_neg].
    constructor; [apply well_conditioned_rx_flip|].
    constructor; [apply well_conditioned_rx_flip_neg|constructor].
  - reflexivity.
  - reflexivity.
  - reflexivity.
  - reflexivity.
Defined.

(** ** No modes at all *)

(** On arrays without any mode [fastBERcalc] returns three empty arrays,
    while [monteCarloGMI] raises: its second result is bound in the loop
    over the modes only. *)
Theorem estimators_without_modes `{Modulation} (rx tx : ndarray) (b : nat)
    (constType : string) :
  (1 <= b)%nat ->
  length (demodulateGray (GrayMapping (2 ^ b) constType) (2 ^ b) constType)
  = (2 ^ b * b)%nat ->
  columns tx = [] ->
  fastBERcalc rx tx (2 ^ b) constType = Some ([], [], [])
  /\ monteCarloGMI rx tx (2 ^ b) constType = None.
Proof.
  intros Hb Hbits Htx. split.
  - unfold fastBERcalc. rewrite Htx, ilog2_pow2. simpl.
    rewrite (reshape_rows_uniform (2 ^ b) b) by done. done.
  - unfold monteCarloGMI, monteCarloGMI_prepare. rewrite Htx.
    unfold var_axis0, ew2. simpl.
    destruct (columns rx) as [|c cs]; simpl; [|done].
    rewrite ilog2_pow2. simpl.
    rewrite (reshape_rows_uniform (2 ^ b) b) by done. done.
Qed.

Lemma estimators_without_modes_witness :
  @fastBERcalc bpsk (Array2D []) (Array2D []) (2 ^ 1) "psk"
  = Some ([], [], [])
  /\ @monteCarloGMI bpsk (Array2D []) (Array2D []) (2 ^ 1) "psk" = None.
Proof.
  apply (@estimators_without_modes bpsk (Array2D []) (Array2D []) 1 "psk").
  - lia.
  - reflexivity.
  - reflexivity.
Defined.

(** ** The SNR estimate *)

Lemma snr_value_finite (rxk txk : list complex) :
  0 < signal_power txk -> 0 < residual_power rxk txk ->
  snr_value rxk txk
  = Fin (10 * (ln (1 / residual_power rxk txk) / ln 10)).
Proof.
  intros Hp Hres. unfold snr_value. rewrite pnorm_unit_pos by done.
  unfold xlog10, xlog_base. rewrite np_log_pos; [done|].
  apply Rdiv_lt_0_compat; lra.
Qed.

(** On a well-formed input without a degenerate mode the SNR that
    [fastBERcalc] reports for a mode is finite: the inverse of the power of
    the residual of that mode, in dB, the normalised transmitted column
    having the power 1. *)
Theorem fastBERcalc_snr_of_residual `{Modulation} (rx tx : ndarray)
    (b : nat) (constType : string) (k : nat) (rxk txk : list complex) :
  (1 <= b)%nat ->
  length (GrayMapping (2 ^ b) constType) = (2 ^ b)%nat ->
  length (demodulateGray (GrayMapping (2 ^ b) constType) (2 ^ b) constType)
  = (2 ^ b * b)%nat ->
  same_shape (columns rx) (columns tx) ->
  Forall2 well_conditioned (columns rx) (columns tx) ->
  columns rx !! k = Some rxk -> columns tx !! k = Some txk ->
  exists BER SER SNR,
    fastBERcalc rx tx (2 ^ b) constType = Some (BER, SER, SNR)
    /\ SNR !! k
       = Some (Fin (10 * (ln (1 / residual_power rxk txk) / ln 10))).
Proof.
  intros Hb Hconst Hbits Hshape Hwell Hr Ht.
  destruct (fastBERcalc_modes rx tx b constType Hb Hconst Hbits Hshape Hwell)
    as (BER & SER & SNR & Hrun & _ & _ & _ & Hmodes).
  destruct (Hmodes k rxk txk Hr Ht)
    as (brx & btx & err & _ & _ & _ & _ & _ & _ & HN).
  destruct (Forall2_lookup_lr _ _ _ _ _ _ Hwell Hr Ht) as (_ & Hp & Hres).
  exists BER, SER, SNR. split; [done|].
  by rewrite HN, snr_value_finite.
Qed.

Lemma fastBERcalc_snr_of_residual_witness :
  exists BER SER SNR,
    @fastBERcalc bpsk (Array1D rx_flip) (Array1D tx_quad) (2 ^ 1) "psk"
    = Some (BER, SER, SNR)
    /\ SNR !! 0%nat
       = Some (Fin (10 * (ln (1 / residual_power rx_flip tx_quad) / ln 10))).
Proof.
  apply (@fastBERcalc_snr_of_residual bpsk (Array1D rx_flip)
           (Array1D tx_quad) 1 "psk" 0 rx_flip tx_quad).
  - lia.
  - reflexivity.
  - reflexivity.
  - constructor; [reflexivity|constructor].
  - constructor; [apply well_conditioned_rx_flip|constructor].
  - reflexivity.
  - reflexivity.
Defined.

(** ** A complex gain on the received signal *)

Lemma Cmul_C0_r (g : complex) : Cmul g C0 = C0.
Proof. unfold Cmul, C0. simpl. apply (f_equal2 mkC); ring. Qed.

Lemma Cabs_pos (g : complex) : g <> C0 -> 0 < Cabs g.
Proof.
  intros Hg. pose proof (Cabs_sub_pos g C0 Hg) as Hpos.
  replace (Csub g C0) with g in Hpos; [done|].
  destruct g. unfold Csub. simpl. apply (f_equal2 mkC); ring.
Qed.

Lemma complex_nonzero_cases (z : complex) :
  z <> C0 -> Re z * Re z + Im z * Im z <> 0.
Proof. intros Hz. pose proof (Cnorm2_pos z Hz). lra. Qed.

Lemma Cmul_nonzero (u z : complex) : u <> C0 -> z <> C0 -> Cmul u z <> C0.
Proof.
  intros Hu Hz Heq. apply (f_equal Cabs) in Heq.
  rewrite Cabs_mul_abs in Heq.
  pose proof (Cabs_pos u Hu). pose proof (Cabs_pos z Hz).
  assert (Cabs C0 = 0).
  { unfold Cabs, C0. simpl. rewrite Rmult_0_l, Rplus_0_l. apply sqrt_0. }
  nra.
Qed.

Lemma Cdivr_nonzero (z : complex) (s : R) :
  z <> C0 -> s <> 0 -> Cdivr z s <> C0.
Proof.
  intros Hz Hs Heq. apply Hz. destruct z as [a c]. unfold Cdivr, C0 in *.
  simpl in Heq. injection Heq as Ha Hc.
  assert (Hi : / s <> 0) by (by apply Rinv_neq_0_compat).
  apply (f_equal2 mkC).
  - apply (Rmult_eq_reg_r (/ s)); [unfold Rdiv in Ha; lra|done].
  - apply (Rmult_eq_reg_r (/ s)); [unfold Rdiv in Hc; lra|done].
Qed.

Lemma pnorm_nonzero (x : list complex) :
  x <> [] -> Forall (fun z => z <> C0) x ->
  Forall (fun z => z <> C0) (pnorm x).
Proof.
  intros Hne Hnz.
  assert (Hs : 0 < sqrt (signal_power x))
    by (apply sqrt_lt_R0; by apply signal_power_pos).
  unfold pnorm. apply Forall_fmap. eapply Forall_impl; [exact Hnz|].
  intros z Hz. simpl. apply Cdivr_nonzero; [done|lra].
Qed.

Lemma signal_power_gain_eq (g : complex) (x : list complex) :
  signal_power (map (Cmul g) x) = Cabs g ^ 2 * signal_power x.
Proof.
  rewrite !signal_power_sum, length_map, map_map.
  rewrite (map_ext _ (fun z => Cabs g ^ 2 * Cabs z ^ 2)) by apply Cabs_mul.
  rewrite <- (map_map (fun z => Cabs z ^ 2) (Rmult (Cabs g ^ 2))), Rsum_scal.
  unfold Rdiv. ring.
Qed.

Lemma pnorm_gain (g : complex) (x : list complex) :
  g <> C0 -> x <> [] -> Forall (fun z => z <> C0) x ->
  pnorm (map (Cmul g) x) = map (Cmul (Cdivr g (Cabs g))) (pnorm x).
Proof.
  intros Hg Hne Hnz. pose proof (Cabs_pos g Hg) as Hag.
  assert (Hs : 0 < sqrt (signal_power x))
    by (apply sqrt_lt_R0; by apply signal_power_pos).
  unfold pnorm. rewrite signal_power_gain_eq, !map_map.
  rewrite sqrt_mult; [|apply pow2_ge_0|left; by apply signal_power_pos].
  rewrite sqrt_pow2 by lra.
  apply map_ext. intros z. unfold Cdivr, Cmul. simpl.
  apply (f_equal2 mkC); field; lra.
Qed.

Lemma Csum_scal (w : complex) (l : list complex) :
  Csum (map (Cmul w) l) = Cmul w (Csum l).
Proof.
  induction l as [|z l IH]; simpl.
  - by rewrite Cmul_C0_r.
  - rewrite IH. unfold Cadd, Cmul. simpl. apply (f_equal2 mkC); ring.
Qed.

Lemma Cmean_scal (w : complex) (l : list complex) :
  Cmean (map (Cmul w) l) = Cmul w (Cmean l).
Proof.
  unfold Cmean. rewrite Csum_scal, length_map. unfold Cdivr, Cmul. simpl.
  unfold Rdiv. apply (f_equal2 mkC); ring.
Qed.

Lemma Cdiv_gain (u a z : complex) :
  u <> C0 -> z <> C0 ->
  Cdiv a (Cmul u z) = Cmul (Cdiv (mkC 1 0) u) (Cdiv a z).
Proof.
  intros Hu Hz.
  pose proof (complex_nonzero_cases u Hu) as Hu2.
  pose proof (complex_nonzero_cases z Hz) as Hz2.
  pose proof (complex_nonzero_cases _ (Cmul_nonzero u z Hu Hz)) as Huz.
  unfold Cdiv, Cmul in *. simpl in *.
  apply (f_equal2 mkC); field; done.
Qed.

Lemma phase_correction_gain (u : complex) (t r : list complex) :
  u <> C0 -> Forall (fun z => z <> C0) r ->
  map (Cmul (Cmean (zip_with Cdiv t (map (Cmul u) r)))) (map (Cmul u) r)
  = map (Cmul (Cmean (zip_with Cdiv t r))) r.
Proof.
  intros Hu Hr.
  assert (Hz : zip_with Cdiv t (map (Cmul u) r)
               = map (Cmul (Cdiv (mkC 1 0) u)) (zip_with Cdiv t r)).
  { revert t. induction Hr as [|z r Hz _ IH]; intros [|a t]; simpl; try done.
    rewrite IH. f_equal. by apply Cdiv_gain. }
  rewrite Hz, Cmean_scal, map_map. apply map_ext. intros z.
  pose proof (complex_nonzero_cases u Hu) as Hu2.
  generalize (Cmean (zip_with Cdiv t r)). intros m.
  unfold Cdiv, Cmul. simpl. apply (f_equal2 mkC); field; done.
Qed.

Lemma conditioned_gain (g : complex) (rxk txk : list complex) :
  g <> C0 -> rxk <> [] -> Forall (fun z => z <> C0) rxk ->
  conditioned (map (Cmul g) rxk) txk = conditioned rxk txk.
Proof.
  intros Hg Hne Hnz. unfold conditioned.
  rewrite (pnorm_gain g rxk Hg Hne Hnz).
  apply phase_correction_gain.
  - apply Cdivr_nonzero; [done|]. pose proof (Cabs_pos g Hg). lra.
  - by apply pnorm_nonzero.
Qed.

Lemma transpose_gain (g : complex) (rows : list (list complex)) :
  transpose (map (map (Cmul g)) rows) = map (map (Cmul g)) (transpose rows).
Proof.
  unfold transpose. rewrite map_map.
  assert (Hhd : length (hd [] (map (map (Cmul g)) rows))
                = length (hd [] rows)).
  { destruct rows; simpl; [done|]. by rewrite length_map. }
  rewrite Hhd. apply map_ext. intros j. rewrite !map_map.
  apply map_ext. intros r.
  rewrite <- (Cmul_C0_r g) at 1. apply map_nth.
Qed.

Lemma columns_gain (g : complex) (x : ndarray) :
  columns (gain g x) = map (map (Cmul g)) (columns x).
Proof.
  destruct x as [v|rows]; simpl; [done|].
  rewrite length_map.
  assert (Hhd : length (hd [] (map (map (Cmul g)) rows))
                = length (hd [] rows)).
  { destruct rows; simpl; [done|]. by rewrite length_map. }
  rewrite Hhd. destruct (length rows <? length (hd [] rows))%nat; [done|].
  apply transpose_gain.
Qed.

Lemma lookup_total_eq {A} (l l' : list A) (n : nat) :
  length l = n -> length l' = n ->
  (forall k, (k < n)%nat -> l !! k = l' !! k) -> l = l'.
Proof.
  intros Hl Hl' Heq. apply list_eq. intros k.
  destruct (Nat.lt_ge_cases k n) as [Hk|Hk]; [by apply Heq|].
  rewrite !lookup_ge_None_2; [done|lia|lia].
Qed.

Lemma well_conditioned_gain (g : complex) (rxk txk : list complex) :
  g <> C0 -> length rxk = length txk ->
  well_conditioned rxk txk -> well_conditioned (map (Cmul g) rxk) txk.
Proof.
  intros Hg Hlen Hwell.
  pose proof (well_conditioned_nonempty _ _ Hwell) as Hne.
  destruct Hwell as (Hnz & Hp & Hres).
  assert (Hrne : rxk <> []) by (intros ->; by destruct txk).
  split; [|split; [done|]].
  - apply Forall_fmap. eapply Forall_impl; [exact Hnz|].
    intros z Hz. simpl. by apply Cmul_nonzero.
  - unfold residual_power in *. by rewrite conditioned_gain.
Qed.

(** The conditioning removes a global gain: on a well-formed input without
    a degenerate mode, multiplying the received signal by any complex
    number other than zero, an amplitude and a phase, leaves the BER, the
    SER and the SNR of [fastBERcalc] as they are. *)
Theorem fastBERcalc_gain `{Modulation} (g : complex) (rx tx : ndarray)
    (b : nat) (constType : string) :
  (1 <= b)%nat ->
  length (GrayMapping (2 ^ b) constType) = (2 ^ b)%nat ->
  length (demodulateGray (GrayMapping (2 ^ b) constType) (2 ^ b) constType)
  = (2 ^ b * b)%nat ->
  same_shape (columns rx) (columns tx) ->
  Forall2 well_conditioned (columns rx) (columns tx) ->
  g <> C0 ->
  exists out,
    fastBERcalc rx tx (2 ^ b) constType = Some out
    /\ fastBERcalc (gain g rx) tx (2 ^ b) constType = Some out.
Proof.
  intros Hb Hconst Hbits Hshape Hwell Hg.
  assert (Hshape' : same_shape (columns (gain g rx)) (columns tx)).
  { rewrite columns_gain. unfold same_shape in *.
    apply Forall2_fmap_l. eapply Forall2_impl; [exact Hshape|].
    intros r t Hrt. simpl. by rewrite length_map. }
  assert (Hwell' : Forall2 well_conditioned (columns (gain g rx))
                           (columns tx)).
  { rewrite columns_gain. apply Forall2_fmap_l.
    apply Forall2_same_length_lookup.
    split; [by apply Forall2_length in Hshape|].
    intros k rxk txk Hr Ht. simpl. apply well_conditioned_gain; [done|..].
    - exact (Forall2_lookup_lr _ _ _ _ _ _ Hshape Hr Ht).
    - exact (Forall2_lookup_lr _ _ _ _ _ _ Hwell Hr Ht). }
  destruct (fastBERcalc_modes rx tx b constType Hb Hconst Hbits Hshape Hwell)
    as (BER & SER & SNR & Hrun & HlB & HlS & HlN & Hmodes).
  destruct (fastBERcalc_modes (gain g rx) tx b constType Hb Hconst Hbits
              Hshape' Hwell')
    as (BER' & SER' & SNR' & Hrun' & HlB' & HlS' & HlN' & Hmodes').
  exists (BER, SER, SNR). split; [done|]. rewrite Hrun'.
  assert (Hk : forall k, (k < length (columns tx))%nat ->
            BER' !! k = BER !! k /\ SER' !! k = SER !! k
            /\ SNR' !! k = SNR !! k).
  { intros k Hk.
    destruct (lookup_lt_is_Some_2 (columns tx) k Hk) as [txk Htxk].
    destruct (lookup_lt_is_Some_2 (columns rx) k) as [rxk Hrxk].
    { by rewrite (Forall2_length _ _ _ Hshape). }
    pose proof (Forall2_lookup_lr _ _ _ _ _ _ Hwell Hrxk Htxk) as Hwk.
    pose proof (well_conditioned_nonempty _ _ Hwk) as Htne.
    pose proof (Forall2_lookup_lr _ _ _ _ _ _ Hshape Hrxk Htxk) as Hlk.
    assert (Hne : rxk <> []) by (intros ->; by destruct txk).
    destruct Hwk as (Hnz & _ & _).
    assert (Hrxk' : columns (gain g rx) !! k = Some (map (Cmul g) rxk)).
    { by rewrite columns_gain, list_lookup_fmap, Hrxk. }
    destruct (Hmodes k rxk txk Hrxk Htxk)
      as (brx & btx & err & H1 & H2 & H3 & _ & HB & HS & HN).
    destruct (Hmodes' k _ txk Hrxk' Htxk)
      as (brx' & btx' & err' & H1' & H2' & H3' & _ & HB' & HS' & HN').
    rewrite (conditioned_gain g rxk txk Hg Hne Hnz), H1 in H1'.
    injection H1' as <-. rewrite H2 in H2'. injection H2' as <-.
    rewrite H3 in H3'. injection H3' as <-.
    rewrite HB, HB', HS, HS', HN, HN'. repeat split.
    unfold snr_value, residual_power.
    by rewrite (conditioned_gain g rxk txk Hg Hne Hnz). }
  assert (HB : BER' = BER).
  { apply (lookup_total_eq _ _ (length (columns tx))); [done|done|].
    intros k Hlt. by destruct (Hk k Hlt) as (? & ? & ?). }
  assert (HS : SER' = SER).
  { apply (lookup_total_eq _ _ (length (columns tx))); [done|done|].
    intros k Hlt. by destruct (Hk k Hlt) as (? & ? & ?). }
  assert (HN : SNR' = SNR).
  { apply (lookup_total_eq _ _ (length (columns tx))); [done|done|].
    intros k Hlt. by destruct (Hk k Hlt) as (? & ? & ?). }
  by rewrite HB, HS, HN.
Qed.

Lemma fastBERcalc_gain_witness :
  exists out,
    @fastBERcalc bpsk (Array1D rx_flip) (Array1D tx_quad) (2 ^ 1) "psk"
    = Some out
    /\ @fastBERcalc bpsk (gain (mkC 0 1) (Array1D rx_flip))
         (Array1D tx_quad) (2 ^ 1) "psk" = Some out.
Proof.
  apply (@fastBERcalc_gain bpsk (mkC 0 1) (Array1D rx_flip)
           (Array1D tx_quad) 1 "psk").
  - lia.
  - reflexivity.
  - reflexivity.
  - constructor; [reflexivity|constructor].
  - constructor; [apply well_conditioned_rx_flip|constructor].
  - intros Heq. apply (f_equal Im) in Heq. simpl in Heq. lra.
Defined.

(** ** [Qfunc] and [theoryBER] *)


Lemma ln_2_pos : 0 < ln 2.
Proof. rewrite <- ln_1. apply ln_increasing; lra. Qed.

(** For M = 4 the two families of [theoryBER] agree at every Eb/N0: both
    give [Q(sqrt(2 Eb/N0))], whatever the error function is. *)
Theorem theoryBER_qpsk_is_4qam (erf : R -> R) (EbN0 : R) :
  theoryBER erf 4 EbN0 "qam" = theoryBER erf 4 EbN0 "psk"
  /\ theoryBER erf 4 EbN0 "qam"
     = Some (Qfunc erf (sqrt (2 * Rpower 10 (EbN0 / 10)))).
Proof.
  pose proof ln_2_pos as Hln.
  assert (H4 : INR 4 = 4) by (simpl; ring).
  assert (Hs4 : sqrt 4 = 2).
  { replace 4 with (2 * 2) by ring. apply sqrt_square. lra. }
  assert (Hl4 : ln 4 = 2 * ln 2).
  { replace 4 with (2 * 2) by ring. rewrite ln_mult by lra. ring. }
  assert (Hs2 : 0 < sqrt 2) by (apply sqrt_lt_R0; lra).
  set (E := Rpower 10 (EbN0 / 10)).
  assert (HE : 0 < E) by apply exp_pos.
  assert (Hq : theoryBER erf 4 EbN0 "qam" = Some (Qfunc erf (sqrt (2 * E)))).
  { unfold theoryBER. simpl String.eqb. cbv iota. fold E.
    rewrite H4, Hs4. unfold Rlog2. f_equal.
    replace (3 * (ln 2 / ln 2) / (2 ^ 2 - 1) * (2 * E)) with (2 * E)
      by (unfold pow; field; lra).
    field. lra. }
  split; [|exact Hq]. rewrite Hq.
  unfold theoryBER. simpl String.eqb. cbv iota. fold E.
  rewrite H4. unfold Rlog2. rewrite Hl4. f_equal.
  replace (2 * (2 * ln 2 / ln 2) * E) with (2 * (2 * E)) by (field; lra).
  rewrite (sqrt_mult 2 (2 * E)) by lra. rewrite sin_PI4.
  replace (sqrt 2 * sqrt (2 * E) * (1 / sqrt 2)) with (sqrt (2 * E))
    by (field; lra).
  field. lra.
Qed.

(** ** [monteCarloMI]: a pmf of the caller *)

Lemma weighted_energy_rescaled_pmf (s : R) (cs : list complex) (px : list R) :
  s <> 0 ->
  Rsum (zip_with Rmult (map (fun c => Cabs c ^ 2)
                            (map (fun c => Cdivr c s) cs)) px)
  = Rsum (zip_with Rmult (map (fun c => Cabs c ^ 2) cs) px) / (s * s).
Proof.
  intros Hs. revert px. induction cs as [|c cs IH]; intros [|p px]; simpl;
    try (unfold Rdiv; ring).
  rewrite IH, Cabs_divr by done. by field.
Qed.

(** With a pmf passed by the caller, one weight per constellation point and
    a positive weighted energy, [monteCarloMI] keeps the pmf and rescales
    the constellation to the mean energy 1 under that pmf. *)
Theorem monteCarloMI_pmf_unit_energy `{Modulation} (M : nat)
    (constType : string) (px : list R) :
  px <> [] ->
  length px = length (GrayMapping M constType) ->
  0 < Rsum (zip_with Rmult
              (map (fun c => Cabs c ^ 2) (GrayMapping M constType)) px) ->
  exists constSymb,
    monteCarloMI_init M constType px = Some (px, constSymb)
    /\ constSymb
       = map (fun c =>
                Cdivr c
                  (sqrt (Rsum (zip_with Rmult
                                 (map (fun c => Cabs c ^ 2)
                                      (GrayMapping M constType)) px))))
             (GrayMapping M constType)
    /\ length constSymb = length (GrayMapping M constType)
    /\ Rsum (zip_with Rmult (map (fun c => Cabs c ^ 2) constSymb) px) = 1.
Proof.
  intros Hne Hlen HEs. unfold monteCarloMI_init.
  destruct px as [|p px]; [done|]. cbn [length Nat.eqb mbind option_bind].
  rewrite ew2_Some by (by rewrite length_map).
  cbn [mbind option_bind].
  set (Es := Rsum (zip_with Rmult
                     (map (fun c => Cabs c ^ 2) (GrayMapping M constType))
                     (p :: px))) in *.
  eexists. split; [done|]. split; [done|]. split; [by rewrite length_map|].
  rewrite weighted_energy_rescaled_pmf.
  - fold Es. rewrite sqrt_sqrt by lra. field. lra.
  - pose proof (sqrt_lt_R0 Es HEs). lra.
Qed.

Lemma monteCarloMI_pmf_unit_energy_witness :
  exists constSymb,
    @monteCarloMI_init qam4 4 "qam" [1 / 8; 1 / 8; 1 / 4; 1 / 2]
    = Some ([1 / 8; 1 / 8; 1 / 4; 1 / 2], constSymb)
    /\ constSymb
       = map (fun c =>
                Cdivr c
                  (sqrt (Rsum (zip_with Rmult
                                 (map (fun c => Cabs c ^ 2)
                                      (@GrayMapping qam4 4 "qam"))
                                 [1 / 8; 1 / 8; 1 / 4; 1 / 2]))))
             (@GrayMapping qam4 4 "qam")
    /\ length constSymb = length (@GrayMapping qam4 4 "qam")
    /\ Rsum (zip_with Rmult (map (fun c => Cabs c ^ 2) constSymb)
                      [1 / 8; 1 / 8; 1 / 4; 1 / 2]) = 1.
Proof.
  apply (@monteCarloMI_pmf_unit_energy qam4 4 "qam"
           [1 / 8; 1 / 8; 1 / 4; 1 / 2]).
  - discriminate.
  - reflexivity.
  - simpl. rewrite !Cabs_sqr. simpl. lra.
Defined.

(** ** The orientation of the input arrays *)

Lemma length_transpose (rows : list (list complex)) :
  length (transpose rows) = length (hd [] rows).
Proof. unfold transpose. by rewrite length_map, length_seq. Qed.

(** The estimators see the same modes in an array and in its transpose when
    the array has more rows than columns: the longer axis is the time. *)
Theorem columns_of_transpose (rows : list (list complex)) :
  (length (hd [] rows) < length rows)%nat ->
  columns (Array2D (transpose rows)) = columns (Array2D rows).
Proof.
  intros Hlt. cbn [columns].
  destruct (Nat.ltb_spec (length rows) (length (hd [] rows))) as [?|_]; [lia|].
  rewrite length_transpose.
  destruct (length (hd [] rows)) as [|m] eqn:Hm.
  - unfold transpose at 1 2 3. rewrite Hm. simpl. unfold transpose. simpl.
    by rewrite Hm.
  - assert (Hhd : length (hd [] (transpose rows)) = length rows).
    { unfold transpose. rewrite Hm. simpl. by rewrite length_map. }
    rewrite Hhd.
    by destruct (Nat.ltb_spec (S m) (length rows)) as [_|?]; [|lia].
Qed.

Lemma columns_of_transpose_witness :
  columns (Array2D (transpose [[mkC 7 0]; [mkC (-1) 0]]))
  = columns (Array2D [[mkC 7 0]; [mkC (-1) 0]]).
Proof.
  apply (columns_of_transpose [[mkC 7 0]; [mkC (-1) 0]]). simpl. lia.
Defined.

(** A 1-D array with at least one sample and the 2-D array of one column
    with the same samples are the same single mode. *)
Theorem columns_of_vector (v : list complex) :
  v <> [] ->
  columns (Array2D (map (fun z => [z]) v)) = columns (Array1D v).
Proof.
  intros Hne. destruct v as [|z v]; [done|]. cbn [columns].
  cbn [map hd length].
  destruct (Nat.ltb_spec (S (length (map (fun z => [z]) v))) 1) as [?|_]; [lia|].
  unfold transpose. cbn [hd length seq map]. f_equal. f_equal.
  rewrite map_map. simpl. by rewrite map_id.
Qed.

Lemma columns_of_vector_witness :
  columns (Array2D (map (fun z => [z]) rx_noisy)) = columns (Array1D rx_noisy).
Proof. apply (columns_of_vector rx_noisy). discriminate. Defined.

(** ** [calcLLR]: symbol by symbol *)

(** [calcLLR] works symbol by symbol: the LLRs of a concatenated sequence
    are the LLRs of the first part followed by those of the second. *)
Theorem calcLLR_app (rx1 rx2 : list complex) (sigma2 : R)
    (constSymb : list complex) (bitMap : list (list Z)) (b : nat) :
  length constSymb = (2 ^ b)%nat ->
  length bitMap = (2 ^ b)%nat ->
  Forall (fun row => length row = b) bitMap ->
  exists L1 L2,
    calcLLR rx1 sigma2 constSymb bitMap = Some L1
    /\ calcLLR rx2 sigma2 constSymb bitMap = Some L2
    /\ calcLLR (rx1 ++ rx2) sigma2 constSymb bitMap = Some (L1 ++ L2).
Proof.
  intros HM Hrows Hall.
  destruct (calcLLR_values rx1 sigma2 constSymb bitMap b HM Hrows Hall)
    as (L1 & H1 & Hl1 & Hv1).
  destruct (calcLLR_values rx2 sigma2 constSymb bitMap b HM Hrows Hall)
    as (L2 & H2 & Hl2 & Hv2).
  destruct (calcLLR_entries (rx1 ++ rx2) sigma2 constSymb bitMap b HM Hrows
              Hall) as (L & H & Hl & Hent).
  exists L1, L2. split; [done|]. split; [done|]. rewrite H. f_equal.
  rewrite length_app in Hl, Hent.
  apply (lookup_total_eq _ _ ((length rx1 + length rx2) * b)%nat);
    [done|rewrite length_app; lia|].
  intros p Hp. destruct (Hent p Hp) as (i & r & t & Hr & Ht & -> & Hv).
  rewrite Hv. symmetry.
  apply lookup_app_Some in Hr as [Hr|[Hge Hr]].
  - rewrite lookup_app_l.
    + by apply Hv1.
    + rewrite Hl1. apply lookup_lt_Some in Hr. nia.
  - rewrite lookup_app_r by (rewrite Hl1; nia).
    rewrite Hl1.
    replace (i * b + t - length rx1 * b)%nat
      with ((i - length rx1) * b + t)%nat by nia.
    by apply Hv2.
Qed.

Lemma calcLLR_app_witness :
  exists L1 L2,
    calcLLR tx_unit 1 [mkC (-1) 0; mkC 1 0] [[0%Z]; [1%Z]] = Some L1
    /\ calcLLR rx_noisy 1 [mkC (-1) 0; mkC 1 0] [[0%Z]; [1%Z]] = Some L2
    /\ calcLLR (tx_unit ++ rx_noisy) 1 [mkC (-1) 0; mkC 1 0] [[0%Z]; [1%Z]] = Some (L1 ++ L2).
Proof.
  apply (calcLLR_app tx_unit rx_noisy 1 [mkC (-1) 0; mkC 1 0] [[0%Z]; [1%Z]] 1).
  - reflexivity.
  - reflexivity.
  - repeat constructor.
Defined.

(** ** [monteCarloGMI]: at most one bit per bit position *)

(** A value that is not below zero: a real that is not negative, +inf or
    nan. *)
Lemma soft_bit_not_negative (e : xfloat) :
  ~ xlt (xlog2 (xadd (Fin 1) (xexp e))) 0.
Proof.
  pose proof ln_2_pos as H2.
  destruct e as [y| | |]; cbn [xexp xadd]; unfold xlog2, xlog_base.
  - pose proof (exp_pos y) as He. rewrite np_log_pos by lra. cbn [xlt].
    assert (0 <= ln (1 + exp y)).
    { rewrite <- ln_1. left. apply ln_increasing; lra. }
    assert (0 <= ln (1 + exp y) / ln 2).
    { apply Rmult_le_pos; [done|]. left. by apply Rinv_0_lt_compat. }
    lra.
  - cbn [xlt]. tauto.
  - rewrite np_log_pos by lra. cbn [xlt].
    replace (1 + 0) with 1 by ring. rewrite ln_1. unfold Rdiv. lra.
  - cbn [xlt]. tauto.
Qed.

Lemma xadd_not_negative (a x : xfloat) :
  ~ xlt a 0 -> ~ xlt x 0 -> ~ xlt (xadd a x) 0.
Proof. destruct a, x; cbn [xadd xlt]; intros; try tauto; lra. Qed.

Lemma xsum_not_negative (l : list xfloat) :
  Forall (fun x => ~ xlt x 0) l ->
  forall a, ~ xlt a 0 -> ~ xlt (foldl xadd a l) 0.
Proof.
  induction 1 as [|x l Hx _ IH]; intros a Ha; simpl; [done|].
  apply IH. by apply xadd_not_negative.
Qed.

Lemma xdivn_not_negative (a : xfloat) (n : nat) :
  ~ xlt a 0 -> ~ xlt (xdivn a n) 0.
Proof.
  destruct a as [x| | |]; cbn [xdivn xlt]; try tauto. intros Hx.
  unfold np_div. destruct (Req_dec_T (INR n) 0) as [_|Hn].
  - destruct (Req_dec_T x 0); [cbn [xlt]; tauto|].
    destruct (Rlt_dec 0 x); cbn [xlt]; [tauto|lra].
  - cbn [xlt]. pose proof (pos_INR n).
    assert (0 <= x / INR n); [|lra].
    apply Rmult_le_pos; [lra|]. left. apply Rinv_0_lt_compat. lra.
Qed.

Lemma xmean_not_negative (l : list xfloat) :
  Forall (fun x => ~ xlt x 0) l -> ~ xlt (xmean l) 0.
Proof.
  intros Hl. unfold xmean, xsum. apply xdivn_not_negative.
  apply xsum_not_negative; [done|]. cbn [xlt]. lra.
Qed.

Lemma one_minus_at_most (m : xfloat) :
  ~ xlt m 0 -> ~ xgt (xsub (Fin 1) m) 1.
Proof.
  destruct m; cbn [xsub xneg xadd xlt xgt]; intros; try tauto; lra.
Qed.

Lemma xadd_at_most (a x : xfloat) (A : R) :
  ~ xgt a A -> ~ xgt x 1 -> ~ xgt (xadd a x) (A + 1).
Proof. destruct a, x; cbn [xadd xgt]; intros; try tauto; lra. Qed.

Lemma xsum_at_most (l : list xfloat) :
  Forall (fun x => ~ xgt x 1) l ->
  forall a A, ~ xgt a A -> ~ xgt (foldl xadd a l) (A + INR (length l)).
Proof.
  induction 1 as [|x l Hx _ IH]; intros a A Ha.
  - simpl. by rewrite Rplus_0_r.
  - cbn [foldl length]. rewrite S_INR.
    replace (A + (INR (length l) + 1)) with (A + 1 + INR (length l)) by ring.
    apply IH. by apply xadd_at_most.
Qed.

Lemma np_div_real (x : R) (n : nat) :
  (1 <= n)%nat -> np_div x (INR n) = Fin (x / INR n).
Proof.
  intros Hn. unfold np_div.
  destruct (Req_dec_T (INR n) 0) as [H0|_]; [|done].
  exfalso. revert H0. apply not_0_INR. lia.
Qed.

Lemma gmi_bit_bounded (b : nat) (btx : list Z) (LLRs MI : list xfloat)
    (n : nat) :
  length btx = length LLRs -> (n < length MI)%nat ->
  exists v, gmi_bit b btx LLRs n MI = Some (<[n := v]> MI) /\ ~ xgt v 1.
Proof.
  intros Hlen HMI. unfold gmi_bit.
  rewrite ew2_Some by (by apply stride_length_eq). cbn [mbind option_bind].
  rewrite set_item_Some by done. eexists. split; [done|].
  apply one_minus_at_most, xmean_not_negative.
  apply Forall_fmap, Forall_forall. intros e _. apply soft_bit_not_negative.
Qed.

Lemma gmi_mode_bounded (b : nat) (Es : R) (constSymb : list complex)
    (bitMap : list (list Z)) (sigma2 : R) (rxk txk : list complex) :
  length constSymb = (2 ^ b)%nat ->
  length bitMap = (2 ^ b)%nat ->
  Forall (fun row => length row = b) bitMap ->
  length rxk = length txk ->
  exists MI,
    gmi_mode (2 ^ b) Es constSymb bitMap sigma2 rxk txk = Some MI
    /\ length MI = b
    /\ Forall (fun x => ~ xgt x 1) MI
    /\ ~ xgt (xsum MI) (INR b).
Proof.
  intros HM Hrows Hall Hlen. unfold gmi_mode.
  destruct (gmi_soft_Some b Es constSymb bitMap sigma2 rxk txk)
    as (btx & LLRs & Hsoft & Hl); [done..|].
  rewrite Hsoft. cbn [mbind option_bind]. rewrite ilog2_pow2.
  cbn [mbind option_bind].
  destruct (for_range_inv
    (fun i MI => length MI = b
       /\ forall n x, (n < i)%nat -> MI !! n = Some x -> ~ xgt x 1)
    (gmi_bit b btx LLRs) b (replicate b (Fin 0)))
    as (MI & Hrun & HlM & Hval).
  - split; [by rewrite length_replicate|]. intros n x Hn. lia.
  - intros i MI Hi (HlM & Hval).
    destruct (gmi_bit_bounded b btx LLRs MI i) as (v & Hstep & Hv);
      [done|lia|].
    eexists. split; [exact Hstep|]. split; [by rewrite length_insert|].
    intros n x Hn Hx. destruct (Nat.eq_dec n i) as [->|Hni].
    + rewrite list_lookup_insert_eq in Hx by lia. by injection Hx as <-.
    + rewrite list_lookup_insert_ne in Hx by done. apply (Hval n); [lia|done].
  - assert (HF : Forall (fun x => ~ xgt x 1) MI).
    { apply Forall_lookup. intros n x Hx. apply (Hval n); [|done].
      rewrite <- HlM. by eapply lookup_lt_Some. }
    exists MI. rewrite Hrun. repeat split; [done|done|].
    pose proof (xsum_at_most MI HF (Fin 0) 0) as Hs.
    rewrite HlM, Rplus_0_l in Hs. apply Hs. cbn [xgt]. lra.
Qed.

(** On a well-formed input without a degenerate mode (no zero sample
    received, a transmitted column with power, a positive noise variance)
    [monteCarloGMI] returns no per-bit-position mutual information above 1
    and no GMI above [b] bits: every value is a real within the bound,
    -inf or nan. *)
Theorem monteCarloGMI_bounded `{Modulation} (rx tx : ndarray) (b : nat)
    (constType : string) :
  (1 <= b)%nat ->
  length (GrayMapping (2 ^ b) constType) = (2 ^ b)%nat ->
  length (demodulateGray (GrayMapping (2 ^ b) constType) (2 ^ b) constType)
  = (2 ^ b * b)%nat ->
  0 < mean_energy (GrayMapping (2 ^ b) constType) ->
  same_shape (columns rx) (columns tx) ->
  (1 <= length (columns tx))%nat ->
  (forall k rxk txk,
     columns rx !! k = Some rxk -> columns tx !! k = Some txk ->
     Forall (fun z => z <> C0) rxk /\ 0 < signal_power txk
     /\ 0 < np_var (zip_with Csub rxk txk)) ->
  exists GMI MIperBitPosition,
    monteCarloGMI rx tx (2 ^ b) constType = Some (GMI, MIperBitPosition)
    /\ Forall (fun x => ~ xgt x (INR b)) GMI
    /\ Forall (fun x => ~ xgt x 1) MIperBitPosition.
Proof.
  intros Hb Hconst Hbits _ Hshape Hn _.
  destruct (monteCarloGMI_prepare_value rx tx b constType Hb Hbits Hshape)
    as (p & Hp & Hc & HEs & HnM & Hbm & Hpcols).
  assert (Hmodes : forall k, (k < length (columns tx))%nat ->
            exists MI, mode_MI (2 ^ b) p k = Some MI
              /\ Forall (fun x => ~ xgt x 1) MI
              /\ ~ xgt (xsum MI) (INR b)).
  { intros k Hk.
    destruct (lookup_lt_is_Some_2 (columns tx) k Hk) as [txk Htxk].
    destruct (lookup_lt_is_Some_2 (columns rx) k) as [rxk Hrxk].
    { by rewrite (Forall2_length _ _ _ Hshape). }
    destruct (Hpcols k rxk txk Hrxk Htxk) as (Hnv & Hr & Ht).
    pose proof (Forall2_lookup_lr _ _ _ _ _ _ Hshape Hrxk Htxk) as Hlen.
    unfold mode_MI. rewrite Hnv, Hr, Ht. cbn [mbind option_bind].
    rewrite Hc, Hbm.
    destruct (gmi_mode_bounded b (gp_Es p) (GrayMapping (2 ^ b) constType)
                (chunks (2 ^ b) b
                   (demodulateGray (GrayMapping (2 ^ b) constType) (2 ^ b)
                                   constType))
                (np_var (zip_with Csub rxk txk))
                (conditioned rxk txk) (pnorm txk))
      as (MI & HMI & _ & HF & Hg).
    - done.
    - apply length_chunks.
    - by apply chunks_uniform.
    - by rewrite length_conditioned, length_pnorm.
    - by exists MI. }
  destruct (gmi_loop (2 ^ b) p (length (columns tx)))
    as (GMI & Hrun & HlG & Hval).
  { intros k Hk. destruct (Hmodes k Hk) as (MI & HMI & _). by exists MI. }
  destruct (length (columns tx)) as [|n] eqn:Hlen; [lia|].
  destruct (Hmodes n) as (MI & HMI & HF & _); [lia|].
  exists GMI, MI. split.
  - unfold monteCarloGMI. rewrite Hp. cbn [mbind option_bind].
    rewrite HnM, Hrun. cbn [mbind option_bind]. rewrite HMI. done.
  - split; [|done]. apply Forall_lookup. intros k x Hx.
    assert (Hk : (k < S n)%nat) by (rewrite <- HlG; by eapply lookup_lt_Some).
    destruct (Hmodes k Hk) as (MIk & HMIk & _ & Hgk).
    rewrite (Hval k MIk Hk HMIk) in Hx. by injection Hx as <-.
Qed.

Lemma monteCarloGMI_bounded_witness :
  exists GMI MIperBitPosition,
    @monteCarloGMI bpsk (Array1D rx_noisy) (Array1D tx_pair) (2 ^ 1) "psk"
    = Some (GMI, MIperBitPosition)
    /\ Forall (fun x => ~ xgt x (INR 1)) GMI
    /\ Forall (fun x => ~ xgt x 1) MIperBitPosition.
Proof.
  apply (@monteCarloGMI_bounded bpsk (Array1D rx_noisy) (Array1D tx_pair) 1
           "psk").
  - lia.
  - reflexivity.
  - reflexivity.
  - change (@GrayMapping bpsk (2 ^ 1) "psk") with [mkC (-1) 0; mkC 1 0].
    rewrite mean_energy_bpsk. lra.
  - constructor; [reflexivity|constructor].
  - simpl. lia.
  - intros [|k] rxk txk Hr Ht; simpl in Hr, Ht; [|discriminate].
    injection Hr as <-. injection Ht as <-.
    split; [|split].
    + unfold rx_noisy. repeat constructor; apply nonzero_re; lra.
    + replace (signal_power tx_pair) with 1; [lra|].
      unfold signal_power, tx_pair, Cmean, Cdivr, Csum, Cmul, Cconj.
      simpl. field.
    + rewrite np_var_rx_noisy. lra.
Defined.

(** ** [calcMI] and [monteCarloMI] *)

Lemma py_div_Some (x y : R) : y <> 0 -> py_div x y = Some (x / y).
Proof. intros Hy. unfold py_div. by destruct (Req_dec_T y 0). Qed.

Lemma calcMI_step_is_Some (rx tx : list complex) (sigma2 : R)
    (constSymb : list complex) (pX : list R) (k : nat) (h : xfloat) :
  sigma2 <> 0 ->
  (k < length rx)%nat -> length rx = length tx ->
  constSymb <> [] -> length pX = length constSymb ->
  is_Some (calcMI_step rx tx sigma2 constSymb pX k h).
Proof.
  intros Hs Hk Hlen Hne HpX. unfold calcMI_step.
  destruct (lookup_lt_is_Some_2 tx k) as [t Ht]; [lia|].
  destruct (lookup_lt_is_Some_2 rx k Hk) as [r Hr].
  rewrite Ht, Hr. cbn [mbind option_bind].
  destruct (np_argmin_is_Some (map (fun c => Cabs (Csub t c)) constSymb))
    as (j & Hj & Hjlt).
  { intros Hnil. apply (f_equal length) in Hnil. rewrite length_map in Hnil.
    by destruct constSymb. }
  rewrite Hj. cbn [mbind option_bind].
  rewrite py_div_Some by done. cbn [mbind option_bind].
  rewrite ew2_Some by (by rewrite length_map). cbn [mbind option_bind].
  rewrite length_map in Hjlt.
  destruct (lookup_lt_is_Some_2 pX j) as [p Hp]; [lia|].
  rewrite Hp. done.
Qed.

Lemma calcMI_is_Some (rx tx : list complex) (sigma2 : R)
    (constSymb : list complex) (pX : list R) :
  sigma2 <> 0 ->
  length rx = length tx -> constSymb <> [] ->
  length pX = length constSymb ->
  is_Some (calcMI rx tx sigma2 constSymb pX).
Proof.
  intros Hs Hlen Hne HpX. unfold calcMI.
  destruct (for_range_inv (fun _ _ => True)
              (calcMI_step rx tx sigma2 constSymb pX) (length rx) (Fin 0))
    as (h & Hrun & _); [done| |].
  - intros i t Hi _.
    destruct (calcMI_step_is_Some rx tx sigma2 constSymb pX i t)
      as [t' Ht']; [done..|]. by exists t'.
  - rewrite Hrun. done.
Qed.

(** A noise variance of zero makes [calcMI] raise on a sequence with a
    symbol. *)
Lemma calcMI_zero_variance (rx tx : list complex) (constSymb : list complex)
    (pX : list R) :
  rx <> [] -> calcMI rx tx 0 constSymb pX = None.
Proof.
  intros Hrx. unfold calcMI. destruct rx as [|r rx]; [done|].
  cbn [length]. unfold for_range. cbn [seq for_each].
  assert (Hstep : calcMI_step (r :: rx) tx 0 constSymb pX 0 (Fin 0) = None).
  { unfold calcMI_step. destruct (tx !! 0%nat); [|done].
    cbn [lookup list_lookup mbind option_bind].
    destruct (np_argmin _); [|done]. cbn [mbind option_bind].
    unfold py_div. by destruct (Req_dec_T 0 0). }
  by rewrite Hstep.
Qed.

Lemma monteCarloMI_norm_loop (rx tx : list (list complex)) (n : nat) :
  length rx = n -> length tx = n ->
  exists rx' tx',
    for_range n monteCarloMI_norm_step (rx, tx) = Some (rx', tx')
    /\ rx' = map pnorm rx /\ tx' = map pnorm tx.
Proof.
  intros Hr Ht.
  destruct (for_range_inv
    (fun i (st : list (list complex) * list (list complex)) =>
       st.1 = map pnorm (take i rx) ++ drop i rx
       /\ st.2 = map pnorm (take i tx) ++ drop i tx)
    monteCarloMI_norm_step n (rx, tx)) as ([rx' tx'] & Hrun & H1 & H2).
  - by rewrite !take_0, !drop_0.
  - intros i [rx1 tx1] Hi [H1 H2]. simpl in H1, H2. subst rx1 tx1.
    destruct (lookup_lt_is_Some_2 rx i) as [rxi Hrxi]; [lia|].
    destruct (lookup_lt_is_Some_2 tx i) as [txi Htxi]; [lia|].
    assert (Hins : forall (x : list (list complex)) xi,
              x !! i = Some xi ->
              normalize_column i (map pnorm (take i x) ++ drop i x)
              = Some (map pnorm (take (S i) x) ++ drop (S i) x)).
    { intros x xi Hxi. pose proof (lookup_lt_Some _ _ _ Hxi) as Hlt.
      assert (Hl : length (map pnorm (take i x)) = i)
        by (rewrite length_map, length_take; lia).
      rewrite (normalize_column_value _ _ xi).
      - f_equal. rewrite (drop_S _ _ _ Hxi).
        rewrite <- Hl at 1. rewrite <- (Nat.add_0_r (length _)).
        rewrite insert_app_r. simpl.
        rewrite (take_S_r _ _ _ Hxi), map_app. simpl.
        by rewrite <- app_assoc.
      - rewrite lookup_app_r by lia. rewrite Hl, Nat.sub_diag.
        by rewrite lookup_drop, Nat.add_0_r. }
    eexists. split.
    + unfold monteCarloMI_norm_step.
      rewrite (Hins rx rxi Hrxi). cbn [mbind option_bind].
      rewrite (Hins tx txi Htxi). done.
    + done.
  - simpl in H1, H2. exists rx', tx'. split; [done|].
    rewrite take_ge, drop_ge, app_nil_r in H1, H2 by lia. done.
Qed.

Lemma monteCarloMI_loop (constSymb : list complex) (px : list R)
    (noiseVar : list R) (rx tx : list (list complex)) (n : nat) :
  (forall k, (k < n)%nat ->
     exists sigma2 rxk txk v,
       noiseVar !! k = Some sigma2 /\ rx !! k = Some rxk
       /\ tx !! k = Some txk
       /\ calcMI rxk txk sigma2 constSymb px = Some v) ->
  exists MI,
    for_range n (monteCarloMI_step constSymb px noiseVar rx tx)
              (replicate n (Fin 0)) = Some MI
    /\ length MI = n
    /\ forall k sigma2 rxk txk, (k < n)%nat ->
       noiseVar !! k = Some sigma2 -> rx !! k = Some rxk ->
       tx !! k = Some txk ->
       MI !! k = calcMI rxk txk sigma2 constSymb px.
Proof.
  intros Hmodes.
  destruct (for_range_inv
    (fun i MI => length MI = n
       /\ forall k sigma2 rxk txk, (k < i)%nat ->
          noiseVar !! k = Some sigma2 -> rx !! k = Some rxk ->
          tx !! k = Some txk ->
          MI !! k = calcMI rxk txk sigma2 constSymb px)
    (monteCarloMI_step constSymb px noiseVar rx tx) n (replicate n (Fin 0)))
    as (MI & Hrun & Hl & Hval).
  - split; [by rewrite length_replicate|]. intros k ? ? ? Hk. lia.
  - intros i MI Hi [Hl Hval].
    destruct (Hmodes i Hi) as (s & rxi & txi & v & Hs & Hr & Ht & Hv).
    unfold monteCarloMI_step. rewrite Hs, Hr, Ht. cbn [mbind option_bind].
    rewrite Hv. cbn [mbind option_bind]. rewrite set_item_Some by lia.
    eexists. split; [done|]. split; [by rewrite length_insert|].
    intros k s' rxk txk Hk Hs' Hr' Ht'.
    destruct (Nat.eq_dec k i) as [->|Hne].
    + rewrite Hs in Hs'. rewrite Hr in Hr'. rewrite Ht in Ht'.
      injection Hs' as <-. injection Hr' as <-. injection Ht' as <-.
      rewrite Hv. apply list_lookup_insert_eq. lia.
    + rewrite list_lookup_insert_ne by done. apply Hval; [lia|done..].
  - by exists MI.
Qed.

Lemma monteCarloMI_value `{Modulation} (rx tx : ndarray) (M : nat)
    (constType : string) :
  (1 <= M)%nat ->
  length (GrayMapping M constType) = M ->
  same_shape (columns rx) (columns tx) ->
  (forall k rxk txk,
     columns rx !! k = Some rxk -> columns tx !! k = Some txk ->
     np_var (zip_with Csub (pnorm rxk) (pnorm txk)) <> 0) ->
  exists px constSymb MI,
    monteCarloMI_init M constType [] = Some (px, constSymb)
    /\ px = map (Rmult (1 / INR M)) (replicate M 1)
    /\ length constSymb = M
    /\ monteCarloMI rx tx M constType [] = Some MI
    /\ length MI = length (columns rx)
    /\ forall k rxk txk,
         columns rx !! k = Some rxk -> columns tx !! k = Some txk ->
         exists v,
           calcMI (pnorm rxk) (pnorm txk)
                  (np_var (zip_with Csub (pnorm rxk) (pnorm txk)))
                  constSymb px = Some v
           /\ MI !! k = Some v.
Proof.
  intros HM Hconst Hshape Hnoise.
  assert (Hinit : exists px constSymb,
            monteCarloMI_init M constType [] = Some (px, constSymb)
            /\ px = map (Rmult (1 / INR M)) (replicate M 1)
            /\ length px = M /\ length constSymb = M).
  { unfold monteCarloMI_init. cbn [length Nat.eqb].
    destruct (Nat.eqb_spec M 0) as [?|_]; [lia|]. cbn [mbind option_bind].
    rewrite ew2_Some
      by (by rewrite !length_map, length_replicate).
    cbn [mbind option_bind]. eexists _, _. split; [done|]. split; [done|].
    by rewrite !length_map, length_replicate. }
  destruct Hinit as (px & cs & Hinit & Hpx & Hlp & Hlc).
  pose proof (Forall2_length _ _ _ Hshape) as Hlen.
  destruct (monteCarloMI_norm_loop (columns rx) (columns tx)
              (length (columns rx))) as (rx' & tx' & Hnorm & -> & ->);
    [done|done|].
  assert (Hshape' : same_shape (map pnorm (columns rx))
                               (map pnorm (columns tx))).
  { unfold same_shape in *. apply Forall2_fmap.
    eapply Forall2_impl; [exact Hshape|].
    intros r t Hrt. by rewrite !length_pnorm. }
  destruct (var_axis0_value _ _ Hshape') as (nv & Hnv & Hlnv & Hvar).
  assert (Hcalc : forall k rxk txk,
            columns rx !! k = Some rxk -> columns tx !! k = Some txk ->
            exists v,
              calcMI (pnorm rxk) (pnorm txk)
                     (np_var (zip_with Csub (pnorm rxk) (pnorm txk)))
                     cs px = Some v).
  { intros k rxk txk Hr Ht.
    pose proof (Forall2_lookup_lr _ _ _ _ _ _ Hshape Hr Ht) as Hl.
    destruct (calcMI_is_Some (pnorm rxk) (pnorm txk)
                (np_var (zip_with Csub (pnorm rxk) (pnorm txk))) cs px)
      as [v Hv]; [by eapply Hnoise|by rewrite !length_pnorm| |lia|
                  by exists v].
    intros ->. simpl in Hlc. lia. }
  destruct (monteCarloMI_loop cs px nv (map pnorm (columns rx))
              (map pnorm (columns tx)) (length (columns rx)))
    as (MI & Hrun & HlM & Hval).
  { intros k Hk.
    destruct (lookup_lt_is_Some_2 (columns rx) k Hk) as [rxk Hrxk].
    destruct (lookup_lt_is_Some_2 (columns tx) k) as [txk Htxk]; [lia|].
    destruct (Hcalc k rxk txk Hrxk Htxk) as [v Hv].
    exists (np_var (zip_with Csub (pnorm rxk) (pnorm txk))),
      (pnorm rxk), (pnorm txk), v.
    rewrite !list_lookup_fmap, Hrxk, Htxk. repeat split; [|done].
    apply Hvar; by rewrite list_lookup_fmap, ?Hrxk, ?Htxk. }
  exists px, cs, MI. split; [done|]. split; [done|]. split; [done|]. split.
  - unfold monteCarloMI. rewrite Hinit. cbn [mbind option_bind].
    rewrite Hnorm. cbn [mbind option_bind]. rewrite Hnv.
    cbn [mbind option_bind]. exact Hrun.
  - split; [done|]. intros k rxk txk Hr Ht.
    destruct (Hcalc k rxk txk Hr Ht) as [v Hv]. exists v. split; [done|].
    rewrite <- Hv. apply Hval.
    + by eapply lookup_lt_Some.
    + apply Hvar; by rewrite list_lookup_fmap, ?Hr, ?Ht.
    + by rewrite list_lookup_fmap, Hr.
    + by rewrite list_lookup_fmap, Ht.
Qed.

Lemma signal_power_rx_noisy : signal_power rx_noisy = 25.
Proof. unfold signal_power, Cmean, Cdivr, rx_noisy. simpl. field. Qed.

Lemma signal_power_tx_pair : signal_power tx_pair = 1.
Proof. unfold signal_power, Cmean, Cdivr, tx_pair. simpl. field. Qed.

Lemma np_var_rx_noisy_normalised :
  np_var (zip_with Csub (pnorm rx_noisy) (pnorm tx_pair)) = 1 / 25.
Proof.
  rewrite pnorm_rx_noisy, pnorm_tx_pair.
  unfold np_var, Rmean, Cmean, Cabs2, Cdivr, Csub, Cmul, Cconj, tx_pair.
  simpl. field.
Qed.

Lemma mi_conditioned_rx_noisy : mi_conditioned rx_noisy tx_pair.
Proof.
  unfold mi_conditioned.
  rewrite signal_power_rx_noisy, signal_power_tx_pair.
  rewrite np_var_rx_noisy_normalised. lra.
Qed.

(** With the default pmf, a constellation of [M >= 1] points with energy
    and rx and tx of one shape without a degenerate mode (columns with
    power, a positive noise variance), [monteCarloMI] returns one value
    per mode: the value of [calcMI] on the two normalised columns of the
    mode, with the variance of their difference taken after the
    normalisation as noise variance. *)
Theorem monteCarloMI_modes `{Modulation} (rx tx : ndarray) (M : nat)
    (constType : string) :
  (1 <= M)%nat ->
  length (GrayMapping M constType) = M ->
  0 < mean_energy (GrayMapping M constType) ->
  same_shape (columns rx) (columns tx) ->
  Forall2 mi_conditioned (columns rx) (columns tx) ->
  exists px constSymb MI,
    monteCarloMI_init M constType [] = Some (px, constSymb)
    /\ monteCarloMI rx tx M constType [] = Some MI
    /\ length MI = length (columns rx)
    /\ forall k rxk txk,
         columns rx !! k = Some rxk -> columns tx !! k = Some txk ->
         exists v,
           calcMI (pnorm rxk) (pnorm txk)
                  (np_var (zip_with Csub (pnorm rxk) (pnorm txk)))
                  constSymb px = Some v
           /\ MI !! k = Some v.
Proof.
  intros HM Hconst _ Hshape Hmodes.
  destruct (monteCarloMI_value rx tx M constType HM Hconst Hshape)
    as (px & cs & MI & Hinit & _ & _ & Hrun & Hlen & Hval).
  { intros k rxk txk Hr Ht.
    destruct (Forall2_lookup_lr _ _ _ _ _ _ Hmodes Hr Ht) as (_ & _ & Hv).
    lra. }
  by exists px, cs, MI.
Qed.

Lemma monteCarloMI_modes_witness :
  exists px constSymb MI,
    @monteCarloMI_init bpsk 2 "psk" [] = Some (px, constSymb)
    /\ @monteCarloMI bpsk (Array1D rx_noisy) (Array1D tx_pair) 2 "psk" []
       = Some MI
    /\ length MI = length (columns (Array1D rx_noisy))
    /\ forall k rxk txk,
         columns (Array1D rx_noisy) !! k = Some rxk ->
         columns (Array1D tx_pair) !! k = Some txk ->
         exists v,
           calcMI (pnorm rxk) (pnorm txk)
                  (np_var (zip_with Csub (pnorm rxk) (pnorm txk)))
                  constSymb px = Some v
           /\ MI !! k = Some v.
Proof.
  apply (@monteCarloMI_modes bpsk (Array1D rx_noisy) (Array1D tx_pair) 2
           "psk").
  - lia.
  - reflexivity.
  - change (@GrayMapping bpsk 2 "psk") with [mkC (-1) 0; mkC 1 0].
    rewrite mean_energy_bpsk. lra.
  - constructor; [reflexivity|constructor].
  - constructor; [apply mi_conditioned_rx_noisy|constructor].
Defined.

Lemma foldl_xadd_NaN (l : list xfloat) : foldl xadd NaN l = NaN.
Proof. induction l as [|x l IH]; simpl; [done|exact IH]. Qed.

Lemma xsum_with_NaN (l : list xfloat) :
  NaN ∈ l -> forall a, foldl xadd a l = NaN.
Proof.
  induction l as [|x l IH]; intros Hin a; [by apply elem_of_nil in Hin|].
  simpl. apply elem_of_cons in Hin as [<-|Hin].
  - replace (xadd a NaN) with NaN by (by destruct a). apply foldl_xadd_NaN.
  - by apply IH.
Qed.

Lemma entropy_term_zero : xmul (Fin (- 0)) (xlog2 (Fin 0)) = NaN.
Proof.
  unfold xlog2, xlog_base, np_log.
  destruct (Req_dec_T 0 0) as [_|?]; [|done]. simpl. unfold xinf_sign.
  destruct (Req_dec_T (- 0) 0) as [_|Hne]; [done|]. exfalso. apply Hne. ring.
Qed.

(** A pmf with a weight equal to zero spoils the entropy term
    [-pX * log2(pX)], which is [0 * inf]: [calcMI] then returns nan
    whenever it returns. *)
Theorem calcMI_zero_weight (rx tx : list complex) (sigma2 : R)
    (constSymb : list complex) (pX : list R) :
  0 ∈ pX ->
  calcMI rx tx sigma2 constSymb pX = None
  \/ calcMI rx tx sigma2 constSymb pX = Some NaN.
Proof.
  intros Hin. unfold calcMI.
  destruct (for_range _ _ _) as [h|]; [right|by left]. cbn [mbind option_bind].
  f_equal. unfold xsum. rewrite xsum_with_NaN; [done|].
  apply list_elem_of_fmap. exists 0. split; [|done].
  symmetry. apply entropy_term_zero.
Qed.

Lemma calcMI_zero_weight_witness :
  calcMI rx_noisy tx_pair 1 [mkC (-1) 0; mkC 1 0] [0; 1] = None
  \/ calcMI rx_noisy tx_pair 1 [mkC (-1) 0; mkC 1 0] [0; 1] = Some NaN.
Proof.
  apply (calcMI_zero_weight rx_noisy tx_pair 1 [mkC (-1) 0; mkC 1 0] [0; 1]).
  apply list_elem_of_here.
Defined.

(** ** [calcMI]: likelihoods in the range of float64 *)

Lemma ln_2_lt_1 : ln 2 < 1.
Proof.
  rewrite <- (ln_exp 1). apply ln_increasing; [lra|].
  pose proof (exp_ineq1 1 ltac:(lra)). lra.
Qed.

Lemma tiny_pos : 0 < tiny.
Proof. unfold tiny. apply Rinv_0_lt_compat, pow_lt. lra. Qed.

Lemma exp_above_tiny (x : R) : -500 <= x -> tiny < exp x.
Proof.
  intros Hx. apply ln_lt_inv; [apply tiny_pos|apply exp_pos|].
  rewrite ln_exp. unfold tiny. rewrite ln_Rinv by (apply pow_lt; lra).
  rewrite ln_pow by lra.
  replace (INR 1075) with 1075
    by (rewrite INR_IZR_INZ; apply f_equal; reflexivity).
  pose proof ln_lt_2. lra.
Qed.

Lemma fl0_above (x : R) : tiny < x -> fl0 x = x.
Proof.
  intros Hx. pose proof tiny_pos. unfold fl0.
  destruct (Rle_dec (Rabs x) tiny) as [Hle|_]; [|done].
  rewrite Rabs_pos_eq in Hle by lra. lra.
Qed.

Lemma joint_likelihoods_exact (sigma2 : R) (constSymb : list complex)
    (pX : list R) (r : complex) :
  sigma2 <> 0 ->
  Forall (fun p => 0 < p) pX -> Forall (fun p => p <= 1) pX ->
  Forall2 (fun c p => -500 <= ln p - Cabs (Csub r c) ^ 2 / sigma2)
          constSymb pX ->
  zip_with (fun e p => fl0 (e * p))
    (map (fun c => fl0 (exp (- (1 / sigma2) * Cabs (Csub r c) ^ 2)))
         constSymb) pX
  = zip_with Rmult
      (map (fun c => exp (- (1 / sigma2) * Cabs (Csub r c) ^ 2)) constSymb)
      pX.
Proof.
  intros Hs Hpos Hle Hall.
  induction Hall as [|c p cs ps Hcp _ IH]; [done|].
  apply Forall_cons in Hpos as [Hp Hpos]. apply Forall_cons in Hle as [Hp1 Hle].
  cbn [map zip_with]. rewrite (IH Hpos Hle). f_equal.
  set (a := - (1 / sigma2) * Cabs (Csub r c) ^ 2).
  assert (Ha : ln p + a >= -500).
  { unfold a. replace (- (1 / sigma2) * Cabs (Csub r c) ^ 2)
      with (- (Cabs (Csub r c) ^ 2 / sigma2)) by (field; done). lra. }
  assert (Hlp : ln p <= 0).
  { rewrite <- ln_1. destruct (Rle_lt_or_eq_dec _ _ Hp1) as [Hlt| ->]; [|lra].
    left. by apply ln_increasing. }
  rewrite (fl0_above (exp a)) by (apply exp_above_tiny; lra).
  apply fl0_above.
  replace (exp a * p) with (exp (a + ln p))
    by (by rewrite exp_plus, exp_ln).
  apply exp_above_tiny. lra.
Qed.

Lemma xlog2_pos (x : R) : 0 < x -> xlog2 (Fin x) = Fin (ln x / ln 2).
Proof. intros Hx. unfold xlog2, xlog_base. by rewrite np_log_pos. Qed.

(** The body of the loop of [calcMI] when no likelihood underflows. *)
Lemma calcMI_step_exact (rx tx : list complex) (sigma2 : R)
    (constSymb : list complex) (pX : list R) (k j : nat) (h : xfloat)
    (t r : complex) (p : R) :
  sigma2 <> 0 ->
  length pX = length constSymb ->
  Forall (fun p => 0 < p) pX ->
  joint_in_range sigma2 constSymb pX rx ->
  tx !! k = Some t -> rx !! k = Some r ->
  np_argmin (map (fun c => Cabs (Csub t c)) constSymb) = Some j ->
  pX !! j = Some p ->
  calcMI_step rx tx sigma2 constSymb pX k h
  = Some (xsub h
            (xsub (xadd (Fin (- (1 / sigma2) * Cabs (Csub r t) ^ 2
                             * (ln (exp 1) / ln 2)))
                        (xlog2 (Fin p)))
                  (xlog2 (Fin (Rsum (zip_with Rmult
                     (map (fun c => exp (- (1 / sigma2)
                                         * Cabs (Csub r c) ^ 2)) constSymb)
                     pX)))))).
Proof.
  intros Hs HpX Hpos [Hle Hrange] Ht Hr Hj Hp. unfold calcMI_step.
  rewrite Ht, Hr. cbn [mbind option_bind]. rewrite Hj.
  cbn [mbind option_bind]. rewrite py_div_Some by done.
  cbn [mbind option_bind].
  rewrite ew2_Some by (by rewrite length_map). cbn [mbind option_bind].
  rewrite Hp. cbn [mbind option_bind].
  rewrite joint_likelihoods_exact; [done|done|done|done|].
  by apply (Forall_lookup_1 _ _ _ _ Hrange Hr).
Qed.

Lemma xsum_finite (l : list xfloat) :
  Forall (fun x => exists y, x = Fin y) l ->
  forall a, exists s, foldl xadd (Fin a) l = Fin s.
Proof.
  induction 1 as [|x l [y ->] _ IH]; intros a; simpl; [by exists a|].
  apply IH.
Qed.

Lemma weighted_likelihood_pos (f : complex -> R) (constSymb : list complex)
    (pX : list R) :
  constSymb <> [] -> length pX = length constSymb ->
  Forall (fun p => 0 < p) pX ->
  0 < Rsum (zip_with Rmult (map (fun c => exp (f c)) constSymb) pX).
Proof.
  intros Hne Hlen Hpos.
  assert (Hnn : forall (cs : list complex) (ps : list R),
            Forall (fun p => 0 < p) ps ->
            0 <= Rsum (zip_with Rmult (map (fun c => exp (f c)) cs) ps)).
  { induction cs as [|c cs IH]; intros [|p ps] Hps; simpl; try lra.
    apply Forall_cons in Hps as [Hp Hps]. specialize (IH ps Hps).
    pose proof (exp_pos (f c)). nra. }
  destruct constSymb as [|c cs]; [done|]. destruct pX as [|p ps]; [done|].
  apply Forall_cons in Hpos as [Hp Hps]. simpl.
  specialize (Hnn cs ps Hps). pose proof (exp_pos (f c)). nra.
Qed.

(** For a positive noise variance, sequences of one length with at least
    one symbol, a pmf of positive weights, one per constellation point,
    and joint likelihoods in the range of float64, [calcMI] returns a
    finite value. *)
Theorem calcMI_finite (rx tx : list complex) (sigma2 : R)
    (constSymb : list complex) (pX : list R) :
  0 < sigma2 ->
  rx <> [] -> length rx = length tx ->
  constSymb <> [] -> length pX = length constSymb ->
  Forall (fun p => 0 < p) pX ->
  joint_in_range sigma2 constSymb pX rx ->
  exists v, calcMI rx tx sigma2 constSymb pX = Some (Fin v).
Proof.
  intros Hs Hrx Hlen Hne HpX Hpos Hrange. unfold calcMI.
  destruct (for_range_inv (fun _ h => exists y, h = Fin y)
              (calcMI_step rx tx sigma2 constSymb pX) (length rx) (Fin 0))
    as (h & Hrun & y & ->).
  - by exists 0.
  - intros i h Hi [y ->].
    destruct (lookup_lt_is_Some_2 tx i) as [t Ht]; [lia|].
    destruct (lookup_lt_is_Some_2 rx i Hi) as [r Hr].
    destruct (np_argmin_is_Some (map (fun c => Cabs (Csub t c)) constSymb))
      as (j & Hj & Hjlt).
    { intros Hnil. apply (f_equal length) in Hnil.
      rewrite length_map in Hnil. by destruct constSymb. }
    rewrite length_map in Hjlt.
    destruct (lookup_lt_is_Some_2 pX j) as [p Hp]; [lia|].
    rewrite (calcMI_step_exact rx tx sigma2 constSymb pX i j (Fin y) t r p)
      by (done || lra).
    eexists. split; [done|].
    rewrite (xlog2_pos p) by (by eapply (Forall_lookup_1 _ _ _ _ Hpos)).
    rewrite xlog2_pos
      by (by apply (weighted_likelihood_pos
                      (fun c => - (1 / sigma2) * Cabs (Csub r c) ^ 2))).
    simpl. by eexists.
  - rewrite Hrun. cbn [mbind option_bind].
    destruct (xsum_finite (map (fun p => xmul (Fin (- p)) (xlog2 (Fin p))) pX))
      with (a := 0) as [hx Hhx].
    { apply Forall_fmap. eapply Forall_impl; [exact Hpos|].
      intros p Hp. cbn beta. unfold compose.
      rewrite xlog2_pos by done. simpl. by eexists. }
    unfold xsum. rewrite Hhx. cbn [xdivn].
    rewrite np_div_real by (destruct rx; [done|simpl; lia]).
    simpl. by eexists.
Qed.

Lemma ln_lower (p : R) : / 4 <= p -> -2 <= ln p.
Proof.
  intros Hp. pose proof ln_2_lt_1.
  assert (Hq : ln (/ 4) = - (2 * ln 2)).
  { rewrite ln_Rinv by lra. replace 4 with (2 * 2) by ring.
    rewrite ln_mult by lra. ring. }
  destruct (Rle_lt_or_eq_dec _ _ Hp) as [Hlt|<-]; [|lra].
  assert (ln (/ 4) < ln p) by (apply ln_increasing; lra). lra.
Qed.

Lemma joint_in_range_rx_noisy :
  joint_in_range 1 [mkC (-1) 0; mkC 1 0] [1 / 4; 3 / 4] rx_noisy.
Proof.
  pose proof (ln_lower (1 / 4) ltac:(lra)).
  pose proof (ln_lower (3 / 4) ltac:(lra)).
  split; [repeat constructor; lra|].
  unfold rx_noisy. repeat constructor; rewrite Cabs_sqr; simpl; lra.
Qed.

Lemma calcMI_finite_witness :
  exists v,
    calcMI rx_noisy tx_pair 1 [mkC (-1) 0; mkC 1 0] [1 / 4; 3 / 4]
    = Some (Fin v).
Proof.
  apply (calcMI_finite rx_noisy tx_pair 1 [mkC (-1) 0; mkC 1 0]
           [1 / 4; 3 / 4]).
  - lra.
  - discriminate.
  - reflexivity.
  - discriminate.
  - reflexivity.
  - constructor; [lra|]. constructor; [lra|constructor].
  - apply joint_in_range_rx_noisy.
Defined.

(** ** [calcMI] is at most the entropy of the source *)

Lemma Cabs_Csub_zero (t c : complex) : Cabs (Csub t c) = 0 -> c = t.
Proof.
  destruct t as [a b], c as [a' b'].
  unfold Cabs, Csub. cbn [Re Im]. intros H0.
  pose proof (Rle_0_sqr (a - a')) as Ha.
  pose proof (Rle_0_sqr (b - b')) as Hb. unfold Rsqr in Ha, Hb.
  apply sqrt_eq_0 in H0; [|lra].
  assert (Ha0 : (a - a') * (a - a') = 0) by lra.
  assert (Hb0 : (b - b') * (b - b') = 0) by lra.
  apply Rsqr_0_uniq in Ha0, Hb0. f_equal; lra.
Qed.

Lemma nearest_of_member (constSymb : list complex) (t : complex) (j : nat) :
  t ∈ constSymb ->
  np_argmin (map (fun c => Cabs (Csub t c)) constSymb) = Some j ->
  constSymb !! j = Some t.
Proof.
  intros Hin Hj. apply np_argmin_spec in Hj as (dj & Hdj & Hle & _).
  apply list_elem_of_lookup in Hin as [i Hi].
  assert (Hd0 : map (fun c => Cabs (Csub t c)) constSymb !! i = Some 0).
  { by rewrite list_lookup_fmap, Hi; simpl; rewrite Cabs_sub_diag. }
  apply Hle in Hd0.
  rewrite list_lookup_fmap in Hdj.
  destruct (constSymb !! j) as [c|] eqn:Hc; [|done].
  simpl in Hdj. injection Hdj as <-.
  pose proof (Cabs_nonneg (Csub t c)).
  f_equal. apply Cabs_Csub_zero. lra.
Qed.

Lemma Rsum_nonneg (l : list R) : Forall (fun x => 0 <= x) l -> 0 <= Rsum l.
Proof. induction 1 as [|x l Hx _ IH]; simpl; lra. Qed.

Lemma Rsum_term_le (l : list R) (i : nat) (x : R) :
  Forall (fun x => 0 <= x) l -> l !! i = Some x -> x <= Rsum l.
Proof.
  intros Hl. revert i. induction Hl as [|y l Hy Hl IH]; intros [|i] Hi;
    [done|done| |].
  - injection Hi as ->. pose proof (Rsum_nonneg l Hl). simpl. lra.
  - simpl in Hi. apply IH in Hi. simpl. lra.
Qed.

Lemma H_X_entropy (pX : list R) :
  Forall (fun p => 0 < p) pX ->
  xsum (map (fun p => xmul (Fin (- p)) (xlog2 (Fin p))) pX)
  = Fin (entropy pX).
Proof.
  intros Hpos. unfold xsum, entropy.
  assert (Hgen : forall a,
            foldl xadd (Fin a)
                  (map (fun p => xmul (Fin (- p)) (xlog2 (Fin p))) pX)
            = Fin (a + Rsum (map (fun p => - p * (ln p / ln 2)) pX))).
  { induction Hpos as [|p l Hp _ IH]; intros a; cbn [map foldl].
    - simpl. f_equal. lra.
    - rewrite xlog2_pos by done. cbn [xmul xadd]. rewrite IH.
      simpl. f_equal. lra. }
  rewrite Hgen. f_equal. lra.
Qed.

Lemma calcMI_entropy_bound (rx tx : list complex) (sigma2 : R)
    (constSymb : list complex) (pX : list R) :
  0 < sigma2 ->
  rx <> [] -> length rx = length tx ->
  length pX = length constSymb ->
  Forall (fun p => 0 < p) pX ->
  joint_in_range sigma2 constSymb pX rx ->
  Forall (fun t => t ∈ constSymb) tx ->
  exists v, calcMI rx tx sigma2 constSymb pX = Some (Fin v)
            /\ v <= entropy pX.
Proof.
  intros Hs Hrx Hlen HpX Hpos Hrange Htx. unfold calcMI.
  destruct (for_range_inv (fun _ h => exists y, h = Fin y /\ 0 <= y)
              (calcMI_step rx tx sigma2 constSymb pX) (length rx) (Fin 0))
    as (h & Hrun & y & -> & Hy).
  - exists 0. split; [done|lra].
  - intros i h Hi (y & -> & Hy).
    destruct (lookup_lt_is_Some_2 tx i) as [t Ht]; [lia|].
    destruct (lookup_lt_is_Some_2 rx i Hi) as [r Hr].
    assert (Hin : t ∈ constSymb)
      by (by apply (Forall_lookup_1 _ _ _ _ Htx Ht)).
    assert (Hne : constSymb <> [])
      by (intros ->; by apply elem_of_nil in Hin).
    destruct (np_argmin_is_Some (map (fun c => Cabs (Csub t c)) constSymb))
      as (j & Hj & Hjlt).
    { intros Hnil. apply (f_equal length) in Hnil.
      rewrite length_map in Hnil. by destruct constSymb. }
    pose proof (nearest_of_member _ _ _ Hin Hj) as Hcj.
    rewrite length_map in Hjlt.
    destruct (lookup_lt_is_Some_2 pX j) as [p Hp]; [lia|].
    rewrite (calcMI_step_exact rx tx sigma2 constSymb pX i j (Fin y) t r p)
      by (done || lra).
    assert (Hp0 : 0 < p) by (by eapply (Forall_lookup_1 _ _ _ _ Hpos)).
    set (f := fun c => - (1 / sigma2) * Cabs (Csub r c) ^ 2).
    set (pY := Rsum (zip_with Rmult _ pX)).
    assert (HpY : 0 < pY) by (by apply (weighted_likelihood_pos f)).
    assert (Hterm : exp (f t) * p <= pY).
    { apply (Rsum_term_le _ j).
      - apply Forall_lookup_2. intros k x Hk.
        apply lookup_zip_with_Some in Hk as (e & q & -> & He & Hq).
        rewrite list_lookup_fmap in He.
        destruct (constSymb !! k) as [c|]; [|done]. injection He as <-.
        pose proof (exp_pos (f c)).
        pose proof (Forall_lookup_1 _ _ _ _ Hpos Hq) as Hq0. simpl in Hq0.
        unfold f in *. nra.
      - rewrite lookup_zip_with, list_lookup_fmap, Hcj, Hp. done. }
    clearbody pY.
    rewrite (xlog2_pos p) by done.
    rewrite (xlog2_pos pY) by exact HpY.
    eexists. split; [simpl; reflexivity|]. eexists. split; [reflexivity|].
    assert (Hln : f t + ln p <= ln pY).
    { rewrite <- (ln_exp (f t)) at 1.
      rewrite <- ln_mult by (try apply exp_pos; done).
      destruct (Rle_lt_or_eq_dec _ _ Hterm) as [Hlt| ->]; [|lra].
      apply Rlt_le, ln_increasing; [|done].
      pose proof (exp_pos (f t)). nra. }
    rewrite ln_exp. pose proof ln_2_pos as H2.
    assert (Hdiv : (f t + ln p) / ln 2 <= ln pY / ln 2).
    { apply Rmult_le_compat_r; [|done]. apply Rlt_le.
      by apply Rinv_0_lt_compat. }
    unfold f in *. unfold Rdiv in *. lra.
  - rewrite Hrun. cbn [mbind option_bind].
    rewrite H_X_entropy by done. cbn [xdivn].
    assert (HN : (1 <= length rx)%nat) by (destruct rx; [done|simpl; lia]).
    rewrite np_div_real by done. simpl. eexists. split; [done|].
    assert (0 < INR (length rx)) by (apply lt_0_INR; lia).
    assert (0 <= y / INR (length rx)).
    { apply Rmult_le_pos; [done|]. apply Rlt_le. by apply Rinv_0_lt_compat. }
    lra.
Qed.

Lemma Rsum_replicate (n : nat) (x : R) : Rsum (replicate n x) = INR n * x.
Proof.
  induction n as [|n IH]; [simpl; lra|].
  rewrite S_INR. cbn [replicate Rsum foldr]. fold (Rsum (replicate n x)).
  rewrite IH. lra.
Qed.

Lemma entropy_uniform (M : nat) :
  (1 <= M)%nat ->
  entropy (map (Rmult (1 / INR M)) (replicate M 1)) = ln (INR M) / ln 2.
Proof.
  intros HM. unfold entropy.
  change (map (Rmult (1 / INR M)) (replicate M 1))
    with (Rmult (1 / INR M) <$> replicate M 1).
  rewrite fmap_replicate.
  change (map ?f (replicate M ?x)) with (f <$> replicate M x).
  rewrite fmap_replicate, Rsum_replicate.
  assert (HM0 : 0 < INR M) by (apply lt_0_INR; lia).
  replace (1 / INR M * 1) with (/ INR M) by (field; lra).
  rewrite ln_Rinv by done. pose proof ln_2_pos. field. lra.
Qed.

Lemma uniform_pmf_pos (M : nat) :
  (1 <= M)%nat ->
  Forall (fun p => 0 < p) (map (Rmult (1 / INR M)) (replicate M 1)).
Proof.
  intros HM. apply Forall_fmap, Forall_replicate. simpl.
  assert (0 < INR M) by (apply lt_0_INR; lia).
  rewrite Rmult_1_r. apply Rdiv_lt_0_compat; lra.
Qed.

(** When every transmitted symbol is a point of the constellation, the
    pmf has positive weights, rx has at least one symbol, the noise
    variance is positive and the joint likelihoods stay in the range of
    float64, [calcMI] returns a finite value that is at most the entropy
    of the pmf: the conditional entropy it subtracts is not negative. *)
Theorem calcMI_at_most_entropy (rx tx : list complex) (sigma2 : R)
    (constSymb : list complex) (pX : list R) :
  0 < sigma2 ->
  rx <> [] -> length rx = length tx ->
  length pX = length constSymb ->
  Forall (fun p => 0 < p) pX ->
  joint_in_range sigma2 constSymb pX rx ->
  Forall (fun t => t ∈ constSymb) tx ->
  exists v, calcMI rx tx sigma2 constSymb pX = Some (Fin v)
            /\ v <= entropy pX.
Proof. apply calcMI_entropy_bound. Qed.

Lemma calcMI_at_most_entropy_witness :
  exists v,
    calcMI rx_noisy tx_pair 1 [mkC (-1) 0; mkC 1 0] [1 / 4; 3 / 4]
    = Some (Fin v)
    /\ v <= entropy [1 / 4; 3 / 4].
Proof.
  apply (calcMI_at_most_entropy rx_noisy tx_pair 1 [mkC (-1) 0; mkC 1 0]
           [1 / 4; 3 / 4]).
  - lra.
  - discriminate.
  - reflexivity.
  - reflexivity.
  - constructor; [lra|]. constructor; [lra|constructor].
  - apply joint_in_range_rx_noisy.
  - constructor; [apply list_elem_of_further, list_elem_of_here|].
    constructor; [apply list_elem_of_here|constructor].
Defined.

(** With the default pmf, no degenerate mode, transmitted symbols that
    are, once normalised, points of the rescaled constellation, and joint
    likelihoods in the range of float64, every value that [monteCarloMI]
    returns is finite and at most [log2 M] bits. *)
Theorem monteCarloMI_at_most_log2M `{Modulation} (rx tx : ndarray) (M : nat)
    (constType : string) :
  (1 <= M)%nat ->
  length (GrayMapping M constType) = M ->
  0 < mean_energy (GrayMapping M constType) ->
  same_shape (columns rx) (columns tx) ->
  Forall2 mi_conditioned (columns rx) (columns tx) ->
  (forall px constSymb k rxk txk,
     monteCarloMI_init M constType [] = Some (px, constSymb) ->
     columns rx !! k = Some rxk -> columns tx !! k = Some txk ->
     Forall (fun t => t ∈ constSymb) (pnorm txk)
     /\ joint_in_range (np_var (zip_with Csub (pnorm rxk) (pnorm txk)))
                       constSymb px (pnorm rxk)) ->
  exists MI,
    monteCarloMI rx tx M constType [] = Some MI
    /\ length MI = length (columns rx)
    /\ Forall (fun m => exists v, m = Fin v /\ v <= ln (INR M) / ln 2) MI.
Proof.
  intros HM Hconst _ Hshape Hmodes Hon.
  destruct (monteCarloMI_value rx tx M constType HM Hconst Hshape)
    as (px & cs & MI & Hinit & Hpx & Hlc & Hrun & Hlen & Hval).
  { intros k rxk txk Hr Ht.
    destruct (Forall2_lookup_lr _ _ _ _ _ _ Hmodes Hr Ht) as (_ & _ & Hv).
    lra. }
  exists MI. split; [done|]. split; [done|].
  apply Forall_lookup_2. intros k m Hm.
  destruct (lookup_lt_is_Some_2 (columns rx) k) as [rxk Hrxk].
  { rewrite <- Hlen. by eapply lookup_lt_Some. }
  destruct (lookup_lt_is_Some_2 (columns tx) k) as [txk Htxk].
  { rewrite <- (Forall2_length _ _ _ Hshape). by eapply lookup_lt_Some. }
  destruct (Hval k rxk txk Hrxk Htxk) as (v & Hv & Hk).
  rewrite Hm in Hk. injection Hk as <-.
  destruct (Forall2_lookup_lr _ _ _ _ _ _ Hmodes Hrxk Htxk)
    as (Hpr & _ & Hnv).
  destruct (Hon px cs k rxk txk Hinit Hrxk Htxk) as [Hmem Hrange].
  pose proof (Forall2_lookup_lr _ _ _ _ _ _ Hshape Hrxk Htxk) as Hl.
  destruct (calcMI_entropy_bound (pnorm rxk) (pnorm txk)
              (np_var (zip_with Csub (pnorm rxk) (pnorm txk))) cs px)
    as (w & Hw & Hle).
  - done.
  - intros Hnil. apply (f_equal length) in Hnil.
    rewrite length_pnorm in Hnil. destruct rxk; [|done].
    rewrite signal_power_nil in Hpr. lra.
  - by rewrite !length_pnorm.
  - rewrite Hpx, Hlc. by rewrite length_map, length_replicate.
  - rewrite Hpx. by apply uniform_pmf_pos.
  - done.
  - done.
  - rewrite Hv in Hw. injection Hw as ->. exists w. split; [done|].
    rewrite Hpx, entropy_uniform in Hle by done. exact Hle.
Qed.

Lemma monteCarloMI_init_bpsk (px : list R) (constSymb : list complex) :
  @monteCarloMI_init bpsk 2 "psk" [] = Some (px, constSymb) ->
  px = [1 / 2; 1 / 2] /\ constSymb = [mkC (-1) 0; mkC 1 0].
Proof.
  unfold monteCarloMI_init. simpl. rewrite !Cabs_sqr. simpl.
  intros [= <- <-]. split; [data_eq|].
  replace (_ + _) with 1 by field. rewrite sqrt_1. unfold Cdivr. simpl.
  data_eq.
Qed.

Lemma monteCarloMI_at_most_log2M_witness :
  exists MI,
    @monteCarloMI bpsk (Array1D rx_noisy) (Array1D tx_pair) 2 "psk" []
    = Some MI
    /\ length MI = length (columns (Array1D rx_noisy))
    /\ Forall (fun m => exists v, m = Fin v /\ v <= ln (INR 2) / ln 2) MI.
Proof.
  apply (@monteCarloMI_at_most_log2M bpsk (Array1D rx_noisy)
           (Array1D tx_pair) 2 "psk").
  - lia.
  - reflexivity.
  - change (@GrayMapping bpsk 2 "psk") with [mkC (-1) 0; mkC 1 0].
    rewrite mean_energy_bpsk. lra.
  - constructor; [reflexivity|constructor].
  - constructor; [apply mi_conditioned_rx_noisy|constructor].
  - intros px constSymb [|k] rxk txk Hinit Hr Ht; simpl in Hr, Ht;
      [|discriminate].
    injection Hr as <-. injection Ht as <-.
    apply monteCarloMI_init_bpsk in Hinit as [-> ->].
    rewrite np_var_rx_noisy_normalised, pnorm_tx_pair, pnorm_rx_noisy.
    split.
    + constructor; [apply list_elem_of_further, list_elem_of_here|].
      constructor; [apply list_elem_of_here|constructor].
    + pose proof (ln_lower (1 / 2) ltac:(lra)).
      split; [repeat constructor; lra|].
      repeat constructor; rewrite Cabs_sqr; simpl; lra.
Defined.
